(** * The licensing core of [src/app/main.cpp]

    A shallow embedding of the [Paywall] namespace and of [LicenseData]:
    the obfuscation codec ([xorEncrypt] / [xorDecrypt]), the license record,
    the two persistence artifacts (the encrypted blob and the marker line in
    the anchor file), the validator [hasValidLicense], the activation
    flow [activateNewLicense] and the decisions of the paywall dialogs
    ([PaywallDialog]).

    Conventions of the model.
    - A [QString] is represented by the UTF-8 bytes of its text and a
      [QByteArray] by its bytes.  [QString::toUtf8] is the identity on
      this representation; [QString::fromUtf8] decodes: it drops a
      leading byte-order mark and turns every byte that is not part of a
      well-formed sequence into U+FFFD.  A [QString] with unpaired
      surrogates has no representation, and bytes that are not
      well-formed UTF-8 are the text of no [QString] ([Text] tells the
      ones that are); the length of a string is only taken where the
      string is ASCII, so that its bytes are its UTF-16 code units.
    - The null [QString()] and the empty string are both [[]]: the code
      only observes them through [isEmpty] and [==], which identify them.
    - White space is the ASCII white space in the [\s] of the regular
      expressions, and what [QChar::isSpace] accepts in [trimmed].
    - The machine of the model has the two files of the persistence
      store, the network interfaces and the clock.  The log that
      [paywallDebug] appends to, and what the code prints, are left out.
    - Files are read and written whole; opening a file is the only step
      that can fail, as it is the only one the code tests.  The code opens
      its files in text mode: reading drops every carriage return, and
      line feeds are written as they are (on Windows the text mode writes
      a carriage return before each, which the next reading drops).  The
      configuration directory that [getConfigDir] creates on the way to
      the blob path is part of whether the blob file can be opened.
    - A [QDateTime] is a number of milliseconds since the epoch; the time
      zone of the machine, which [addDays] goes through, is an interface.
    - The Qt calls the code makes are collected in [Module Qt]; they follow
      the documented behaviour of the library. *)

From Stdlib Require Import List Bool Arith NArith ZArith Lia Ascii String.
From Stdlib Require DecimalString.
Import ListNotations.

(* ===================================================================== *)
(** ** Qt primitives used by the code *)
(* ===================================================================== *)

Module Qt.

Definition QByteArray := list ascii.
Definition QString := list ascii.

(** Text literals. *)
Definition Q (s : string) : QString := list_ascii_of_string s.

Definition isEmpty (s : list ascii) : bool :=
  match s with [] => true | _ :: _ => false end.

(** [operator==] on strings. *)
Fixpoint qeqb (a b : list ascii) : bool :=
  match a, b with
  | [], [] => true
  | x :: a', y :: b' => Ascii.eqb x y && qeqb a' b'
  | _, _ => false
  end.

(** *** Text helpers *)

(** The line feed, ['\n'], and the carriage return, ['\r']. *)
Definition newline : ascii := "010"%char.
Definition carriageReturn : ascii := "013"%char.

Fixpoint takeWhile (f : ascii -> bool) (s : list ascii) : list ascii :=
  match s with
  | [] => []
  | c :: t => if f c then c :: takeWhile f t else []
  end.

Fixpoint dropWhile (f : ascii -> bool) (s : list ascii) : list ascii :=
  match s with
  | [] => []
  | c :: t => if f c then dropWhile f t else s
  end.

(** What follows the prefix [p] in [s], if [s] starts with [p]. *)
Fixpoint stripPrefix (p s : list ascii) : option (list ascii) :=
  match p, s with
  | [], _ => Some s
  | x :: p', y :: s' => if Ascii.eqb x y then stripPrefix p' s' else None
  | _ :: _, [] => None
  end.

Definition startsWith (s p : QString) : bool :=
  match stripPrefix p s with Some _ => true | None => false end.

(** [QString::contains] for a one-character needle. *)
Definition containsChar (s : QString) (c : ascii) : bool :=
  existsb (Ascii.eqb c) s.

(** *** UTF-8 ([QString::toUtf8], [QString::fromUtf8]) *)

Definition isAscii (c : ascii) : bool := (N_of_ascii c <? 128)%N.

Definition inRange (lo hi : N) (c : ascii) : bool :=
  let n := N_of_ascii c in ((lo <=? n) && (n <=? hi))%N.

Definition isContinuation (c : ascii) : bool := inRange 128 191 c.

(** The length of the well-formed sequence at the head of [s], [None]
    when the first byte begins none: a continuation byte, a byte that no
    sequence has (C0, C1, F5 and above), a sequence cut short, an overlong
    form, a surrogate or a code point above U+10FFFF. *)
Definition sequenceLength (s : QByteArray) : option nat :=
  match s with
  | [] => None
  | c :: t =>
      let n := N_of_ascii c in
      if (n <? 128)%N then Some 1%nat
      else if (n <? 194)%N then None
      else if (n <? 224)%N then
        match t with
        | c2 :: _ => if isContinuation c2 then Some 2%nat else None
        | [] => None
        end
      else if (n <? 240)%N then
        match t with
        | c2 :: c3 :: _ =>
            if inRange (if (n =? 224)%N then 160 else 128)
                       (if (n =? 237)%N then 159 else 191) c2
               && isContinuation c3
            then Some 3%nat else None
        | _ => None
        end
      else if (n <? 245)%N then
        match t with
        | c2 :: c3 :: c4 :: _ =>
            if inRange (if (n =? 240)%N then 144 else 128)
                       (if (n =? 244)%N then 143 else 191) c2
               && isContinuation c3 && isContinuation c4
            then Some 4%nat else None
        | _ => None
        end
      else None
  end.

(** U+FEFF and U+FFFD in UTF-8. *)
Definition byteOrderMark : QByteArray := ["239"%char; "187"%char; "191"%char].
Definition replacement : QString := ["239"%char; "191"%char; "189"%char].

(** The decoding loop.  A well-formed sequence is taken over, its bytes
    after the first being the [pending] ones; any other byte gives the
    replacement character, and the loop goes on with the next byte. *)
Fixpoint decodeFrom (pending : nat) (s : QByteArray) : QString :=
  match s with
  | [] => []
  | c :: t =>
      match pending with
      | S k => c :: decodeFrom k t
      | O =>
          match sequenceLength s with
          | Some n => c :: decodeFrom (Nat.pred n) t
          | None => replacement ++ decodeFrom 0 t
          end
      end
  end.

Definition toUtf8 (s : QString) : QByteArray := s.

Definition fromUtf8 (b : QByteArray) : QString :=
  decodeFrom 0
    (match stripPrefix byteOrderMark b with Some t => t | None => b end).

(** Bytes that [fromUtf8] gives back as they are: well-formed UTF-8 that
    does not begin with a byte-order mark. *)
Definition isUtf8Text (b : QByteArray) : bool := qeqb (fromUtf8 b) b.

(** *** Latin-1 ([QString::fromLatin1], [QString::toLatin1]) *)

(** [QString::fromLatin1]: every byte is the code point of the same value;
    code points from U+0080 on take two bytes in the representation. *)
Definition latin1_char (b : ascii) : QString :=
  let n := N_of_ascii b in
  if (n <? 128)%N then [b]
  else [ascii_of_N (192 + n / 64); ascii_of_N (128 + n mod 64)].

Definition fromLatin1 (b : QByteArray) : QString := flat_map latin1_char b.

(** [QString::toLatin1]: a code point below U+0100 becomes its byte, every
    other UTF-16 code unit becomes ['?'] (a character outside the basic
    plane has two).  [skip] counts the bytes of the current sequence still
    to pass.  A byte that belongs to no sequence, which no [QString] has,
    counts as the replacement character. *)
Fixpoint toLatin1_aux (skip : nat) (s : QString) : QByteArray :=
  match s with
  | [] => []
  | c :: t =>
      match skip with
      | S k => toLatin1_aux k t
      | O =>
          match sequenceLength s with
          | Some 1%nat => c :: toLatin1_aux 0 t
          | Some 2%nat =>
              let n := N_of_ascii c in
              if (n <? 196)%N then
                match t with
                | c2 :: _ =>
                    ascii_of_N ((n - 192) * 64 + (N_of_ascii c2 - 128))
                      :: toLatin1_aux 1 t
                | [] => ["?"%char]
                end
              else "?"%char :: toLatin1_aux 1 t
          | Some 3%nat => "?"%char :: toLatin1_aux 2 t
          | Some _ => "?"%char :: "?"%char :: toLatin1_aux 3 t
          | None => "?"%char :: toLatin1_aux 0 t
          end
      end
  end.

Definition toLatin1 (s : QString) : QByteArray := toLatin1_aux 0 s.

(** *** Base64 ([QByteArray::toBase64], [QByteArray::fromBase64])

    Default options: the standard alphabet, ['='] padding on encoding,
    and on decoding every character outside the alphabet is skipped. *)

Definition alphabet_base64 : list ascii :=
  Q "ABCDEFGHIJKLMNOPQRSTUVWXYZabcdefghijklmnopqrstuvwxyz0123456789+/".

Definition alphabet (v : N) : ascii :=
  nth (N.to_nat v) alphabet_base64 "="%char.

Definition padchar : ascii := "="%char.

(** Three bytes at a time; [chunk] is the 24-bit group
    [b1 << 16 | b2 << 8 | b3], cut into four 6-bit indices. *)
Fixpoint toBase64 (bytes : QByteArray) : QByteArray :=
  match bytes with
  | [] => []
  | [b1] =>
      let chunk := (N_of_ascii b1 * 65536)%N in
      [alphabet (chunk / 262144); alphabet ((chunk / 4096) mod 64);
       padchar; padchar]
  | [b1; b2] =>
      let chunk := (N_of_ascii b1 * 65536 + N_of_ascii b2 * 256)%N in
      [alphabet (chunk / 262144); alphabet ((chunk / 4096) mod 64);
       alphabet ((chunk / 64) mod 64); padchar]
  | b1 :: b2 :: b3 :: rest =>
      let chunk :=
        (N_of_ascii b1 * 65536 + N_of_ascii b2 * 256 + N_of_ascii b3)%N in
      alphabet (chunk / 262144) :: alphabet ((chunk / 4096) mod 64)
        :: alphabet ((chunk / 64) mod 64) :: alphabet (chunk mod 64)
        :: toBase64 rest
  end.

(** The value of an alphabet character, [None] for any other character. *)
Definition base64_value (ch : ascii) : option N :=
  let c := N_of_ascii ch in
  if ((65 <=? c) && (c <=? 90))%N then Some (c - 65)%N
  else if ((97 <=? c) && (c <=? 122))%N then Some (c - 97 + 26)%N
  else if ((48 <=? c) && (c <=? 57))%N then Some (c - 48 + 52)%N
  else if (c =? 43)%N then Some 62%N
  else if (c =? 47)%N then Some 63%N
  else None.

(** The decoding loop: [buf] collects 6 bits per alphabet character
    ([buf = buf << 6 | d]) and a byte leaves as soon as 8 bits are there
    ([buf >> nbits], then [buf &= (1 << nbits) - 1]). *)
Fixpoint fromBase64_helper (buf nbits : N) (input : QByteArray) : QByteArray :=
  match input with
  | [] => []
  | ch :: rest =>
      match base64_value ch with
      | Some d =>
          let buf' := (buf * 64 + d)%N in
          let nbits' := (nbits + 6)%N in
          if (8 <=? nbits')%N then
            let nbits'' := (nbits' - 8)%N in
            ascii_of_N (buf' / 2 ^ nbits'')
              :: fromBase64_helper (buf' mod 2 ^ nbits'') nbits'' rest
          else fromBase64_helper buf' nbits' rest
      | None => fromBase64_helper buf nbits rest
      end
  end.

Definition fromBase64 (base64 : QByteArray) : QByteArray :=
  fromBase64_helper 0 0 base64.

(** *** White space *)

(** [QChar::isSpace] on the ASCII range: tab, line feed, vertical tab,
    form feed, carriage return and space.  The white space of a regular
    expression ([\s], without the Unicode-properties option) is this
    set. *)
Definition isSpace (c : ascii) : bool :=
  let n := N_of_ascii c in
  (((9 <=? n) && (n <=? 13)) || (n =? 32))%N.

(** The other characters [QChar::isSpace] accepts, by their bytes: U+0085
    and U+00A0, which take two, *)
Definition isSpace2 (c1 c2 : ascii) : bool :=
  let n1 := N_of_ascii c1 in
  let n2 := N_of_ascii c2 in
  ((n1 =? 194) && ((n2 =? 133) || (n2 =? 160)))%N.

(** and U+1680, U+2000 to U+200A, U+2028, U+2029, U+202F, U+205F and
    U+3000, which take three. *)
Definition isSpace3 (c1 c2 c3 : ascii) : bool :=
  let n1 := N_of_ascii c1 in
  let n2 := N_of_ascii c2 in
  let n3 := N_of_ascii c3 in
  (((n1 =? 225) && (n2 =? 154) && (n3 =? 128))
   || ((n1 =? 226) && (n2 =? 128)
       && (((128 <=? n3) && (n3 <=? 138))
           || (n3 =? 168) || (n3 =? 169) || (n3 =? 175)))
   || ((n1 =? 226) && (n2 =? 129) && (n3 =? 159))
   || ((n1 =? 227) && (n2 =? 128) && (n3 =? 128)))%N.

(** The text behind its leading white space.  [space2] and [space3] tell
    the characters of two and three bytes, so that the same loop serves
    from the end, on the reversed text. *)
Fixpoint skipSpaces (space2 : ascii -> ascii -> bool)
         (space3 : ascii -> ascii -> ascii -> bool) (s : QString) : QString :=
  match s with
  | [] => []
  | c1 :: t1 =>
      if isSpace c1 then skipSpaces space2 space3 t1
      else
        match t1 with
        | [] => s
        | c2 :: t2 =>
            if space2 c1 c2 then skipSpaces space2 space3 t2
            else
              match t2 with
              | [] => s
              | c3 :: t3 =>
                  if space3 c1 c2 c3 then skipSpaces space2 space3 t3
                  else s
              end
        end
  end.

(** [QString::trimmed]: without the white space at both ends. *)
Definition trimmed (s : QString) : QString :=
  rev (skipSpaces (fun c2 c1 => isSpace2 c1 c2)
         (fun c3 c2 c1 => isSpace3 c1 c2 c3)
         (rev (skipSpaces isSpace2 isSpace3 s))).

(** *** Files in text mode *)

(** What [readAll] returns on a device opened with [QIODevice::Text]: the
    bytes of the file without the carriage returns. *)
Definition readText (bytes : QByteArray) : QByteArray :=
  filter (fun c => negb (Ascii.eqb c carriageReturn)) bytes.

(** *** Date and time

    A [QDateTime] is invalid ([None]) or a number of milliseconds since
    the epoch, in UTC.  In the order of [QDateTime] an invalid value is
    below every valid one. *)
Definition QDateTime := option Z.

Definition dt_lt (a b : QDateTime) : bool :=
  match a, b with
  | None, Some _ => true
  | Some x, Some y => (x <? y)%Z
  | _, None => false
  end.

Definition dt_le (a b : QDateTime) : bool := negb (dt_lt b a).
Definition dt_gt (a b : QDateTime) : bool := dt_lt b a.

Definition dt_isValid (a : QDateTime) : bool :=
  match a with Some _ => true | None => false end.

(** An offset of local time from UTC, in milliseconds: at most 16 hours
    either way. *)
Definition isUtcOffset (offset : Z) : bool :=
  (Z.abs offset <=? 16 * 3600000)%Z.

(** The time zone of the machine: the offset of local time at an instant
    given in UTC, and at a date and time given on the local clock, where
    the library settles the times that a change of the offset skips or
    repeats. *)
Class TimeZone : Type := {
  offsetFromUtc : Z -> Z;
  offsetAtLocal : Z -> Z;
  offsetFromUtc_range : forall utc, isUtcOffset (offsetFromUtc utc) = true;
  offsetAtLocal_range : forall local, isUtcOffset (offsetAtLocal local) = true
}.

(** [QDateTime::addDays] on a local time, as [currentDateTime] returns
    it: the date on the local clock moves by [days], the time of day
    stays, and the result is that local date and time. *)
Definition addDays {zone : TimeZone} (a : QDateTime) (days : Z) : QDateTime :=
  match a with
  | Some ms =>
      let local := (ms + offsetFromUtc ms + days * 86400000)%Z in
      Some (local - offsetAtLocal local)%Z
  | None => None
  end.

(** *** JSON values *)
#[local] Set Warnings "-register-all".
Inductive QJsonValue : Type :=
| JUndefined
| JNull
| JBool (b : bool)
| JNumber (lexeme : QString)
| JString (s : QString)
| JArray (items : list QJsonValue)
| JObject (members : list (QString * QJsonValue)).

Definition QJsonObject := list (QString * QJsonValue).

(** [QJsonObject::value]: [Undefined] for a missing key. *)
Fixpoint value (obj : QJsonObject) (key : QString) : QJsonValue :=
  match obj with
  | [] => JUndefined
  | (k, v) :: rest => if qeqb k key then v else value rest key
  end.

(** [obj[key] = v]. *)
Fixpoint insert (obj : QJsonObject) (key : QString) (v : QJsonValue)
  : QJsonObject :=
  match obj with
  | [] => [(key, v)]
  | (k, v') :: rest =>
      if qeqb k key then (k, v) :: rest else (k, v') :: insert rest key v
  end.

(** [QJsonValue::toString]: the string, or a null string for any other
    kind of value. *)
Definition toString (v : QJsonValue) : QString :=
  match v with JString s => s | _ => [] end.

(** The conversions between text and JSON documents or dates are Qt's
    ([QJsonDocument::fromJson], [QJsonDocument::toJson] in compact form,
    [QDateTime::toString] and [QDateTime::fromString] with [Qt::ISODate]);
    the model takes them as an interface.  The JSON text that the library
    writes is UTF-8 and has no byte-order mark. *)
Class TextFormats : Type := {
  fromJson : QByteArray -> QJsonValue;
  toJson : QJsonObject -> QByteArray;
  dateToString : QDateTime -> QString;
  dateFromString : QString -> QDateTime;
  toJson_utf8 : forall obj, isUtf8Text (toJson obj) = true
}.

(** *** Network interfaces *)
Record QNetworkInterface : Type := {
  name : QString;
  flags : N;
  hardwareAddress : QString
}.

(** [QNetworkInterface::IsLoopBack]. *)
Definition IsLoopBack : N := 8.

End Qt.

Import Qt.

(* ===================================================================== *)
(** ** The license record: [struct LicenseData] *)
(* ===================================================================== *)

Module LicenseData.

Record t : Type := {
  email : QString;
  mac : QString;
  uuid : QString;
  issued : QDateTime;
  expires : QDateTime
}.

(** A default-constructed [LicenseData]. *)
Definition default : t :=
  {| email := []; mac := []; uuid := []; issued := None; expires := None |}.

Definition isEmpty (d : t) : bool := Qt.isEmpty (email d).

Section Json.
Context {formats : TextFormats}.

Definition toJsonString (d : t) : QString :=
  let obj : QJsonObject := [] in
  let obj := insert obj (Q "email") (JString (email d)) in
  let obj := insert obj (Q "mac") (JString (mac d)) in
  let obj := insert obj (Q "uuid") (JString (uuid d)) in
  let obj := insert obj (Q "issued") (JString (dateToString (issued d))) in
  let obj := insert obj (Q "expires") (JString (dateToString (expires d))) in
  fromUtf8 (toJson obj).

Definition fromJsonString (json : QString) : t :=
  match fromJson (toUtf8 json) with
  | JObject obj =>
      {| email := toString (value obj (Q "email"));
         mac := toString (value obj (Q "mac"));
         uuid := toString (value obj (Q "uuid"));
         issued := dateFromString (toString (value obj (Q "issued")));
         expires := dateFromString (toString (value obj (Q "expires"))) |}
  | _ => default
  end.

End Json.

(** [isValid], with the current time as an argument. *)
Definition isValid (now : QDateTime) (d : t) : bool :=
  if Qt.isEmpty (email d) || Qt.isEmpty (mac d) || Qt.isEmpty (uuid d)
  then false
  else if negb (dt_isValid (issued d)) || negb (dt_isValid (expires d))
  then false
  else dt_gt (expires d) now.

End LicenseData.

(* ===================================================================== *)
(** ** The machine the program runs on *)
(* ===================================================================== *)

(** The writes the program performs, in the order it performs them. *)
Inductive FsEvent : Type :=
| WroteLicense (content : QString)
| CreatedTestDir
| CreatedCMakeLists
| WroteCMakeLists (content : QString).

(** The two files of the persistence store, the network interfaces and the
    clock.  A file is [None] when it does not exist; the [can_] flags say
    whether opening it for reading or for writing succeeds. *)
Record World : Type := {
  interfaces : list QNetworkInterface;
  currentDateTime : Z;
  license_file : option QString;
  license_can_read : bool;
  license_can_write : bool;
  cmake_file : option QString;
  cmake_can_read : bool;
  cmake_can_write : bool;
  test_dir_exists : bool;
  test_dir_can_create : bool;
  journal : list FsEvent
}.

Definition set_license_file (w : World) (content : QString) : World :=
  {| interfaces := interfaces w; currentDateTime := currentDateTime w;
     license_file := Some content;
     license_can_read := license_can_read w;
     license_can_write := license_can_write w;
     cmake_file := cmake_file w;
     cmake_can_read := cmake_can_read w;
     cmake_can_write := cmake_can_write w;
     test_dir_exists := test_dir_exists w;
     test_dir_can_create := test_dir_can_create w;
     journal := journal w ++ [WroteLicense content] |}.

Definition set_cmake_file (w : World) (content : QString) (ev : FsEvent)
  : World :=
  {| interfaces := interfaces w; currentDateTime := currentDateTime w;
     license_file := license_file w;
     license_can_read := license_can_read w;
     license_can_write := license_can_write w;
     cmake_file := Some content;
     cmake_can_read := cmake_can_read w;
     cmake_can_write := cmake_can_write w;
     test_dir_exists := test_dir_exists w;
     test_dir_can_create := test_dir_can_create w;
     journal := journal w ++ [ev] |}.

Definition make_test_dir (w : World) : World :=
  {| interfaces := interfaces w; currentDateTime := currentDateTime w;
     license_file := license_file w;
     license_can_read := license_can_read w;
     license_can_write := license_can_write w;
     cmake_file := cmake_file w;
     cmake_can_read := cmake_can_read w;
     cmake_can_write := cmake_can_write w;
     test_dir_exists := true;
     test_dir_can_create := test_dir_can_create w;
     journal := journal w ++ [CreatedTestDir] |}.

(** [QFile::open(ReadOnly | Text)] followed by [readAll]. *)
Definition read_license (w : World) : option QByteArray :=
  if license_can_read w then option_map readText (license_file w) else None.

Definition read_cmake (w : World) : option QByteArray :=
  if cmake_can_read w then option_map readText (cmake_file w) else None.

(* ===================================================================== *)
(** ** [namespace Paywall] *)
(* ===================================================================== *)

Module Paywall.

Definition getFirstMacAddress (w : World) : QString :=
  let fix loop (l : list QNetworkInterface) : QString :=
    match l with
    | [] => []
    | interface :: rest =>
        (* if (!(interface.flags() & QNetworkInterface::IsLoopBack)) *)
        if (N.land (flags interface) IsLoopBack =? 0)%N then
          let mac := hardwareAddress interface in
          if negb (Qt.isEmpty mac)
             && negb (qeqb mac (Q "00:00:00:00:00:00"))
          then mac
          else loop rest
        else loop rest
    end in
  loop (interfaces w).

Definition systemHasMacAddress (w : World) (targetMac : QString) : bool :=
  if Qt.isEmpty targetMac then false
  else
    let fix loop (l : list QNetworkInterface) : bool :=
      match l with
      | [] => false
      | interface :: rest =>
          if qeqb (hardwareAddress interface) targetMac then true
          else loop rest
      end in
    loop (interfaces w).

(** [bytes[i] ^ keyBytes[...]] on [char]: bit by bit. *)
Definition xor_char (a b : ascii) : ascii :=
  match a, b with
  | Ascii a0 a1 a2 a3 a4 a5 a6 a7, Ascii b0 b1 b2 b3 b4 b5 b6 b7 =>
      Ascii (xorb a0 b0) (xorb a1 b1) (xorb a2 b2) (xorb a3 b3)
            (xorb a4 b4) (xorb a5 b5) (xorb a6 b6) (xorb a7 b7)
  end.

(** The loop [for (i = 0; i < bytes.size(); ++i)
      bytes[i] = bytes[i] ^ keyBytes[i % keyBytes.size()]], from index [i]. *)
Fixpoint xorLoop (keyBytes : QByteArray) (i : nat) (bytes : QByteArray)
  : QByteArray :=
  match bytes with
  | [] => []
  | b :: rest =>
      xor_char b (nth (i mod List.length keyBytes) keyBytes zero)
        :: xorLoop keyBytes (S i) rest
  end.

Definition xorEncrypt (data key : QString) : QString :=
  let bytes := toUtf8 data in
  let keyBytes := toUtf8 key in
  if Qt.isEmpty keyBytes then []
  else fromLatin1 (toBase64 (xorLoop keyBytes 0 bytes)).

Definition xorDecrypt (data key : QString) : QString :=
  let bytes := fromBase64 (toLatin1 data) in
  let keyBytes := toUtf8 key in
  if Qt.isEmpty keyBytes || Qt.isEmpty bytes then []
  else fromUtf8 (xorLoop keyBytes 0 bytes).

Definition generateKeyFromMac (mac : QString) : QString :=
  mac ++ Q "|QBIT_PAYWALL_SALT_2024|".

(** *** The marker line of the anchor file *)

Definition marker : QString := Q "# PAYWALL_UUID: ".

(** The character class [[a-fA-F0-9\-]]. *)
Definition isUuidChar (c : ascii) : bool :=
  let n := N_of_ascii c in
  (((97 <=? n) && (n <=? 102)) || ((65 <=? n) && (n <=? 70))
   || ((48 <=? n) && (n <=? 57)) || (n =? 45))%N.

(** A match of [# PAYWALL_UUID: ([a-fA-F0-9\-]+)] at the head of [s]: the
    captured group (the longest run of class characters, at least one) and
    the text after it. *)
Definition matchHere (s : QString) : option (QString * QString) :=
  match stripPrefix marker s with
  | Some t =>
      let captured := takeWhile isUuidChar t in
      if Qt.isEmpty captured then None
      else Some (captured, dropWhile isUuidChar t)
  | None => None
  end.

(** [QRegularExpression::match]: the leftmost match, its captured group. *)
Fixpoint firstMatch (s : QString) : option QString :=
  match s with
  | [] => None
  | _ :: t =>
      match matchHere s with
      | Some (captured, _) => Some captured
      | None => firstMatch t
      end
  end.

(** [QString::remove] with [# PAYWALL_UUID: [a-fA-F0-9\-]+\s*]: every
    match is deleted, from left to right, the search going on behind each
    match.  Each round consumes a character, so [fuel] at least the length
    of [s] is never used up. *)
Fixpoint removeLoop (fuel : nat) (s : QString) : QString :=
  match fuel with
  | O => s
  | S fuel' =>
      match s with
      | [] => []
      | c :: t =>
          match matchHere s with
          | Some (_, rest) => removeLoop fuel' (dropWhile isSpace rest)
          | None => c :: removeLoop fuel' t
          end
      end
  end.

Definition removeUuidPattern (s : QString) : QString :=
  removeLoop (List.length s) s.

(** [QStringLiteral("# PAYWALL_UUID: ") + uuid + QStringLiteral("\n")]. *)
Definition uuidComment (uuid : QString) : QString :=
  marker ++ uuid ++ [newline].

Definition saveUuidToConfig (w : World) (uuid : QString) : bool * World :=
  if Qt.isEmpty uuid then (false, w)
  else
    (* if (!QFile::exists(cmakePath)) { mkpath; create an empty file } *)
    let '(ok, w1) :=
      match cmake_file w with
      | Some _ => (true, w)
      | None =>
          let '(made, w0) :=
            if negb (test_dir_exists w) then
              if negb (test_dir_can_create w) then (false, w)
              else (true, make_test_dir w)
            else (true, w) in
          if negb made then (false, w0)
          else if negb (cmake_can_write w0) then (false, w0)
          else (true, set_cmake_file w0 [] CreatedCMakeLists)
      end in
    if negb ok then (false, w1)
    (* file.open(ReadWrite | Text) *)
    else if negb (cmake_can_read w1 && cmake_can_write w1) then (false, w1)
    else
      let content :=
        match cmake_file w1 with
        | Some bytes => fromUtf8 (readText bytes)
        | None => []
        end in
      let newContent := removeUuidPattern content in
      let newContent :=
        if negb (startsWith newContent (uuidComment uuid))
        then uuidComment uuid ++ newContent
        else newContent in
      (true, set_cmake_file w1 newContent (WroteCMakeLists newContent)).

Definition loadUuidFromConfig (w : World) : QString :=
  match cmake_file w with
  | None => []
  | Some _ =>
      match read_cmake w with
      | None => []
      | Some bytes =>
          let content := fromUtf8 bytes in
          match firstMatch content with
          | Some captured =>
              let uuid := trimmed captured in
              (* the captured group is ASCII: its length in bytes is
                 [uuid.length()] *)
              if containsChar uuid "-"%char
                 && (List.length uuid =? 36)%nat
              then uuid
              else []
          | None => []
          end
      end
  end.

Definition getCurrentDateTimeSafe (w : World) : QDateTime :=
  Some (currentDateTime w).

Definition isLicenseExpired (w : World) (expires : QDateTime) : bool :=
  dt_le expires (getCurrentDateTimeSafe w).

Section WithFormats.
Context {formats : TextFormats} {zone : TimeZone}.

Definition saveLicense (w : World) (license : LicenseData.t) : bool * World :=
  if LicenseData.isEmpty license then (false, w)
  else
    let json := LicenseData.toJsonString license in
    let key := generateKeyFromMac (LicenseData.mac license) in
    let encrypted := xorEncrypt json key in
    if Qt.isEmpty encrypted then (false, w)
    else if negb (license_can_write w) then (false, w)
    else
      let w1 := set_license_file w (toUtf8 encrypted) in
      saveUuidToConfig w1 (LicenseData.uuid license).

Definition loadLicense (w : World) : LicenseData.t :=
  match read_license w with
  | None => LicenseData.default
  | Some bytes =>
      let encrypted := fromUtf8 bytes in
      if Qt.isEmpty encrypted then LicenseData.default
      else
        let currentMac := getFirstMacAddress w in
        if Qt.isEmpty currentMac then LicenseData.default
        else
          let key := generateKeyFromMac currentMac in
          let decrypted := xorDecrypt encrypted key in
          if Qt.isEmpty decrypted then LicenseData.default
          else LicenseData.fromJsonString decrypted
  end.

Definition hasValidLicense (w : World) : bool :=
  let license := loadLicense w in
  if LicenseData.isEmpty license then false
  else if negb (systemHasMacAddress w (LicenseData.mac license)) then false
  else
    let configUuid := loadUuidFromConfig w in
    if Qt.isEmpty configUuid
       || negb (qeqb configUuid (LicenseData.uuid license))
    then false
    else if isLicenseExpired w (LicenseData.expires license) then false
    else true.

(** [generated] is the text [generateUuid()] returns in this run. *)
Definition activateNewLicense (w : World) (generated email : QString)
  : bool * World :=
  let mac := getFirstMacAddress w in
  if Qt.isEmpty mac then (false, w)
  else
    let uuid := generated in
    if Qt.isEmpty uuid then (false, w)
    else
      let issued : QDateTime := Some (currentDateTime w) in
      let license :=
        {| LicenseData.email := trimmed email;
           LicenseData.mac := mac;
           LicenseData.uuid := uuid;
           LicenseData.issued := issued;
           LicenseData.expires := addDays issued 30 |} in
      saveLicense w license.

End WithFormats.

End Paywall.

Import Paywall.

(* ===================================================================== *)
(** ** [namespace PaywallDialog] *)
(* ===================================================================== *)

(** The dialogs are modal: each call waits for the user.  What the user
    does is an argument of the model, and what the code asks of the
    application (message boxes, a restart, quitting, showing the paywall
    again after a delay) is returned as a list of events, in order. *)
Module PaywallDialog.

(** The answer to [QInputDialog::getText]: the [ok] flag and the text. *)
Record Prompt : Type := { accepted : bool; typed : QString }.

(** The ways out of the paywall dialog: its two buttons, and closing it
    (the close button of the title bar, the escape key), which rejects
    it. *)
Inductive Choice : Type :=
| ActivateClicked (answer : Prompt)
| ExitClicked
| DialogClosed.

Inductive UiEvent : Type :=
| InformationShown
| WarningShown
| StartDetached
| QuitRequested
| PaywallScheduled (msec : Z).

(** [email] is the reference parameter: written only on success. *)
Definition askForEmail (email : QString) (answer : Prompt) : bool * QString :=
  let ok := accepted answer in
  let text := typed answer in
  if ok && negb (Qt.isEmpty text) then (true, text) else (false, email).

Section WithFormats.
Context {formats : TextFormats} {zone : TimeZone}.

Definition showActivationDialog (w : World) (generated : QString)
           (answer : Prompt) : list UiEvent * World :=
  let email : QString := [] in
  let '(got, email) := askForEmail email answer in
  if negb got then ([PaywallScheduled 500], w)
  else
    let '(activated, w') := activateNewLicense w generated email in
    if activated
    then ([InformationShown; StartDetached; QuitRequested], w')
    else ([WarningShown; PaywallScheduled 500], w').

Definition showPaywall (w : World) (generated : QString) (choice : Choice)
  : list UiEvent * World :=
  match choice with
  | ActivateClicked answer =>
      (* accept(); showActivationDialog(); exec() returns Accepted *)
      showActivationDialog w generated answer
  | ExitClicked =>
      (* reject(); quit(); exec() returns Rejected: quit() *)
      ([QuitRequested; QuitRequested], w)
  | DialogClosed =>
      (* exec() returns Rejected: quit() *)
      ([QuitRequested], w)
  end.

(** The paywall entry point of [main]: the check, and the paywall two
    seconds later when it fails. *)
Definition paywallEntryPoint (w : World) : list UiEvent :=
  if negb (hasValidLicense w) then [PaywallScheduled 2000] else [].

End WithFormats.

End PaywallDialog.

Import PaywallDialog.

(* ===================================================================== *)
(** ** A small instance of the text formats and a sample machine *)
(* ===================================================================== *)

(** Enough of JSON and of date text to run the model on examples: flat
    objects of string members without escapes or white space, and dates
    written as a decimal number of milliseconds. *)
Module Sample.

Definition dquote : ascii := "034"%char.

Definition quoted (s : QString) : QByteArray := dquote :: s ++ [dquote].

Fixpoint writeMembers (obj : QJsonObject) : QByteArray :=
  match obj with
  | [] => []
  | (k, v) :: rest =>
      quoted k ++ [":"%char] ++ quoted (toString v)
        ++ match rest with
           | [] => []
           | _ :: _ => [","%char] ++ writeMembers rest
           end
  end.

Definition writeObject (obj : QJsonObject) : QByteArray :=
  ["{"%char] ++ writeMembers obj ++ ["}"%char].

Inductive Mode : Type :=
| BeforeObject
| BeforeKey
| InKey (key : QString)
| BeforeColon (key : QString)
| BeforeValue (key : QString)
| InValue (key val : QString)
| AfterValue
| AfterObject.

Fixpoint parse (mode : Mode) (acc : QJsonObject) (s : QByteArray)
  : QJsonValue :=
  match s with
  | [] => match mode with AfterObject => JObject acc | _ => JNull end
  | c :: t =>
      match mode with
      | BeforeObject =>
          if Ascii.eqb c "{" then parse BeforeKey acc t else JNull
      | BeforeKey =>
          if Ascii.eqb c dquote then parse (InKey []) acc t
          else if Ascii.eqb c "}" && Nat.eqb (List.length acc) 0
               then parse AfterObject acc t
               else JNull
      | InKey k =>
          if Ascii.eqb c dquote then parse (BeforeColon k) acc t
          else parse (InKey (k ++ [c])) acc t
      | BeforeColon k =>
          if Ascii.eqb c ":" then parse (BeforeValue k) acc t else JNull
      | BeforeValue k =>
          if Ascii.eqb c dquote then parse (InValue k []) acc t else JNull
      | InValue k v =>
          if Ascii.eqb c dquote
          then parse AfterValue (insert acc k (JString v)) t
          else parse (InValue k (v ++ [c])) acc t
      | AfterValue =>
          if Ascii.eqb c "," then parse BeforeKey acc t
          else if Ascii.eqb c "}" then parse AfterObject acc t
          else JNull
      | AfterObject => JNull
      end
  end.

Definition writeDate (d : QDateTime) : QString :=
  match d with
  | Some ms =>
      list_ascii_of_string (DecimalString.NilZero.string_of_int (Z.to_int ms))
  | None => []
  end.

Definition readDate (s : QString) : QDateTime :=
  match s with
  | [] => None
  | _ :: _ =>
      option_map Z.of_int
        (DecimalString.NilZero.int_of_string (string_of_list_ascii s))
  end.

(** The text of a document.  An object with a string that is no text,
    which no [QJsonObject] has, is written as the empty object. *)
Definition writeDocument (obj : QJsonObject) : QByteArray :=
  let text := writeObject obj in
  if isUtf8Text text then text else Q "{}".

Definition writeDocument_utf8 (obj : QJsonObject)
  : isUtf8Text (writeDocument obj) = true :=
  (if isUtf8Text (writeObject obj) as b
      return isUtf8Text (writeObject obj) = b ->
             isUtf8Text (if b then writeObject obj else Q "{}") = true
   then fun e => e
   else fun _ => eq_refl) eq_refl.

#[export] Instance formats : TextFormats := {
  fromJson := parse BeforeObject [];
  toJson := writeDocument;
  dateToString := writeDate;
  dateFromString := readDate;
  toJson_utf8 := writeDocument_utf8
}.

(** Central European time around the end of the summer time of 2023: two
    hours ahead of UTC until 01:00 UTC on 29 October, which is 03:00 on
    the local clock, and one hour from then on.  The hour that the local
    clock shows twice counts as summer time. *)
Definition endOfSummerTime : Z := 1698541200000.

Definition offsetAt (utc : Z) : Z :=
  if (utc <? endOfSummerTime)%Z then 7200000%Z else 3600000%Z.

Definition offsetOn (local : Z) : Z :=
  if (local <? endOfSummerTime + 7200000)%Z then 7200000%Z else 3600000%Z.

Definition offsetAt_range (utc : Z) : isUtcOffset (offsetAt utc) = true :=
  if (utc <? endOfSummerTime)%Z as b
     return isUtcOffset (if b then 7200000%Z else 3600000%Z) = true
  then eq_refl else eq_refl.

Definition offsetOn_range (local : Z) : isUtcOffset (offsetOn local) = true :=
  if (local <? endOfSummerTime + 7200000)%Z as b
     return isUtcOffset (if b then 7200000%Z else 3600000%Z) = true
  then eq_refl else eq_refl.

#[export] Instance zone : TimeZone := {
  offsetFromUtc := offsetAt;
  offsetAtLocal := offsetOn;
  offsetFromUtc_range := offsetAt_range;
  offsetAtLocal_range := offsetOn_range
}.

Definition lo : QNetworkInterface :=
  {| name := Q "lo"; flags := 11; hardwareAddress := Q "00:00:00:00:00:00" |}.

Definition eth0 : QNetworkInterface :=
  {| name := Q "eth0"; flags := 39;
     hardwareAddress := Q "AA:BB:CC:DD:EE:FF" |}.

(** A tunnel device: no hardware address. *)
Definition tun0 : QNetworkInterface :=
  {| name := Q "tun0"; flags := 19; hardwareAddress := [] |}.

(** A machine before any activation: no blob, an anchor file without a
    marker. *)
Definition machine : World :=
  {| interfaces := [lo; tun0; eth0];
     currentDateTime := 1700000000000;
     license_file := None;
     license_can_read := true;
     license_can_write := true;
     cmake_file := Some (Q "add_subdirectory(unit)" ++ [newline]);
     cmake_can_read := true;
     cmake_can_write := true;
     test_dir_exists := true;
     test_dir_can_create := true;
     journal := [] |}.

(** The same machine with another anchor file, blob and clock. *)
Definition withFiles (w : World) (blob anchor : option QString) (now : Z)
  : World :=
  {| interfaces := interfaces w;
     currentDateTime := now;
     license_file := blob;
     license_can_read := license_can_read w;
     license_can_write := license_can_write w;
     cmake_file := anchor;
     cmake_can_read := cmake_can_read w;
     cmake_can_write := cmake_can_write w;
     test_dir_exists := test_dir_exists w;
     test_dir_can_create := test_dir_can_create w;
     journal := journal w |}.

(** The same machine with other network interfaces. *)
Definition withInterfaces (w : World) (l : list QNetworkInterface) : World :=
  {| interfaces := l;
     currentDateTime := currentDateTime w;
     license_file := license_file w;
     license_can_read := license_can_read w;
     license_can_write := license_can_write w;
     cmake_file := cmake_file w;
     cmake_can_read := cmake_can_read w;
     cmake_can_write := cmake_can_write w;
     test_dir_exists := test_dir_exists w;
     test_dir_can_create := test_dir_can_create w;
     journal := journal w |}.

(** The same machine on which the blob file cannot be opened for
    writing. *)
Definition readOnlyBlob (w : World) : World :=
  {| interfaces := interfaces w;
     currentDateTime := currentDateTime w;
     license_file := license_file w;
     license_can_read := license_can_read w;
     license_can_write := false;
     cmake_file := cmake_file w;
     cmake_can_read := cmake_can_read w;
     cmake_can_write := cmake_can_write w;
     test_dir_exists := test_dir_exists w;
     test_dir_can_create := test_dir_can_create w;
     journal := journal w |}.

(** The same machine on which the anchor file cannot be opened for
    writing. *)
Definition lockedAnchor (w : World) : World :=
  {| interfaces := interfaces w;
     currentDateTime := currentDateTime w;
     license_file := license_file w;
     license_can_read := license_can_read w;
     license_can_write := license_can_write w;
     cmake_file := cmake_file w;
     cmake_can_read := cmake_can_read w;
     cmake_can_write := false;
     test_dir_exists := test_dir_exists w;
     test_dir_can_create := test_dir_can_create w;
     journal := journal w |}.

Definition someUuid : QString := Q "123e4567-e89b-12d3-a456-426614174000".
Definition otherUuid : QString := Q "9f8b7c6d-5e4f-4a3b-8c2d-1e0f9a8b7c6d".

End Sample.

(* ===================================================================== *)
(** ** Vocabulary of the statements *)
(* ===================================================================== *)

(** A character of the base64 alphabet. *)
Definition isBase64Char (c : ascii) : bool :=
  match base64_value c with Some _ => true | None => false end.

(** Base64 text in the strict sense: alphabet characters and padding
    only. *)
Definition isBase64Text (s : QString) : bool :=
  forallb (fun c => isBase64Char c || Ascii.eqb c padchar) s.

(** The lines of a text, each with its line feed (the last one may lack
    it). *)
Fixpoint lines (s : QString) : list QString :=
  match s with
  | [] => []
  | c :: t =>
      if Ascii.eqb c newline then [c] :: lines t
      else
        match lines t with
        | [] => [[c]]
        | l :: ls => (c :: l) :: ls
        end
  end.

(** A line in which the marker pattern matches. *)
Definition isMarkerLine (l : QString) : bool :=
  match firstMatch l with Some _ => true | None => false end.

Definition markerLines (s : QString) : list QString :=
  filter isMarkerLine (lines s).



(** One match of [# PAYWALL_UUID: [a-fA-F0-9\-]+\s*]: the marker text, an
    id of class characters and the white space behind it. *)
Inductive PatternMatch : QString -> Prop :=
| pattern_match (id ws : QString) :
    id <> [] -> forallb isUuidChar id = true -> forallb isSpace ws = true ->
    PatternMatch (marker ++ id ++ ws).

(** [Deleted s r]: [r] is [s] without some matches of the pattern; every
    other character of [s] is in [r], in the same order, and [r] has
    nothing else. *)
Inductive Deleted : QString -> QString -> Prop :=
| deleted_nil : Deleted [] []
| deleted_keep (c : ascii) (s r : QString) :
    Deleted s r -> Deleted (c :: s) (c :: r)
| deleted_match (m s r : QString) :
    PatternMatch m -> Deleted s r -> Deleted (m ++ s) r.

(** What the anchor write leaves in the file, as a function of what was
    there (the expression of [saveUuidToConfig]). *)
Definition anchorAfterWrite (content uuid : QString) : QString :=
  let newContent := removeUuidPattern content in
  if negb (startsWith newContent (uuidComment uuid))
  then uuidComment uuid ++ newContent
  else newContent.

(** The text of the anchor file as the program reads it, in text mode
    and decoded; empty when the file does not exist. *)
Definition anchorContent (w : World) : QString :=
  match cmake_file w with
  | Some bytes => fromUtf8 (readText bytes)
  | None => []
  end.

(** Text: characters, each a well-formed sequence, one after the other. *)
Inductive Text : QString -> Prop :=
| text_nil : Text []
| text_char (ch s : QString) :
    sequenceLength ch = Some (List.length ch) -> Text s -> Text (ch ++ s).

(** Without a carriage return. *)
Definition noCarriageReturn (s : list ascii) : bool :=
  forallb (fun c => negb (Ascii.eqb c carriageReturn)) s.

(** The shape of a generated id: class characters only, at least one. *)
Definition isUuidText (u : QString) : bool :=
  negb (Qt.isEmpty u) && forallb isUuidChar u.

(** Emptiness of a record as the specification defines it: the e-mail, the
    hardware id or the activation id is unset. *)
Definition spec_isEmpty (d : LicenseData.t) : bool :=
  Qt.isEmpty (LicenseData.email d) || Qt.isEmpty (LicenseData.mac d)
  || Qt.isEmpty (LicenseData.uuid d).

(** The record read from a JSON object. *)
Definition recordOf `{TextFormats} (obj : QJsonObject) : LicenseData.t :=
  {| LicenseData.email := toString (value obj (Q "email"));
     LicenseData.mac := toString (value obj (Q "mac"));
     LicenseData.uuid := toString (value obj (Q "uuid"));
     LicenseData.issued :=
       dateFromString (toString (value obj (Q "issued")));
     LicenseData.expires :=
       dateFromString (toString (value obj (Q "expires"))) |}.

(** The blob decodes to the record [d]: the file can be read, the machine
    has a first hardware id, and with the key derived from it the content
    decodes to text that parses as a JSON object holding [d]. *)
Definition blobDecodesTo `{TextFormats} (w : World) (d : LicenseData.t)
  : Prop :=
  exists (bytes : QByteArray) (obj : QJsonObject),
    read_license w = Some bytes /\
    getFirstMacAddress w <> [] /\
    let text :=
      xorDecrypt (fromUtf8 bytes)
        (generateKeyFromMac (getFirstMacAddress w)) in
    text <> [] /\
    fromJson (toUtf8 text) = JObject obj /\
    d = recordOf obj.

(** The record an activation issues on the machine [w]. *)
Definition issuedRecord {zone : TimeZone} (w : World)
           (generated email : QString) : LicenseData.t :=
  {| LicenseData.email := trimmed email;
     LicenseData.mac := getFirstMacAddress w;
     LicenseData.uuid := generated;
     LicenseData.issued := Some (currentDateTime w);
     LicenseData.expires := addDays (Some (currentDateTime w)) 30 |}.

(** The blob of a record: its JSON text under the key of its hardware
    id. *)
Definition blobOf `{TextFormats} (d : LicenseData.t) : QString :=
  xorEncrypt (LicenseData.toJsonString d)
    (generateKeyFromMac (LicenseData.mac d)).

(** Some interface of the machine reports the hardware address [id]. *)
Definition machineHasHardwareId (w : World) (id : QString) : Prop :=
  exists i, In i (interfaces w) /\ hardwareAddress i = id.

(** The anchor value is present and equal to [id]. *)
Definition anchorIs (w : World) (id : QString) : Prop :=
  loadUuidFromConfig w <> [] /\ loadUuidFromConfig w = id.

(** [t] is strictly later than the current time. *)
Definition laterThanNow (w : World) (t : QDateTime) : Prop :=
  exists ms, t = Some ms /\ (currentDateTime w < ms)%Z.

(** *** Vocabulary of the further properties *)

(** An interface [getFirstMacAddress] accepts: not a loopback, with a
    hardware address other than the all-zero one. *)
Definition isUsable (i : QNetworkInterface) : bool :=
  (N.land (flags i) IsLoopBack =? 0)%N
  && negb (Qt.isEmpty (hardwareAddress i))
  && negb (qeqb (hardwareAddress i) (Q "00:00:00:00:00:00")).

(** The machine [w] when the clock shows [t]. *)
Definition atTime (w : World) (t : Z) : World :=
  {| interfaces := interfaces w;
     currentDateTime := t;
     license_file := license_file w;
     license_can_read := license_can_read w;
     license_can_write := license_can_write w;
     cmake_file := cmake_file w;
     cmake_can_read := cmake_can_read w;
     cmake_can_write := cmake_can_write w;
     test_dir_exists := test_dir_exists w;
     test_dir_can_create := test_dir_can_create w;
     journal := journal w |}.

(** The JSON object [toJsonString] builds. *)
Definition objectOf `{TextFormats} (d : LicenseData.t) : QJsonObject :=
  insert
    (insert
       (insert
          (insert (insert [] (Q "email") (JString (LicenseData.email d)))
             (Q "mac") (JString (LicenseData.mac d)))
          (Q "uuid") (JString (LicenseData.uuid d)))
       (Q "issued") (JString (dateToString (LicenseData.issued d))))
    (Q "expires") (JString (dateToString (LicenseData.expires d))).

(** The text formats give the identity of the record [d] back, and its
    expiry date to the second: [Qt::ISODate] text has no milliseconds. *)
Definition readsBack `{TextFormats} (d : LicenseData.t) : Prop :=
  let d' := LicenseData.fromJsonString (LicenseData.toJsonString d) in
  LicenseData.email d' = LicenseData.email d /\
  LicenseData.mac d' = LicenseData.mac d /\
  LicenseData.uuid d' = LicenseData.uuid d /\
  exists ms ms',
    LicenseData.expires d = Some ms /\ LicenseData.expires d' = Some ms' /\
    (ms - 1000 < ms' <= ms)%Z.

(** An id that the anchor read accepts: of the generated shape, with a
    dash, 36 characters long. *)
Definition isAnchorId (u : QString) : bool :=
  isUuidText u && containsChar u "-"%char && (List.length u =? 36)%nat.

(** The sample machine after an activation, and the record issued. *)
Definition userEmail : QString := Q "a@example.com".

Definition issuedOnMachine : LicenseData.t :=
  issuedRecord (zone := Sample.zone) Sample.machine Sample.someUuid userEmail.

Definition activatedMachine : World :=
  snd (activateNewLicense (formats := Sample.formats) (zone := Sample.zone)
         Sample.machine Sample.someUuid userEmail).

Definition isQuit (e : UiEvent) : bool :=
  match e with QuitRequested => true | _ => false end.

Definition isRestart (e : UiEvent) : bool :=
  match e with StartDetached => true | _ => false end.

Definition isScheduled (e : UiEvent) : bool :=
  match e with PaywallScheduled _ => true | _ => false end.

(** How a session at the paywall ends: the application has quit, it has
    quit after starting itself anew, the paywall is up and waits for the
    user, or (what must not happen) the paywall is gone and the
    application runs on. *)
Inductive Session : Type := Exited | Restarted | Waiting | Dismissed.

(** The event loop at the paywall.  Each round is one showing of the
    dialog: what the user does, and the id [generateUuid] would return.
    After a quit nothing more runs; a scheduled paywall is the next
    round; without either the dialog is simply gone. *)
Fixpoint paywallSession `{TextFormats} `{TimeZone} (w : World)
         (rounds : list (Choice * QString)) : Session * World :=
  match rounds with
  | [] => (Waiting, w)
  | (choice, generated) :: rest =>
      let '(events, w') := showPaywall w generated choice in
      if existsb isQuit events then
        (if existsb isRestart events then Restarted else Exited, w')
      else if existsb isScheduled events then paywallSession w' rest
      else (Dismissed, w')
  end.

(* ===================================================================== *)
(** ** Facts about the Qt primitives *)
(* ===================================================================== *)

(** Linear arithmetic with division and remainder by constants. *)
Ltac divlia := zify; Z.to_euclidean_division_equations; lia.

Section QtFacts.

Lemma qeqb_eq (a b : list ascii) : qeqb a b = true <-> a = b.
Proof.
  revert b; induction a as [|x a IH]; intros [|y b]; simpl;
    try (split; congruence).
  rewrite andb_true_iff, Ascii.eqb_eq, IH. split.
  - intros [-> ->]; reflexivity.
  - intros E; injection E; auto.
Qed.

Lemma qeqb_refl (a : list ascii) : qeqb a a = true.
Proof. apply qeqb_eq; reflexivity. Qed.

Lemma qeqb_neq (a b : list ascii) : qeqb a b = false <-> a <> b.
Proof.
  rewrite <- qeqb_eq. destruct (qeqb a b); split; congruence.
Qed.

Lemma isEmpty_true (s : list ascii) : Qt.isEmpty s = true <-> s = [].
Proof. destruct s; simpl; split; congruence. Qed.

Lemma isEmpty_false (s : list ascii) : Qt.isEmpty s = false <-> s <> [].
Proof. destruct s; simpl; split; congruence. Qed.

(** *** Prefixes *)

Lemma stripPrefix_Some (p s t : list ascii) :
  stripPrefix p s = Some t <-> s = p ++ t.
Proof.
  revert s; induction p as [|x p IH]; intros s; cbn [stripPrefix app].
  - split; congruence.
  - destruct s as [|y s]; [split; discriminate|].
    destruct (Ascii.eqb_spec x y) as [->|Hxy].
    + rewrite IH. split; congruence.
    + split; [discriminate | congruence].
Qed.

Lemma stripPrefix_app (p t : list ascii) : stripPrefix p (p ++ t) = Some t.
Proof. apply stripPrefix_Some. reflexivity. Qed.

Lemma startsWith_true (s p : QString) :
  startsWith s p = true <-> exists t, s = p ++ t.
Proof.
  unfold startsWith. destruct (stripPrefix p s) as [t|] eqn:E.
  - apply stripPrefix_Some in E. split; eauto.
  - split; [discriminate|]. intros [t Ht].
    apply stripPrefix_Some in Ht. congruence.
Qed.

(** *** UTF-8 *)

Ltac split_ifs H :=
  repeat match type of H with
         | context [if ?b then _ else _] => destruct b eqn:?
         end.

Ltac use_ifs :=
  repeat match goal with
         | E : ?b = _ |- context [if ?b then _ else _] => rewrite E
         end.

Lemma isAscii_lt (c : ascii) : isAscii c = true <-> (N_of_ascii c < 128)%N.
Proof. unfold isAscii. apply N.ltb_lt. Qed.

Lemma sequenceLength_ascii (c : ascii) (t : QByteArray) :
  isAscii c = true -> sequenceLength (c :: t) = Some 1%nat.
Proof. unfold isAscii, sequenceLength. intros ->. reflexivity. Qed.

Lemma sequenceLength_not_ascii (c : ascii) (t : QByteArray) (n : nat) :
  isAscii c = false -> sequenceLength (c :: t) = Some n -> (2 <= n)%nat.
Proof.
  unfold isAscii, sequenceLength. intros -> H.
  destruct t as [|c2 [|c3 [|c4 t]]]; split_ifs H;
    try discriminate H; injection H as <-; lia.
Qed.

(** A sequence is its first bytes: what follows them does not count. *)
Lemma sequenceLength_split (s : QByteArray) (n : nat) :
  sequenceLength s = Some n ->
  exists ch t,
    s = ch ++ t /\ List.length ch = n /\ sequenceLength ch = Some n.
Proof.
  intros H. exists (firstn n s), (skipn n s).
  split; [symmetry; apply firstn_skipn|].
  destruct s as [|c1 [|c2 [|c3 [|c4 t]]]]; unfold sequenceLength in H |- *;
    try discriminate H; split_ifs H; try discriminate H; injection H as <-;
    cbn [firstn List.length]; (split; [reflexivity|]); use_ifs; reflexivity.
Qed.

Lemma sequenceLength_app (ch s : QByteArray) :
  sequenceLength ch = Some (List.length ch) ->
  sequenceLength (ch ++ s) = Some (List.length ch).
Proof.
  intros H.
  destruct ch as [|c1 [|c2 [|c3 [|c4 [|c5 t]]]]];
    unfold sequenceLength in H |- *; cbn [app List.length] in H |- *;
    try discriminate H; split_ifs H; try discriminate H;
    try reflexivity; try (injection H; lia).
Qed.

(** The bytes of a character that is not ASCII are not ASCII. *)
Lemma sequenceLength_bytes (ch : QByteArray) (c : ascii) (t : QByteArray) :
  ch = c :: t -> sequenceLength ch = Some (List.length ch) ->
  isAscii c = false ->
  forallb (fun x => negb (isAscii x)) ch = true.
Proof.
  intros -> H Hc. unfold isAscii in *.
  destruct t as [|c2 [|c3 [|c4 [|c5 t]]]];
    unfold sequenceLength, isContinuation, inRange in H;
    cbn [List.length] in H; rewrite Hc in H;
    split_ifs H; try discriminate H; try (injection H; lia);
    cbn [forallb]; rewrite Hc; cbn [negb andb];
    repeat match goal with
           | E : andb _ _ = true |- _ => apply andb_true_iff in E as [? ?]
           end;
    repeat match goal with
           | E : context [if (?a =? ?b)%N then _ else _] |- _ =>
               destruct (a =? b)%N
           end;
    repeat match goal with
           | E : (_ <=? _)%N = true |- _ => apply N.leb_le in E
           | E : (_ <? _)%N = false |- _ => apply N.ltb_ge in E
           | E : (_ <? _)%N = true |- _ => apply N.ltb_lt in E
           | E : (_ =? _)%N = true |- _ => apply N.eqb_eq in E
           | E : (_ =? _)%N = false |- _ => apply N.eqb_neq in E
           end;
    repeat match goal with
           | |- context [(?a <? 128)%N] =>
               destruct (N.ltb_spec a 128); [lia|]
           end;
    reflexivity.
Qed.

Lemma decodeFrom_pending (a s : QByteArray) :
  decodeFrom (List.length a) (a ++ s) = a ++ decodeFrom 0 s.
Proof.
  induction a as [|c a IH]; [reflexivity|].
  cbn [List.length app decodeFrom]. rewrite IH. reflexivity.
Qed.

(** A character passes the decoder as it is. *)
Lemma decodeFrom_char (ch s : QByteArray) :
  sequenceLength ch = Some (List.length ch) ->
  decodeFrom 0 (ch ++ s) = ch ++ decodeFrom 0 s.
Proof.
  intros H. pose proof (sequenceLength_app ch s H) as Happ.
  destruct ch as [|c ch]; [discriminate H|].
  cbn [app] in Happ |- *. cbn [decodeFrom]. rewrite Happ.
  cbn [List.length Nat.pred]. rewrite decodeFrom_pending. reflexivity.
Qed.

Lemma decodeFrom_invalid (c : ascii) (t : QByteArray) :
  sequenceLength (c :: t) = None ->
  decodeFrom 0 (c :: t) = replacement ++ decodeFrom 0 t.
Proof. intros H. cbn [decodeFrom]. rewrite H. reflexivity. Qed.

Lemma Text_decodeFrom (s : QString) : Text s -> decodeFrom 0 s = s.
Proof.
  induction 1 as [|ch s Hch _ IH]; [reflexivity|].
  rewrite (decodeFrom_char ch s Hch), IH. reflexivity.
Qed.

(** What the decoder returns is text. *)
Lemma decodeFrom_Text (s : QByteArray) : Text (decodeFrom 0 s).
Proof.
  remember (List.length s) as n eqn:Hn.
  assert (Hle : (List.length s <= n)%nat) by lia. clear Hn.
  revert s Hle; induction n as [|n IH]; intros s Hle.
  - destruct s; [constructor | cbn [List.length] in Hle; lia].
  - destruct s as [|c t]; [constructor|].
    destruct (sequenceLength (c :: t)) as [k|] eqn:E.
    + destruct (sequenceLength_split _ _ E) as [ch [t' [Hs [Hlen Hch]]]].
      rewrite Hs. rewrite <- Hlen in Hch.
      rewrite (decodeFrom_char ch t' Hch).
      apply text_char; [exact Hch|]. apply IH.
      assert (Hlen' : List.length (c :: t)
                      = (List.length ch + List.length t')%nat)
        by (rewrite Hs; apply length_app).
      destruct ch; [discriminate Hch|].
      cbn [List.length] in Hle, Hlen'. lia.
    + rewrite (decodeFrom_invalid c t E).
      apply (text_char replacement); [reflexivity|].
      apply IH. cbn [List.length] in Hle. lia.
Qed.

(** Text is what the decoder leaves as it is. *)
Lemma Text_iff (s : QString) : Text s <-> decodeFrom 0 s = s.
Proof.
  split; [apply Text_decodeFrom|].
  intros H. rewrite <- H. apply decodeFrom_Text.
Qed.

Lemma Text_cons_ascii (c : ascii) (s : QString) :
  isAscii c = true -> Text s -> Text (c :: s).
Proof.
  intros Hc Hs. apply (text_char [c] s); [|exact Hs].
  apply sequenceLength_ascii, Hc.
Qed.

Lemma Text_ascii (a : QString) : forallb isAscii a = true -> Text a.
Proof.
  induction a as [|c a IH]; cbn [forallb]; intros H; [constructor|].
  apply andb_true_iff in H as [Hc Ha]. apply Text_cons_ascii; auto.
Qed.

Lemma Text_app (a b : QString) : Text a -> Text b -> Text (a ++ b).
Proof.
  induction 1 as [|ch s Hch _ IH]; intros Hb; [exact Hb|].
  rewrite <- app_assoc. apply text_char; auto.
Qed.

(** A text begins with a character. *)
Lemma Text_inv (c : ascii) (s : QString) :
  Text (c :: s) ->
  exists ch s0,
    c :: s = ch ++ s0 /\ sequenceLength ch = Some (List.length ch)
    /\ ch <> [] /\ Text s0.
Proof.
  intros H. remember (c :: s) as cs eqn:E.
  destruct H as [|ch s0 Hch Hs0]; [discriminate E|].
  exists ch, s0. repeat split; try assumption.
  intros ->. discriminate Hch.
Qed.

Lemma Text_inv_ascii (c : ascii) (s : QString) :
  isAscii c = true -> Text (c :: s) -> Text s.
Proof.
  intros Hc H. apply Text_inv in H as [ch [s0 [Hs [Hch [Hne Hs0]]]]].
  destruct ch as [|c' ch]; [congruence|].
  cbn [app] in Hs. injection Hs as <- ->.
  rewrite (sequenceLength_ascii c ch Hc) in Hch.
  destruct ch; [exact Hs0 | discriminate Hch].
Qed.

Lemma Text_drop_ascii (a s : QString) :
  forallb isAscii a = true -> Text (a ++ s) -> Text s.
Proof.
  induction a as [|c a IH]; cbn [forallb app]; intros Ha H; [exact H|].
  apply andb_true_iff in Ha as [Hc Ha].
  apply IH; [exact Ha|]. apply (Text_inv_ascii c _ Hc H).
Qed.

Lemma stripPrefix_byteOrderMark_ascii (c : ascii) (t : QByteArray) :
  isAscii c = true -> stripPrefix byteOrderMark (c :: t) = None.
Proof.
  intros Hc. cbn [stripPrefix byteOrderMark].
  destruct (Ascii.eqb_spec "239"%char c) as [<-|]; [discriminate Hc|].
  reflexivity.
Qed.

(** Text without a byte-order mark in front is what [fromUtf8] returns
    for its own bytes. *)
Lemma fromUtf8_Text (b : QByteArray) : Text (fromUtf8 b).
Proof. apply decodeFrom_Text. Qed.

Lemma fromUtf8_fixed (s : QString) :
  Text s -> startsWith s byteOrderMark = false -> fromUtf8 s = s.
Proof.
  unfold fromUtf8, startsWith. intros Hs Hb.
  destruct (stripPrefix byteOrderMark s); [discriminate Hb|].
  apply Text_decodeFrom, Hs.
Qed.

Lemma fromUtf8_ascii_head (c : ascii) (t : QByteArray) :
  isAscii c = true -> fromUtf8 (c :: t) = c :: decodeFrom 0 t.
Proof.
  intros Hc. unfold fromUtf8.
  rewrite (stripPrefix_byteOrderMark_ascii c t Hc).
  apply (decodeFrom_char [c] t), sequenceLength_ascii, Hc.
Qed.

Lemma fromUtf8_nil : fromUtf8 [] = [].
Proof. reflexivity. Qed.

Lemma fromUtf8_ascii (s : QByteArray) :
  forallb isAscii s = true -> fromUtf8 s = s.
Proof.
  intros H. destruct s as [|c t]; [reflexivity|].
  cbn [forallb] in H. apply andb_true_iff in H as [Hc Ht].
  rewrite (fromUtf8_ascii_head c t Hc).
  rewrite (Text_decodeFrom t (Text_ascii t Ht)). reflexivity.
Qed.

Lemma isUtf8Text_true (b : QByteArray) :
  isUtf8Text b = true <-> fromUtf8 b = b.
Proof. unfold isUtf8Text. apply qeqb_eq. Qed.

(** The decoder takes no byte away and puts two in for each byte that it
    replaces; it has replaced none when the length is the same. *)
Lemma decodeFrom_length (s : QByteArray) (pending : nat) :
  exists k,
    List.length (decodeFrom pending s) = (List.length s + 2 * k)%nat
    /\ (k = 0%nat -> decodeFrom pending s = s).
Proof.
  revert pending; induction s as [|c t IH]; intros pending.
  - exists 0%nat. split; reflexivity.
  - cbn [decodeFrom]. destruct pending as [|p].
    + destruct (sequenceLength (c :: t)) as [n|].
      * destruct (IH (Nat.pred n)) as [k [Hlen Hsame]].
        exists k. cbn [List.length]. rewrite Hlen.
        split; [lia|]. intros Hk. rewrite (Hsame Hk). reflexivity.
      * destruct (IH 0%nat) as [k [Hlen _]].
        exists (S k). rewrite length_app, Hlen. cbn [List.length replacement].
        split; [lia | discriminate].
    + destruct (IH p) as [k [Hlen Hsame]].
      exists k. cbn [List.length]. rewrite Hlen.
      split; [lia|]. intros Hk. rewrite (Hsame Hk). reflexivity.
Qed.

Lemma fromUtf8_same_length (b : QByteArray) :
  List.length (fromUtf8 b) = List.length b -> fromUtf8 b = b.
Proof.
  unfold fromUtf8.
  destruct (stripPrefix byteOrderMark b) as [t|] eqn:E.
  - apply stripPrefix_Some in E. subst b.
    destruct (decodeFrom_length t 0) as [k [Hlen _]].
    rewrite Hlen, length_app. cbn [List.length byteOrderMark]. lia.
  - destruct (decodeFrom_length b 0) as [k [Hlen Hsame]].
    rewrite Hlen. intros H. apply Hsame. lia.
Qed.

(** *** Text mode *)

Lemma readText_noCarriageReturn (s : QByteArray) :
  noCarriageReturn (readText s) = true.
Proof.
  unfold noCarriageReturn, readText. apply forallb_forall.
  intros c Hc. apply filter_In in Hc as [_ Hc]. exact Hc.
Qed.

Lemma readText_fixed (s : QByteArray) :
  noCarriageReturn s = true -> readText s = s.
Proof.
  unfold noCarriageReturn, readText.
  induction s as [|c t IH]; cbn [forallb filter]; [reflexivity|].
  intros H. apply andb_true_iff in H as [Hc Ht].
  rewrite Hc, (IH Ht). reflexivity.
Qed.

Lemma noCarriageReturn_app (a b : list ascii) :
  noCarriageReturn (a ++ b) = noCarriageReturn a && noCarriageReturn b.
Proof. apply forallb_app. Qed.

Lemma decodeFrom_noCarriageReturn (s : QByteArray) (pending : nat) :
  noCarriageReturn s = true ->
  noCarriageReturn (decodeFrom pending s) = true.
Proof.
  revert pending; induction s as [|c t IH]; intros pending H;
    [reflexivity|].
  unfold noCarriageReturn in H. cbn [forallb] in H.
  apply andb_true_iff in H as [Hc Ht].
  cbn [decodeFrom]. destruct pending as [|p].
  - destruct (sequenceLength (c :: t)) as [n|].
    + unfold noCarriageReturn. cbn [forallb]. rewrite Hc. apply IH, Ht.
    + rewrite noCarriageReturn_app. rewrite (IH 0%nat Ht). reflexivity.
  - unfold noCarriageReturn. cbn [forallb]. rewrite Hc. apply IH, Ht.
Qed.

Lemma fromUtf8_noCarriageReturn (b : QByteArray) :
  noCarriageReturn b = true -> noCarriageReturn (fromUtf8 b) = true.
Proof.
  intros H. unfold fromUtf8. apply decodeFrom_noCarriageReturn.
  destruct (stripPrefix byteOrderMark b) as [t|] eqn:E; [|exact H].
  apply stripPrefix_Some in E. subst b.
  rewrite noCarriageReturn_app in H. apply andb_true_iff in H. tauto.
Qed.

(** What the program reads from a file is text without a carriage
    return. *)
Lemma read_is_text (bytes : QByteArray) :
  Text (fromUtf8 (readText bytes))
  /\ noCarriageReturn (fromUtf8 (readText bytes)) = true.
Proof.
  split; [apply fromUtf8_Text|].
  apply fromUtf8_noCarriageReturn, readText_noCarriageReturn.
Qed.

(** Text without a carriage return and without a byte-order mark in front
    is read as it was written. *)
Lemma read_written (s : QString) :
  Text s -> noCarriageReturn s = true -> startsWith s byteOrderMark = false ->
  fromUtf8 (readText s) = s.
Proof.
  intros Ht Hn Hb. rewrite (readText_fixed s Hn). apply fromUtf8_fixed; auto.
Qed.

(** *** Latin-1 and base64 *)

(** Latin-1: converting bytes to text and back gives the bytes. *)
Lemma sequenceLength_latin1 (b : ascii) (rest : QString) :
  (128 <= N_of_ascii b)%N ->
  sequenceLength (ascii_of_N (192 + N_of_ascii b / 64)
                    :: ascii_of_N (128 + N_of_ascii b mod 64) :: rest)
  = Some 2%nat.
Proof.
  intros Hge. pose proof (N_ascii_bounded b) as Hb.
  unfold sequenceLength, isContinuation, inRange.
  rewrite !N_ascii_embedding by divlia.
  destruct (N.ltb_spec (192 + N_of_ascii b / 64) 128); [divlia|].
  destruct (N.ltb_spec (192 + N_of_ascii b / 64) 194); [divlia|].
  destruct (N.ltb_spec (192 + N_of_ascii b / 64) 224); [|divlia].
  destruct (N.leb_spec 128 (128 + N_of_ascii b mod 64)); [|divlia].
  destruct (N.leb_spec (128 + N_of_ascii b mod 64) 191); [|divlia].
  reflexivity.
Qed.

Lemma toLatin1_latin1_char (b : ascii) (rest : QString) :
  toLatin1_aux 0 (latin1_char b ++ rest) = b :: toLatin1_aux 0 rest.
Proof.
  unfold latin1_char.
  pose proof (N_ascii_bounded b) as Hb.
  destruct (N.ltb_spec (N_of_ascii b) 128) as [Hlt|Hge].
  - cbn [app toLatin1_aux].
    rewrite sequenceLength_ascii by (apply isAscii_lt, Hlt). reflexivity.
  - cbn [app toLatin1_aux].
    rewrite (sequenceLength_latin1 b rest Hge). cbv zeta.
    rewrite !N_ascii_embedding by divlia.
    destruct (N.ltb_spec (192 + N_of_ascii b / 64) 196); [|divlia].
    f_equal.
    replace ((192 + N_of_ascii b / 64 - 192) * 64
             + (128 + N_of_ascii b mod 64 - 128))%N with (N_of_ascii b)
      by divlia.
    apply ascii_N_embedding.
Qed.

Lemma toLatin1_fromLatin1 (b : QByteArray) : toLatin1 (fromLatin1 b) = b.
Proof.
  unfold toLatin1, fromLatin1.
  induction b as [|x b IH]; [reflexivity|].
  cbn [flat_map]. rewrite toLatin1_latin1_char, IH. reflexivity.
Qed.

(** Base64: the decoder inverts the alphabet. *)
Lemma base64_value_alphabet (v : N) :
  (v < 64)%N -> base64_value (alphabet v) = Some v.
Proof.
  intros Hv.
  assert (Hall : forallb
            (fun n => match base64_value (alphabet (N.of_nat n)) with
                      | Some d => (d =? N.of_nat n)%N
                      | None => false
                      end) (seq 0 64) = true) by (vm_compute; reflexivity).
  rewrite forallb_forall in Hall.
  specialize (Hall (N.to_nat v)).
  rewrite N2Nat.id in Hall.
  assert (Hin : In (N.to_nat v) (seq 0 64)) by (apply in_seq; lia).
  specialize (Hall Hin).
  destruct (base64_value (alphabet v)) as [d|]; [|discriminate].
  apply N.eqb_eq in Hall. congruence.
Qed.

Lemma base64_value_padchar : base64_value padchar = None.
Proof. reflexivity. Qed.

Lemma helper_skip buf nbits ch rest :
  base64_value ch = None ->
  fromBase64_helper buf nbits (ch :: rest) = fromBase64_helper buf nbits rest.
Proof. intros H. cbn [fromBase64_helper]. rewrite H. reflexivity. Qed.

Lemma helper_collect buf nbits ch d rest :
  base64_value ch = Some d -> (nbits + 6 < 8)%N ->
  fromBase64_helper buf nbits (ch :: rest)
  = fromBase64_helper (buf * 64 + d) (nbits + 6) rest.
Proof.
  intros H Hn. cbn [fromBase64_helper]. rewrite H. cbv zeta.
  destruct (N.leb_spec 8 (nbits + 6)); [lia | reflexivity].
Qed.

Lemma helper_emit buf nbits ch d rest :
  base64_value ch = Some d -> (8 <= nbits + 6)%N ->
  fromBase64_helper buf nbits (ch :: rest)
  = ascii_of_N ((buf * 64 + d) / 2 ^ (nbits + 6 - 8))
      :: fromBase64_helper ((buf * 64 + d) mod 2 ^ (nbits + 6 - 8))
           (nbits + 6 - 8) rest.
Proof.
  intros H Hn. cbn [fromBase64_helper]. rewrite H. cbv zeta.
  destruct (N.leb_spec 8 (nbits + 6)); [reflexivity | lia].
Qed.

Ltac byte_eq :=
  match goal with
  | |- ascii_of_N _ = ?b =>
      transitivity (ascii_of_N (N_of_ascii b));
      [f_equal; divlia | apply ascii_N_embedding]
  end.

(** One full group: four alphabet characters give back three bytes and
    leave the decoder in its initial state. *)
Lemma helper_group (b1 b2 b3 : ascii) (rest : QByteArray) :
  let chunk :=
    (N_of_ascii b1 * 65536 + N_of_ascii b2 * 256 + N_of_ascii b3)%N in
  fromBase64_helper 0 0
    (alphabet (chunk / 262144) :: alphabet ((chunk / 4096) mod 64)
       :: alphabet ((chunk / 64) mod 64) :: alphabet (chunk mod 64) :: rest)
  = b1 :: b2 :: b3 :: fromBase64_helper 0 0 rest.
Proof.
  intros chunk.
  pose proof (N_ascii_bounded b1) as H1.
  pose proof (N_ascii_bounded b2) as H2.
  pose proof (N_ascii_bounded b3) as H3.
  rewrite (@helper_collect 0 0 _ (chunk / 262144))
    by (try apply base64_value_alphabet; subst chunk; divlia).
  rewrite (@helper_emit _ (0 + 6) _ ((chunk / 4096) mod 64))
    by (try apply base64_value_alphabet; subst chunk; divlia).
  change (0 + 6 + 6 - 8)%N with 4%N.
  rewrite (@helper_emit _ 4 _ ((chunk / 64) mod 64))
    by (try apply base64_value_alphabet; subst chunk; divlia).
  change (4 + 6 - 8)%N with 2%N.
  rewrite (@helper_emit _ 2 _ (chunk mod 64))
    by (try apply base64_value_alphabet; subst chunk; divlia).
  change (2 + 6 - 8)%N with 0%N.
  change (2 ^ 4)%N with 16%N. change (2 ^ 2)%N with 4%N.
  change (2 ^ 0)%N with 1%N.
  subst chunk. f_equal; [|f_equal; [|f_equal]].
  - byte_eq.
  - byte_eq.
  - byte_eq.
  - f_equal. divlia.
Qed.

Lemma helper_group1 (b1 : ascii) :
  let chunk := (N_of_ascii b1 * 65536)%N in
  fromBase64_helper 0 0
    [alphabet (chunk / 262144); alphabet ((chunk / 4096) mod 64);
     padchar; padchar]
  = [b1].
Proof.
  intros chunk.
  pose proof (N_ascii_bounded b1) as H1.
  rewrite (@helper_collect 0 0 _ (chunk / 262144))
    by (try apply base64_value_alphabet; subst chunk; divlia).
  rewrite (@helper_emit _ (0 + 6) _ ((chunk / 4096) mod 64))
    by (try apply base64_value_alphabet; subst chunk; divlia).
  rewrite !helper_skip by apply base64_value_padchar.
  change (0 + 6 + 6 - 8)%N with 4%N. change (2 ^ 4)%N with 16%N.
  cbn [fromBase64_helper]. subst chunk. f_equal.
  byte_eq.
Qed.

Lemma helper_group2 (b1 b2 : ascii) :
  let chunk := (N_of_ascii b1 * 65536 + N_of_ascii b2 * 256)%N in
  fromBase64_helper 0 0
    [alphabet (chunk / 262144); alphabet ((chunk / 4096) mod 64);
     alphabet ((chunk / 64) mod 64); padchar]
  = [b1; b2].
Proof.
  intros chunk.
  pose proof (N_ascii_bounded b1) as H1.
  pose proof (N_ascii_bounded b2) as H2.
  rewrite (@helper_collect 0 0 _ (chunk / 262144))
    by (try apply base64_value_alphabet; subst chunk; divlia).
  rewrite (@helper_emit _ (0 + 6) _ ((chunk / 4096) mod 64))
    by (try apply base64_value_alphabet; subst chunk; divlia).
  change (0 + 6 + 6 - 8)%N with 4%N.
  rewrite (@helper_emit _ 4 _ ((chunk / 64) mod 64))
    by (try apply base64_value_alphabet; subst chunk; divlia).
  rewrite !helper_skip by apply base64_value_padchar.
  change (4 + 6 - 8)%N with 2%N.
  change (2 ^ 4)%N with 16%N. change (2 ^ 2)%N with 4%N.
  cbn [fromBase64_helper]. subst chunk. f_equal; [|f_equal].
  - byte_eq.
  - byte_eq.
Qed.

(** Induction three elements at a time, as [toBase64] recurses. *)
Lemma list_ind3 (A : Type) (P : list A -> Prop) :
  P [] -> (forall a, P [a]) -> (forall a b, P [a; b]) ->
  (forall a b c l, P l -> P (a :: b :: c :: l)) ->
  forall l, P l.
Proof.
  intros H0 H1 H2 H3.
  fix IH 1.
  intros [|a [|b [|c l]]];
    [apply H0 | apply H1 | apply H2 | apply H3, IH].
Qed.

Lemma fromBase64_toBase64 (bytes : QByteArray) :
  fromBase64 (toBase64 bytes) = bytes.
Proof.
  unfold fromBase64.
  induction bytes as [|b1|b1 b2|b1 b2 b3 rest IH] using list_ind3.
  - reflexivity.
  - apply helper_group1.
  - apply helper_group2.
  - cbn [toBase64]. rewrite helper_group, IH. reflexivity.
Qed.

End QtFacts.

(* ===================================================================== *)
(** ** The codec *)
(* ===================================================================== *)

Section Codec.

Lemma xor_char_involutive (a b : ascii) : xor_char (xor_char a b) b = a.
Proof.
  destruct a, b; cbn [xor_char].
  rewrite !xorb_assoc, !xorb_nilpotent, !xorb_false_r. reflexivity.
Qed.

Lemma xorLoop_involutive (keyBytes : QByteArray) (i : nat)
      (bytes : QByteArray) :
  xorLoop keyBytes i (xorLoop keyBytes i bytes) = bytes.
Proof.
  revert i; induction bytes as [|b rest IH]; intros i; cbn [xorLoop].
  - reflexivity.
  - rewrite xor_char_involutive, IH. reflexivity.
Qed.

Lemma xorLoop_length keyBytes i bytes :
  List.length (xorLoop keyBytes i bytes) = List.length bytes.
Proof.
  revert i; induction bytes as [|b rest IH]; intros i;
    cbn [xorLoop List.length].
  - reflexivity.
  - rewrite IH. reflexivity.
Qed.

Lemma xorLoop_nil keyBytes i bytes :
  xorLoop keyBytes i bytes = [] <-> bytes = [].
Proof. destruct bytes; cbn [xorLoop]; split; congruence. Qed.

Lemma toBase64_nil (bytes : QByteArray) : toBase64 bytes = [] <-> bytes = [].
Proof.
  destruct bytes as [|b1 [|b2 [|b3 rest]]]; cbn [toBase64];
    split; congruence.
Qed.

Lemma fromLatin1_nil (b : QByteArray) : fromLatin1 b = [] <-> b = [].
Proof.
  destruct b as [|x b]; [split; reflexivity|].
  unfold fromLatin1; cbn [flat_map]. unfold latin1_char.
  destruct (N_of_ascii x <? 128)%N; cbn [app]; split; congruence.
Qed.

(** The round trip for any plaintext, the empty one included: the bytes
    come back, and are decoded. *)
Lemma xorDecrypt_xorEncrypt (p k : QString) :
  k <> [] -> xorDecrypt (xorEncrypt p k) k = fromUtf8 (toUtf8 p).
Proof.
  intros Hk. unfold xorDecrypt, xorEncrypt, toUtf8.
  apply isEmpty_false in Hk. rewrite Hk. cbn [orb].
  rewrite toLatin1_fromLatin1, fromBase64_toBase64.
  destruct (Qt.isEmpty (xorLoop k 0 p)) eqn:E.
  - apply isEmpty_true, xorLoop_nil in E. subst p. reflexivity.
  - rewrite xorLoop_involutive. reflexivity.
Qed.

(** The number of alphabet characters decides whether anything decodes. *)
Lemma fromBase64_helper_nil (input : QByteArray) (buf nbits : N) :
  (nbits < 8)%N ->
  (fromBase64_helper buf nbits input = [] <->
   (nbits + 6 * N.of_nat (List.length (filter isBase64Char input)) < 8)%N).
Proof.
  revert buf nbits; induction input as [|ch rest IH]; intros buf nbits Hn.
  - cbn. split; [lia | reflexivity].
  - cbn [fromBase64_helper filter]. unfold isBase64Char at 1.
    destruct (base64_value ch) as [d|].
    + cbv zeta. cbn [List.length].
      destruct (N.leb_spec 8 (nbits + 6)).
      * split; [discriminate | lia].
      * rewrite IH by lia. lia.
    + apply IH, Hn.
Qed.

Lemma fromBase64_nil (input : QByteArray) :
  fromBase64 input = [] <->
  (List.length (filter isBase64Char input) < 2)%nat.
Proof.
  unfold fromBase64. rewrite fromBase64_helper_nil by lia. lia.
Qed.

(** C3, as stated, fails: a plaintext that begins with a byte-order mark
    (U+FEFF) comes back without it, because [xorDecrypt] ends in
    [QString::fromUtf8], which drops the mark. *)
Lemma round_trip_drops_byte_order_mark :
  ~ (forall p k : QString,
        Text p -> p <> [] -> k <> [] -> xorDecrypt (xorEncrypt p k) k = p).
Proof.
  intros H.
  assert (Hp : Text (byteOrderMark ++ Q "a")).
  { apply (text_char byteOrderMark); [reflexivity|].
    apply Text_ascii. reflexivity. }
  specialize (H (byteOrderMark ++ Q "a") (Q "k") Hp).
  assert (Hback : xorDecrypt (xorEncrypt (byteOrderMark ++ Q "a") (Q "k"))
                    (Q "k") = Q "a") by (vm_compute; reflexivity).
  rewrite Hback in H. discriminate H; discriminate.
Qed.

(** C3, amended.  For every non-empty plaintext [p] and every non-empty
    key [k], decoding with [k] what encoding with [k] produced gives the
    bytes of [p] as [QString::fromUtf8] decodes them: [p] itself when [p]
    is text that does not begin with a byte-order mark, and [p] without
    the mark when it begins with one. *)
Theorem codec_round_trip (p k : QString) :
  p <> [] -> k <> [] ->
  xorDecrypt (xorEncrypt p k) k = fromUtf8 (toUtf8 p) /\
  (Text p -> startsWith p byteOrderMark = false ->
   xorDecrypt (xorEncrypt p k) k = p) /\
  (forall t, p = byteOrderMark ++ t -> Text t ->
   xorDecrypt (xorEncrypt p k) k = t).
Proof.
  intros _ Hk. rewrite (xorDecrypt_xorEncrypt p k Hk). unfold toUtf8.
  split; [reflexivity|]. split.
  - apply fromUtf8_fixed.
  - intros t -> Ht. unfold fromUtf8. rewrite stripPrefix_app.
    apply Text_decodeFrom, Ht.
Qed.

Lemma codec_round_trip_witness :
  let p := Q "{'email':'a@example.com','mac':'AA:BB:CC:DD:EE:FF'}" in
  let k := generateKeyFromMac (Q "AA:BB:CC:DD:EE:FF") in
  p <> [] /\ k <> [] /\ Text p /\ startsWith p byteOrderMark = false /\
  xorDecrypt (xorEncrypt p k) k = p.
Proof.
  cbv zeta.
  set (p := Q "{'email':'a@example.com','mac':'AA:BB:CC:DD:EE:FF'}").
  set (k := generateKeyFromMac (Q "AA:BB:CC:DD:EE:FF")).
  assert (Hp : p <> []) by discriminate.
  assert (Hk : k <> []) by discriminate.
  assert (Ht : Text p) by (apply Text_ascii; reflexivity).
  split; [exact Hp|]. split; [exact Hk|]. split; [exact Ht|].
  split; [reflexivity|].
  exact (proj1 (proj2 (codec_round_trip p k Hp Hk)) Ht eq_refl).
Defined.

(** C4, as stated, fails: text that is not base64 does not decode to the
    empty string.  The decoder skips the characters outside the alphabet
    and decodes the rest. *)
Lemma decode_malformed_not_empty :
  ~ (forall text key : QString,
        isBase64Text text = false -> xorDecrypt text key = []).
Proof.
  intros H.
  specialize (H (Q "Ki ko!") (Q "k") eq_refl).
  vm_compute in H. discriminate H.
Qed.

(** C4, amended.  Both functions are total and return a plain string.
    With an empty key both return the empty string, and decoding returns
    the empty string when the text has fewer than two characters of the
    base64 alphabet, so that no byte decodes. *)
Theorem codec_empty_on_failure (p t k : QString) :
  (k = [] -> xorEncrypt p k = [] /\ xorDecrypt t k = []) /\
  ((List.length (filter isBase64Char (toLatin1 t)) < 2)%nat ->
   xorDecrypt t k = []).
Proof.
  split.
  - intros ->. split; reflexivity.
  - intros H. unfold xorDecrypt, toUtf8.
    apply fromBase64_nil in H. rewrite H.
    cbn [Qt.isEmpty]. rewrite orb_true_r. reflexivity.
Qed.

Lemma codec_empty_on_failure_witness :
  xorEncrypt (Q "ABC") [] = [] /\ xorDecrypt (Q "Kiko") [] = [] /\
  (List.length (filter isBase64Char (toLatin1 (Q "!?=A"))) < 2)%nat /\
  xorDecrypt (Q "!?=A") (Q "k") = [].
Proof.
  assert (Hfew : (List.length (filter isBase64Char (toLatin1 (Q "!?=A")))
                  < 2)%nat) by (vm_compute; lia).
  split;
    [exact (proj1 (proj1 (codec_empty_on_failure (Q "ABC") (Q "Kiko") [])
                     eq_refl))|].
  split;
    [exact (proj2 (proj1 (codec_empty_on_failure (Q "ABC") (Q "Kiko") [])
                     eq_refl))|].
  split; [exact Hfew|].
  exact (proj2 (codec_empty_on_failure (Q "ABC") (Q "!?=A") (Q "k")) Hfew).
Defined.

End Codec.

(* ===================================================================== *)
(** ** The license record *)
(* ===================================================================== *)

Section Record.

(** C5, as stated, fails: a record with an e-mail address and no hardware
    id is not empty for the code, while the specification calls it
    empty. *)
Lemma isEmpty_ignores_mac_and_uuid :
  let d := {| LicenseData.email := Q "a@example.com";
              LicenseData.mac := [];
              LicenseData.uuid := [];
              LicenseData.issued := None;
              LicenseData.expires := None |} in
  spec_isEmpty d = true /\ LicenseData.isEmpty d = false.
Proof. split; reflexivity. Qed.

(** C5, amended.  A record is treated as empty if and only if its e-mail
    address is unset; the hardware id and the activation id do not
    count. *)
Theorem isEmpty_iff_email_unset (d : LicenseData.t) :
  LicenseData.isEmpty d = true <-> LicenseData.email d = [].
Proof. unfold LicenseData.isEmpty. apply isEmpty_true. Qed.

Lemma not_spec_isEmpty (d : LicenseData.t) :
  spec_isEmpty d = false <->
  LicenseData.email d <> [] /\ LicenseData.mac d <> []
  /\ LicenseData.uuid d <> [].
Proof.
  unfold spec_isEmpty. rewrite !orb_false_iff, !isEmpty_false. tauto.
Qed.

(** [isValid] does test the three fields: a valid record is not empty in
    the sense of the specification. *)
Lemma isValid_not_spec_isEmpty (now : QDateTime) (d : LicenseData.t) :
  LicenseData.isValid now d = true -> spec_isEmpty d = false.
Proof.
  unfold LicenseData.isValid, spec_isEmpty.
  destruct (Qt.isEmpty (LicenseData.email d) || Qt.isEmpty (LicenseData.mac d)
            || Qt.isEmpty (LicenseData.uuid d)); [discriminate|reflexivity].
Qed.

End Record.


(* ===================================================================== *)
(** ** The marker pattern *)
(* ===================================================================== *)

Section Pattern.

Lemma takeWhile_dropWhile (f : ascii -> bool) (s : list ascii) :
  takeWhile f s ++ dropWhile f s = s.
Proof.
  induction s as [|c t IH]; cbn [takeWhile dropWhile]; [reflexivity|].
  destruct (f c); cbn [app]; [rewrite IH|]; reflexivity.
Qed.

Lemma takeWhile_all (f : ascii -> bool) (s : list ascii) :
  forallb f (takeWhile f s) = true.
Proof.
  induction s as [|c t IH]; cbn [takeWhile]; [reflexivity|].
  destruct (f c) eqn:E; cbn [forallb]; [rewrite E, IH|]; reflexivity.
Qed.

Lemma dropWhile_head (f : ascii -> bool) (s : list ascii) (c : ascii)
      (t : list ascii) :
  dropWhile f s = c :: t -> f c = false.
Proof.
  induction s as [|x s IH]; cbn [dropWhile]; [discriminate|].
  destruct (f x) eqn:E; [exact IH|].
  intros H; injection H as -> _. exact E.
Qed.

Lemma dropWhile_none (f : ascii -> bool) (s : list ascii) :
  forallb f s = true -> dropWhile f s = [].
Proof.
  induction s as [|x s IH]; cbn [forallb dropWhile]; [reflexivity|].
  destruct (f x); [exact IH | discriminate].
Qed.

Lemma dropWhile_unchanged (f : ascii -> bool) (s : list ascii) :
  (forall c t, s = c :: t -> f c = false) -> dropWhile f s = s.
Proof.
  destruct s as [|x s]; [reflexivity|]. intros H.
  cbn [dropWhile]. rewrite (H x s eq_refl). reflexivity.
Qed.

Lemma takeWhile_app_stop (f : ascii -> bool) (a : list ascii) (c : ascii)
      (t : list ascii) :
  forallb f a = true -> f c = false ->
  takeWhile f (a ++ c :: t) = a /\ dropWhile f (a ++ c :: t) = c :: t.
Proof.
  intros Ha Hc. induction a as [|x a IH]; cbn [app takeWhile dropWhile].
  - rewrite Hc. split; reflexivity.
  - cbn [forallb] in Ha. apply andb_true_iff in Ha as [Hx Ha].
    rewrite Hx. destruct (IH Ha) as [-> ->]. split; reflexivity.
Qed.

(** The classes of the pattern do not overlap, and neither holds the
    first character of the marker text or a line feed in an id. *)
Lemma isUuidChar_not_space (c : ascii) :
  isUuidChar c = true -> isSpace c = false.
Proof.
  unfold isUuidChar, isSpace. intros H.
  repeat rewrite ?orb_true_iff, ?andb_true_iff, ?N.leb_le, ?N.eqb_eq in H.
  repeat rewrite ?orb_false_iff, ?andb_false_iff, ?N.leb_gt, ?N.eqb_neq.
  lia.
Qed.

Lemma isSpace_newline : isSpace newline = true.
Proof. reflexivity. Qed.

Lemma isUuidChar_newline : isUuidChar newline = false.
Proof. reflexivity. Qed.

(** What a match at the head of a text consists of. *)
Lemma matchHere_Some (s captured rest : QString) :
  matchHere s = Some (captured, rest) ->
  s = marker ++ captured ++ rest /\ captured <> []
  /\ forallb isUuidChar captured = true
  /\ (forall c t, rest = c :: t -> isUuidChar c = false).
Proof.
  unfold matchHere. destruct (stripPrefix marker s) as [t|] eqn:E;
    [|discriminate].
  apply stripPrefix_Some in E.
  destruct (Qt.isEmpty (takeWhile isUuidChar t)) eqn:Hemp; [discriminate|].
  intros H; injection H as <- <-.
  rewrite takeWhile_dropWhile. repeat split.
  - exact E.
  - apply isEmpty_false, Hemp.
  - apply takeWhile_all.
  - intros c u. apply dropWhile_head.
Qed.

Lemma matchHere_marker (c : ascii) (t : QString) :
  isUuidChar c = true ->
  matchHere (marker ++ c :: t)
  = Some (c :: takeWhile isUuidChar t, dropWhile isUuidChar t).
Proof.
  intros Hc. unfold matchHere. rewrite stripPrefix_app.
  cbn [takeWhile dropWhile]. rewrite Hc. reflexivity.
Qed.

Lemma matchHere_None (s : QString) :
  matchHere s = None <->
  ~ exists c t, s = marker ++ c :: t /\ isUuidChar c = true.
Proof.
  split.
  - intros H [c [t [-> Hc]]]. rewrite matchHere_marker in H by exact Hc.
    discriminate.
  - intros H. destruct (matchHere s) as [[captured rest]|] eqn:E;
      [|reflexivity].
    exfalso. apply H.
    apply matchHere_Some in E as [-> [Hne [Hall _]]].
    destruct captured as [|c captured]; [congruence|].
    cbn [forallb] in Hall. apply andb_true_iff in Hall as [Hc _].
    exists c, (captured ++ rest). split; [reflexivity | exact Hc].
Qed.

(** The marker pattern is found in a text exactly when the marker text
    occurs in it, followed by a class character. *)
Lemma firstMatch_found (s : QString) :
  firstMatch s <> None <->
  exists pre c t, s = pre ++ marker ++ c :: t /\ isUuidChar c = true.
Proof.
  induction s as [|x s IH].
  - cbn [firstMatch]. split; [congruence|].
    intros [pre [c [t [H _]]]]. destruct pre; discriminate H.
  - cbn [firstMatch].
    destruct (matchHere (x :: s)) as [[captured rest]|] eqn:E.
    + split; [|discriminate]. intros _.
      apply matchHere_Some in E as [Hs [Hne [Hall _]]].
      destruct captured as [|c captured]; [congruence|].
      cbn [forallb] in Hall. apply andb_true_iff in Hall as [Hc _].
      exists [], c, (captured ++ rest). split; [exact Hs | exact Hc].
    + rewrite IH. split.
      * intros [pre [c [t [-> Hc]]]].
        exists (x :: pre), c, t. split; [reflexivity | exact Hc].
      * intros [pre [c [t [Hs Hc]]]].
        destruct pre as [|y pre].
        -- exfalso. apply (proj1 (matchHere_None (x :: s)) E).
           exists c, t. split; [exact Hs | exact Hc].
        -- injection Hs as _ ->. exists pre, c, t.
           split; [reflexivity | exact Hc].
Qed.

Lemma firstMatch_None (s : QString) :
  firstMatch s = None <->
  ~ exists pre c t, s = pre ++ marker ++ c :: t /\ isUuidChar c = true.
Proof.
  rewrite <- firstMatch_found.
  destruct (firstMatch s); split; try congruence; try tauto.
  intros H. exfalso. apply H. discriminate.
Qed.

(** No match in a text, no match in any part of it. *)
Lemma firstMatch_None_infix (a s b : QString) :
  firstMatch (a ++ s ++ b) = None -> firstMatch s = None.
Proof.
  rewrite !firstMatch_None. intros H [pre [c [t [-> Hc]]]].
  apply H. exists (a ++ pre), c, (t ++ b). split; [|exact Hc].
  repeat rewrite <- app_assoc. reflexivity.
Qed.

(** The captured group: what it is made of, where it lies, and that no
    match begins further left. *)
Lemma firstMatch_Some (s captured : QString) :
  firstMatch s = Some captured ->
  captured <> [] /\ forallb isUuidChar captured = true
  /\ exists pre post,
       s = pre ++ marker ++ captured ++ post
       /\ (forall c t, post = c :: t -> isUuidChar c = false)
       /\ (forall pre1 pre2, pre = pre1 ++ pre2 -> pre2 <> [] ->
           matchHere (pre2 ++ marker ++ captured ++ post) = None).
Proof.
  induction s as [|x s IH]; cbn [firstMatch]; [discriminate|].
  destruct (matchHere (x :: s)) as [[cap rest]|] eqn:E.
  - intros H; injection H as ->.
    apply matchHere_Some in E as [Hs [Hne [Hall Hstop]]].
    split; [exact Hne|]. split; [exact Hall|].
    exists [], rest. split; [exact Hs|]. split; [exact Hstop|].
    intros pre1 pre2 H. symmetry in H.
    apply app_eq_nil in H as [_ ->]. congruence.
  - intros H. destruct (IH H) as [Hne [Hall [pre [post [Hs [Hstop Hleft]]]]]].
    split; [exact Hne|]. split; [exact Hall|].
    exists (x :: pre), post. split; [rewrite Hs; reflexivity|].
    split; [exact Hstop|].
    intros [|y pre1] pre2 Hsplit Hne2.
    + cbn [app] in Hsplit. subst pre2. cbn [app]. rewrite <- Hs. exact E.
    + cbn [app] in Hsplit. injection Hsplit as _ ->.
      apply (Hleft pre1 pre2 eq_refl Hne2).
Qed.

Lemma dropWhile_isSpace_uuid (s : QString) :
  forallb isUuidChar s = true -> dropWhile isSpace s = s.
Proof.
  intros H. apply dropWhile_unchanged. intros c t ->.
  cbn [forallb] in H. apply andb_true_iff in H as [Hc _].
  apply isUuidChar_not_space, Hc.
Qed.

Lemma isUuidChar_ascii (c : ascii) : isUuidChar c = true -> isAscii c = true.
Proof.
  unfold isUuidChar, isAscii. intros H.
  repeat rewrite ?orb_true_iff, ?andb_true_iff, ?N.leb_le, ?N.eqb_eq in H.
  apply N.ltb_lt. lia.
Qed.

Lemma isSpace_ascii (c : ascii) : isSpace c = true -> isAscii c = true.
Proof.
  unfold isSpace, isAscii. intros H.
  repeat rewrite ?orb_true_iff, ?andb_true_iff, ?N.leb_le, ?N.eqb_eq in H.
  apply N.ltb_lt. lia.
Qed.

(** The white space of more than one byte has no ASCII byte. *)
Lemma isSpace2_ascii (c x : ascii) :
  isAscii c = true -> isSpace2 c x = false /\ isSpace2 x c = false.
Proof.
  unfold isAscii, isSpace2. intros H. apply N.ltb_lt in H.
  split;
    repeat match goal with
           | |- context [(?a =? ?b)%N] => destruct (N.eqb_spec a b)
           end; try reflexivity; lia.
Qed.

Lemma isSpace3_ascii (c x y : ascii) :
  isAscii c = true -> isSpace3 c x y = false /\ isSpace3 y x c = false.
Proof.
  unfold isAscii, isSpace3. intros H. apply N.ltb_lt in H.
  split;
    repeat match goal with
           | |- context [(?a =? ?b)%N] => destruct (N.eqb_spec a b)
           | |- context [(?a <=? ?b)%N] => destruct (N.leb_spec a b)
           end; try reflexivity; lia.
Qed.

(** Text that begins with an ASCII character other than white space has
    no leading white space, and likewise at the end. *)
Lemma skipSpaces_head (c : ascii) (t : QString) :
  isAscii c = true -> isSpace c = false ->
  skipSpaces isSpace2 isSpace3 (c :: t) = c :: t /\
  skipSpaces (fun c2 c1 => isSpace2 c1 c2)
    (fun c3 c2 c1 => isSpace3 c1 c2 c3) (c :: t) = c :: t.
Proof.
  intros Ha Hs. cbn [skipSpaces]. rewrite Hs.
  destruct t as [|c2 [|c3 t]];
    rewrite ?(proj1 (isSpace2_ascii c _ Ha)), ?(proj2 (isSpace2_ascii c _ Ha)),
      ?(proj1 (isSpace3_ascii c _ _ Ha)), ?(proj2 (isSpace3_ascii c _ _ Ha));
    split; reflexivity.
Qed.

Lemma trimmed_fixed (s : QString) :
  (forall c t, s = c :: t -> isAscii c = true /\ isSpace c = false) ->
  (forall c t, rev s = c :: t -> isAscii c = true /\ isSpace c = false) ->
  trimmed s = s.
Proof.
  intros Hhead Hlast. unfold trimmed.
  assert (H1 : skipSpaces isSpace2 isSpace3 s = s).
  { destruct s as [|c t]; [reflexivity|].
    destruct (Hhead c t eq_refl) as [Ha Hs].
    apply (skipSpaces_head c t Ha Hs). }
  rewrite H1.
  destruct (rev s) as [|c t] eqn:E.
  - rewrite <- (rev_involutive s), E. reflexivity.
  - destruct (Hlast c t eq_refl) as [Ha Hs].
    rewrite (proj2 (skipSpaces_head c t Ha Hs)), <- E.
    apply rev_involutive.
Qed.

Lemma trimmed_uuid (s : QString) :
  forallb isUuidChar s = true -> trimmed s = s.
Proof.
  intros H. rewrite forallb_forall in H. apply trimmed_fixed.
  - intros c t ->. specialize (H c (or_introl eq_refl)).
    split; [apply isUuidChar_ascii | apply isUuidChar_not_space]; exact H.
  - intros c t E.
    assert (Hin : In c s) by (apply in_rev; rewrite E; left; reflexivity).
    specialize (H c Hin).
    split; [apply isUuidChar_ascii | apply isUuidChar_not_space]; exact H.
Qed.

Lemma skipSpaces_spaces (space2 : ascii -> ascii -> bool)
      (space3 : ascii -> ascii -> ascii -> bool) (s : QString) :
  forallb isSpace s = true -> skipSpaces space2 space3 s = [].
Proof.
  induction s as [|c t IH]; cbn [forallb skipSpaces]; [reflexivity|].
  intros H. apply andb_true_iff in H as [-> Ht]. apply IH, Ht.
Qed.

Lemma trimmed_spaces (s : QString) :
  forallb isSpace s = true -> trimmed s = [].
Proof.
  intros H. unfold trimmed. rewrite (skipSpaces_spaces _ _ s H).
  reflexivity.
Qed.

End Pattern.

(* ===================================================================== *)
(** ** The anchor file: reading *)
(* ===================================================================== *)

Section AnchorRead.

(** C6, as stated, fails: the pattern matches and captures [abc-123], but
    the read returns the empty string, because the captured text is not 36
    characters long. *)
Lemma short_capture_is_dropped :
  let w := Sample.withFiles Sample.machine None
             (Some (Q "# PAYWALL_UUID: abc-123" ++ [newline])) 0 in
  cmake_file w <> None /\
  firstMatch (anchorContent w) = Some (Q "abc-123") /\
  loadUuidFromConfig w = [] /\
  loadUuidFromConfig w <> trimmed (Q "abc-123").
Proof. vm_compute. repeat split; try reflexivity; discriminate. Qed.

(** The anchor read is a function of the text of the file as read. *)
Lemma loadUuidFromConfig_text (w : World) (content : QByteArray) :
  cmake_file w = Some content -> cmake_can_read w = true ->
  loadUuidFromConfig w
  = match firstMatch (fromUtf8 (readText content)) with
    | Some captured =>
        if containsChar (trimmed captured) "-"%char
           && (List.length (trimmed captured) =? 36)%nat
        then trimmed captured
        else []
    | None => []
    end.
Proof.
  intros Hfile Hread. unfold loadUuidFromConfig, read_cmake.
  rewrite Hfile, Hread. reflexivity.
Qed.

(** C6, amended.  The file is read in text mode, which drops every
    carriage return, and decoded as UTF-8.  When the file exists, can be
    read and the pattern matches in that text, the read returns the first
    captured group, trimmed, provided it contains a dash and is 36
    characters long, and the empty string otherwise; an absent file, a
    file that cannot be read or an absent match gives the empty string. *)
Theorem anchor_read (w : World) :
  (forall content captured,
      cmake_file w = Some content -> cmake_can_read w = true ->
      firstMatch (fromUtf8 (readText content)) = Some captured ->
      trimmed captured = captured /\
      loadUuidFromConfig w
      = if containsChar captured "-"%char
           && (List.length captured =? 36)%nat
        then captured else [])
  /\ (cmake_file w = None \/ cmake_can_read w = false ->
      loadUuidFromConfig w = [])
  /\ (forall content,
         cmake_file w = Some content ->
         firstMatch (fromUtf8 (readText content)) = None ->
         loadUuidFromConfig w = []).
Proof.
  split; [|split].
  - intros content captured Hfile Hread Hmatch.
    rewrite (loadUuidFromConfig_text w content Hfile Hread), Hmatch.
    apply firstMatch_Some in Hmatch as [_ [Hall _]].
    rewrite (trimmed_uuid captured Hall). split; reflexivity.
  - unfold loadUuidFromConfig, read_cmake. intros [-> | ->]; [reflexivity|].
    destruct (cmake_file w); reflexivity.
  - intros content Hfile Hnone.
    destruct (cmake_can_read w) eqn:Hread.
    + rewrite (loadUuidFromConfig_text w content Hfile Hread), Hnone.
      reflexivity.
    + unfold loadUuidFromConfig, read_cmake. rewrite Hfile, Hread.
      reflexivity.
Qed.

Lemma anchor_read_witness :
  let content :=
    Q "project(x)" ++ [carriageReturn; newline]
      ++ marker ++ Sample.someUuid ++ [carriageReturn; newline] in
  let w := Sample.withFiles Sample.machine None (Some content) 0 in
  firstMatch (fromUtf8 (readText content)) = Some Sample.someUuid /\
  loadUuidFromConfig w = Sample.someUuid.
Proof.
  cbv zeta.
  set (content := Q "project(x)" ++ [carriageReturn; newline]
                    ++ marker ++ Sample.someUuid ++ [carriageReturn; newline]).
  set (w := Sample.withFiles Sample.machine None (Some content) 0).
  assert (Hmatch : firstMatch (fromUtf8 (readText content))
                   = Some Sample.someUuid) by (vm_compute; reflexivity).
  split; [exact Hmatch|].
  exact (proj2 (proj1 (anchor_read w) content Sample.someUuid
                  eq_refl eq_refl Hmatch)).
Defined.

End AnchorRead.

(* ===================================================================== *)
(** ** The anchor file: writing *)
(* ===================================================================== *)

(** Equations between concatenations. *)
Ltac list_eq :=
  repeat (progress (cbn [app]; rewrite <- ?app_assoc)); reflexivity.

Section AnchorWrite.

Lemma dropWhile_length (f : ascii -> bool) (s : list ascii) :
  (List.length (dropWhile f s) <= List.length s)%nat.
Proof.
  induction s as [|c t IH]; cbn [dropWhile List.length]; [lia|].
  destruct (f c); cbn [List.length]; lia.
Qed.

Lemma matchHere_shorter (s captured rest : QString) :
  matchHere s = Some (captured, rest) ->
  (List.length (dropWhile isSpace rest) < List.length s)%nat.
Proof.
  intros H. apply matchHere_Some in H as [-> _].
  pose proof (dropWhile_length isSpace rest).
  rewrite !length_app. change (List.length marker) with 16%nat. lia.
Qed.

(** The removal does not depend on the fuel, once there is enough. *)
Lemma removeLoop_fuel (fuel1 fuel2 : nat) (s : QString) :
  (List.length s <= fuel1)%nat -> (List.length s <= fuel2)%nat ->
  removeLoop fuel1 s = removeLoop fuel2 s.
Proof.
  revert fuel2 s; induction fuel1 as [|f1 IH]; intros fuel2 s H1 H2.
  - destruct s; [|cbn [List.length] in H1; lia].
    destruct fuel2; reflexivity.
  - destruct fuel2 as [|f2].
    + destruct s; [reflexivity | cbn [List.length] in H2; lia].
    + cbn [removeLoop]. destruct s as [|c t]; [reflexivity|].
      destruct (matchHere (c :: t)) as [[captured rest]|] eqn:E.
      * pose proof (matchHere_shorter _ _ _ E) as Hlt.
        cbn [List.length] in H1, H2, Hlt. apply IH; lia.
      * cbn [List.length] in H1, H2. f_equal. apply IH; lia.
Qed.

Lemma removeUuidPattern_nil : removeUuidPattern [] = [].
Proof. reflexivity. Qed.

Lemma removeUuidPattern_cons (c : ascii) (t : QString) :
  removeUuidPattern (c :: t)
  = match matchHere (c :: t) with
    | Some (_, rest) => removeUuidPattern (dropWhile isSpace rest)
    | None => c :: removeUuidPattern t
    end.
Proof.
  unfold removeUuidPattern. cbn [List.length removeLoop].
  destruct (matchHere (c :: t)) as [[captured rest]|] eqn:E.
  - pose proof (matchHere_shorter _ _ _ E) as Hlt. cbn [List.length] in Hlt.
    apply removeLoop_fuel; lia.
  - reflexivity.
Qed.

(** The removal deletes matches of the pattern and nothing else. *)
Lemma removeUuidPattern_Deleted (s : QString) :
  Deleted s (removeUuidPattern s).
Proof.
  remember (List.length s) as n eqn:Hn.
  assert (Hle : (List.length s <= n)%nat) by lia. clear Hn.
  revert s Hle; induction n as [|n IH]; intros s Hle.
  - destruct s; [constructor | cbn [List.length] in Hle; lia].
  - destruct s as [|c t]; [constructor|].
    rewrite removeUuidPattern_cons.
    destruct (matchHere (c :: t)) as [[captured rest]|] eqn:E.
    + pose proof (matchHere_shorter _ _ _ E) as Hlt.
      apply matchHere_Some in E as [Hs [Hne [Hall _]]].
      rewrite Hs.
      rewrite <- (takeWhile_dropWhile isSpace rest) at 1.
      replace (marker ++ captured
                 ++ takeWhile isSpace rest ++ dropWhile isSpace rest)
        with ((marker ++ captured ++ takeWhile isSpace rest)
                ++ dropWhile isSpace rest)
        by (repeat rewrite <- app_assoc; reflexivity).
      apply deleted_match.
      * constructor; [exact Hne | exact Hall | apply takeWhile_all].
      * apply IH. lia.
    + apply deleted_keep, IH. cbn [List.length] in Hle. lia.
Qed.

(** Without a match the removal changes nothing. *)
Lemma removeUuidPattern_no_match (s : QString) :
  firstMatch s = None -> removeUuidPattern s = s.
Proof.
  induction s as [|c t IH]; [reflexivity|].
  cbn [firstMatch]. rewrite removeUuidPattern_cons.
  destruct (matchHere (c :: t)) as [[captured rest]|]; [discriminate|].
  intros H. rewrite (IH H). reflexivity.
Qed.

(** *** The removal and the write keep text *)

Lemma forallb_weaken (f g : ascii -> bool) (s : list ascii) :
  (forall c, f c = true -> g c = true) ->
  forallb f s = true -> forallb g s = true.
Proof.
  intros Hfg H. rewrite forallb_forall in *. intros c Hc. apply Hfg, H, Hc.
Qed.

(** A match begins with the first character of the marker text. *)
Lemma matchHere_not_ascii (c : ascii) (t : QString) :
  isAscii c = false -> matchHere (c :: t) = None.
Proof.
  intros Hc. unfold matchHere.
  cbn [marker Q list_ascii_of_string stripPrefix].
  destruct (Ascii.eqb_spec "#"%char c) as [<-|]; [discriminate Hc|].
  reflexivity.
Qed.

Lemma removeUuidPattern_not_ascii (a s : QString) :
  forallb (fun x => negb (isAscii x)) a = true ->
  removeUuidPattern (a ++ s) = a ++ removeUuidPattern s.
Proof.
  induction a as [|c a IH]; cbn [forallb app]; intros H; [reflexivity|].
  apply andb_true_iff in H as [Hc Ha]. apply negb_true_iff in Hc.
  rewrite removeUuidPattern_cons, (matchHere_not_ascii c _ Hc), (IH Ha).
  reflexivity.
Qed.

Lemma dropWhile_isSpace_Text (s : QString) :
  Text s -> Text (dropWhile isSpace s).
Proof.
  intros H. apply (Text_drop_ascii (takeWhile isSpace s)).
  - apply (forallb_weaken isSpace isAscii _ isSpace_ascii), takeWhile_all.
  - rewrite takeWhile_dropWhile. exact H.
Qed.

Lemma removeUuidPattern_Text (s : QString) :
  Text s -> Text (removeUuidPattern s).
Proof.
  remember (List.length s) as n eqn:Hn.
  assert (Hle : (List.length s <= n)%nat) by lia. clear Hn.
  revert s Hle; induction n as [|n IH]; intros s Hle Ht.
  - destruct s; [constructor | cbn [List.length] in Hle; lia].
  - destruct s as [|c t]; [constructor|].
    cbn [List.length] in Hle.
    destruct (isAscii c) eqn:Hc.
    + rewrite removeUuidPattern_cons.
      destruct (matchHere (c :: t)) as [[captured rest]|] eqn:E.
      * pose proof (matchHere_shorter _ _ _ E) as Hlt.
        cbn [List.length] in Hlt.
        apply matchHere_Some in E as [Hs [_ [Hall _]]].
        apply IH; [lia|]. apply dropWhile_isSpace_Text.
        apply (Text_drop_ascii (marker ++ captured)).
        -- rewrite forallb_app. apply andb_true_iff. split; [reflexivity|].
           apply (forallb_weaken isUuidChar isAscii _ isUuidChar_ascii), Hall.
        -- rewrite <- app_assoc, <- Hs. exact Ht.
      * apply Text_cons_ascii; [exact Hc|].
        apply IH; [lia|]. apply (Text_inv_ascii c t Hc Ht).
    + apply Text_inv in Ht as [ch [s0 [Hs [Hch [Hne Hs0]]]]].
      destruct ch as [|c' ch']; [congruence|].
      pose proof Hs as Hs'. cbn [app] in Hs'. injection Hs' as <- Htail.
      rewrite Hs.
      rewrite removeUuidPattern_not_ascii
        by (apply (sequenceLength_bytes _ c ch' eq_refl Hch Hc)).
      apply text_char; [exact Hch|].
      apply IH; [|exact Hs0].
      rewrite Htail, length_app in Hle. lia.
Qed.

Lemma Deleted_forallb (f : ascii -> bool) (s r : QString) :
  Deleted s r -> forallb f s = true -> forallb f r = true.
Proof.
  induction 1 as [|c s r _ IH|m s r _ _ IH]; cbn [forallb]; intros H.
  - reflexivity.
  - apply andb_true_iff in H as [-> Hs]. apply IH, Hs.
  - rewrite forallb_app in H. apply andb_true_iff in H as [_ Hs].
    apply IH, Hs.
Qed.

Lemma removeUuidPattern_noCarriageReturn (s : QString) :
  noCarriageReturn s = true -> noCarriageReturn (removeUuidPattern s) = true.
Proof. apply Deleted_forallb, removeUuidPattern_Deleted. Qed.

Lemma dropWhile_noCarriageReturn (f : ascii -> bool) (s : QString) :
  noCarriageReturn s = true -> noCarriageReturn (dropWhile f s) = true.
Proof.
  intros H. rewrite <- (takeWhile_dropWhile f s) in H.
  rewrite noCarriageReturn_app in H. apply andb_true_iff in H. tauto.
Qed.

Lemma isUuidChar_carriageReturn (c : ascii) :
  isUuidChar c = true -> negb (Ascii.eqb c carriageReturn) = true.
Proof.
  intros H. destruct (Ascii.eqb_spec c carriageReturn) as [->|];
    [discriminate H | reflexivity].
Qed.

(** A marker line is ASCII text without a carriage return. *)
Lemma uuidComment_ascii (u : QString) :
  forallb isUuidChar u = true ->
  forallb isAscii (uuidComment u) = true
  /\ noCarriageReturn (uuidComment u) = true.
Proof.
  intros Hu. unfold uuidComment, noCarriageReturn.
  rewrite !forallb_app. split.
  - rewrite (forallb_weaken isUuidChar isAscii _ isUuidChar_ascii Hu).
    reflexivity.
  - rewrite (forallb_weaken isUuidChar _ _ isUuidChar_carriageReturn Hu).
    reflexivity.
Qed.

(** What the write leaves begins with the new marker line. *)
Lemma anchorAfterWrite_head (content u : QString) :
  exists rest, anchorAfterWrite content u = uuidComment u ++ rest.
Proof.
  unfold anchorAfterWrite.
  destruct (startsWith (removeUuidPattern content) (uuidComment u)) eqn:E;
    cbn [negb].
  - apply startsWith_true in E as [t Ht]. exists t. exact Ht.
  - eexists. reflexivity.
Qed.

(** What the write leaves is text without a carriage return, and the
    program reads it back as it wrote it. *)
Lemma anchorAfterWrite_text (content u : QString) :
  Text content -> noCarriageReturn content = true ->
  forallb isUuidChar u = true ->
  Text (anchorAfterWrite content u)
  /\ noCarriageReturn (anchorAfterWrite content u) = true
  /\ fromUtf8 (readText (anchorAfterWrite content u))
     = anchorAfterWrite content u.
Proof.
  intros Ht Hn Hu.
  pose proof (removeUuidPattern_Text content Ht) as Ht'.
  pose proof (removeUuidPattern_noCarriageReturn content Hn) as Hn'.
  destruct (uuidComment_ascii u Hu) as [Ha Hc].
  assert (H : Text (anchorAfterWrite content u)
              /\ noCarriageReturn (anchorAfterWrite content u) = true).
  { unfold anchorAfterWrite.
    destruct (startsWith (removeUuidPattern content) (uuidComment u));
      cbn [negb]; [split; assumption|].
    split; [apply Text_app; [apply Text_ascii, Ha | exact Ht']|].
    rewrite noCarriageReturn_app, Hc, Hn'. reflexivity. }
  destruct H as [H1 H2]. split; [exact H1|]. split; [exact H2|].
  apply read_written; [exact H1 | exact H2|].
  destruct (anchorAfterWrite_head content u) as [rest ->]. reflexivity.
Qed.

Lemma anchorContent_text (w : World) :
  Text (anchorContent w) /\ noCarriageReturn (anchorContent w) = true.
Proof.
  unfold anchorContent. destruct (cmake_file w) as [bytes|].
  - apply read_is_text.
  - split; [constructor | reflexivity].
Qed.

(** A successful anchor write: what it did to the machine. *)
Lemma saveUuidToConfig_true (w w' : World) (uuid : QString) :
  saveUuidToConfig w uuid = (true, w') ->
  uuid <> [] /\
  cmake_file w' = Some (anchorAfterWrite (anchorContent w) uuid) /\
  license_file w' = license_file w /\
  interfaces w' = interfaces w /\
  currentDateTime w' = currentDateTime w /\
  license_can_read w' = license_can_read w /\
  license_can_write w' = license_can_write w /\
  cmake_can_read w' = true /\ cmake_can_write w' = true /\
  exists mid,
    journal w'
    = journal w ++ mid
        ++ [WroteCMakeLists (anchorAfterWrite (anchorContent w) uuid)]
    /\ (forall e, In e mid -> e = CreatedTestDir \/ e = CreatedCMakeLists).
Proof.
  unfold saveUuidToConfig, anchorAfterWrite, anchorContent.
  destruct (Qt.isEmpty uuid) eqn:Hu; [discriminate|].
  apply isEmpty_false in Hu.
  destruct (cmake_file w) as [content|] eqn:Hfile.
  - cbn [negb]. rewrite Hfile.
    destruct (cmake_can_read w) eqn:Hr; [|discriminate].
    destruct (cmake_can_write w) eqn:Hw; [|discriminate].
    cbn [andb negb]. intros H; injection H as <-.
    cbn. repeat split; try assumption.
    exists []. split; [reflexivity | intros e []].
  - destruct (test_dir_exists w) eqn:Hd; cbn [negb].
    + destruct (cmake_can_write w) eqn:Hw; cbn [negb]; [|discriminate].
      cbn [cmake_can_read cmake_can_write cmake_file set_cmake_file].
      rewrite Hw. destruct (cmake_can_read w) eqn:Hr; [|discriminate].
      cbn [andb negb]. intros H; injection H as <-.
      cbn. repeat split; try assumption.
      exists [CreatedCMakeLists]. rewrite <- app_assoc.
      split; [reflexivity|]. intros e [<-|[]]. right; reflexivity.
    + destruct (test_dir_can_create w) eqn:Hc; cbn [negb]; [|discriminate].
      cbn [cmake_can_write make_test_dir].
      destruct (cmake_can_write w) eqn:Hw; cbn [negb]; [|discriminate].
      cbn [cmake_can_read cmake_can_write cmake_file set_cmake_file
           make_test_dir].
      rewrite Hw. destruct (cmake_can_read w) eqn:Hr; [|discriminate].
      cbn [andb negb]. intros H; injection H as <-.
      cbn. repeat split; try assumption.
      exists [CreatedTestDir; CreatedCMakeLists]. repeat rewrite <- app_assoc.
      split; [reflexivity|]. intros e [<-|[<-|[]]]; [left|right]; reflexivity.
Qed.


(** The anchor write on a file that exists and can be opened. *)
Lemma saveUuidToConfig_existing (w : World) (uuid : QString)
      (content : QByteArray) :
  uuid <> [] -> cmake_file w = Some content ->
  cmake_can_read w = true -> cmake_can_write w = true ->
  let newContent := anchorAfterWrite (fromUtf8 (readText content)) uuid in
  saveUuidToConfig w uuid
  = (true, set_cmake_file w newContent (WroteCMakeLists newContent)).
Proof.
  intros Hu Hfile Hr Hw. cbv zeta. unfold saveUuidToConfig, anchorAfterWrite.
  apply isEmpty_false in Hu. rewrite Hu, Hfile. cbn [negb].
  rewrite Hfile, Hr, Hw. reflexivity.
Qed.



(** *** Two writes in a row *)

Lemma lines_app_newline (a r : QString) :
  forallb (fun c => negb (Ascii.eqb c newline)) a = true ->
  lines (a ++ newline :: r) = (a ++ [newline]) :: lines r.
Proof.
  induction a as [|c a IH]; cbn [app forallb]; intros H.
  - reflexivity.
  - apply andb_true_iff in H as [Hc Ha].
    cbn [lines]. apply negb_true_iff in Hc. rewrite Hc.
    rewrite (IH Ha). reflexivity.
Qed.

Lemma lines_infix (s l : QString) :
  In l (lines s) -> exists pre post, s = pre ++ l ++ post.
Proof.
  revert l; induction s as [|c t IH]; intros l; cbn [lines]; [intros []|].
  destruct (Ascii.eqb c newline).
  - intros [<- | Hin].
    + exists [], t. reflexivity.
    + destruct (IH l Hin) as [pre [post ->]].
      exists (c :: pre), post. reflexivity.
  - destruct (lines t) as [|l0 ls] eqn:El.
    + intros [<- | []]. exists [], t. reflexivity.
    + intros [<- | Hin].
      * destruct (IH l0 (or_introl eq_refl)) as [pre [post Ht]].
        (* the first line of [t] begins [t] *)
        assert (Hhead : exists post', t = l0 ++ post').
        { clear -El. revert l0 ls El.
          induction t as [|d t IHt]; intros l0 ls El; cbn [lines] in El;
            [discriminate|].
          destruct (Ascii.eqb d newline).
          - injection El as <- _. exists t. reflexivity.
          - destruct (lines t) as [|l1 ls1] eqn:E1.
            + injection El as <- _. destruct t as [|e t'].
              * exists []. reflexivity.
              * cbn [lines] in E1. destruct (Ascii.eqb e newline);
                  [discriminate|]. destruct (lines t'); discriminate.
            + injection El as <- _.
              destruct (IHt l1 ls1 eq_refl) as [post' ->].
              exists post'. reflexivity. }
        destruct Hhead as [post' ->]. exists [], post'. reflexivity.
      * destruct (IH l (or_intror Hin)) as [pre [post ->]].
        exists (c :: pre), post. reflexivity.
Qed.

Lemma isUuidText_true (u : QString) :
  isUuidText u = true ->
  exists c u', u = c :: u' /\ isUuidChar c = true
               /\ forallb isUuidChar u' = true.
Proof.
  unfold isUuidText. destruct u as [|c u']; [discriminate|].
  cbn [Qt.isEmpty negb andb forallb]. intros H.
  apply andb_true_iff in H as [Hc Hall]. eauto.
Qed.

Lemma uuidComment_shape (u : QString) :
  uuidComment u = marker ++ u ++ [newline].
Proof. reflexivity. Qed.

(** Text without a match does not begin with a marker line. *)
Lemma no_match_no_marker_line (r u : QString) :
  isUuidText u = true -> firstMatch r = None ->
  startsWith r (uuidComment u) = false.
Proof.
  intros Hu Hnone. destruct (startsWith r (uuidComment u)) eqn:E;
    [|reflexivity].
  exfalso. apply startsWith_true in E as [t ->].
  apply isUuidText_true in Hu as [c [u' [-> [Hc _]]]].
  apply (proj1 (firstMatch_None _) Hnone).
  exists [], c, (u' ++ [newline] ++ t). split; [|exact Hc].
  rewrite uuidComment_shape. list_eq.
Qed.

(** The removal takes a marker line at the head away, with the white
    space behind it. *)
Lemma removeUuidPattern_marker_line (u r : QString) :
  isUuidText u = true ->
  removeUuidPattern (uuidComment u ++ r)
  = removeUuidPattern (dropWhile isSpace r).
Proof.
  intros Hu. apply isUuidText_true in Hu as [c [u' [-> [Hc Hall]]]].
  rewrite uuidComment_shape.
  replace ((marker ++ (c :: u') ++ [newline]) ++ r)
    with (marker ++ c :: (u' ++ newline :: r))
    by list_eq.
  change (marker ++ c :: (u' ++ newline :: r))
    with ("#"%char :: (tl marker ++ c :: (u' ++ newline :: r))).
  rewrite removeUuidPattern_cons.
  change ("#"%char :: (tl marker ++ c :: (u' ++ newline :: r)))
    with (marker ++ c :: (u' ++ newline :: r)).
  rewrite (matchHere_marker c (u' ++ newline :: r) Hc).
  destruct (takeWhile_app_stop isUuidChar u' newline r Hall
              isUuidChar_newline) as [_ ->].
  cbn [dropWhile]. rewrite isSpace_newline. reflexivity.
Qed.

Lemma firstMatch_None_dropWhile (f : ascii -> bool) (r : QString) :
  firstMatch r = None -> firstMatch (dropWhile f r) = None.
Proof.
  intros H. apply (firstMatch_None_infix (takeWhile f r) (dropWhile f r) []).
  rewrite app_nil_r, takeWhile_dropWhile. exact H.
Qed.

(** A marker line in front of text without a match is the only marker
    line. *)
Lemma markerLines_single (u r : QString) :
  isUuidText u = true -> firstMatch r = None ->
  markerLines (uuidComment u ++ r) = [uuidComment u].
Proof.
  intros Hu Hnone. unfold markerLines.
  pose proof (isUuidText_true u Hu) as [c [u' [Eu [Hc Hall]]]].
  rewrite uuidComment_shape.
  replace ((marker ++ u ++ [newline]) ++ r)
    with ((marker ++ u) ++ newline :: r) by list_eq.
  rewrite lines_app_newline.
  - cbn [filter].
    replace ((marker ++ u) ++ [newline]) with (marker ++ u ++ [newline])
      by list_eq.
    assert (Hline : isMarkerLine (marker ++ u ++ [newline]) = true).
    { unfold isMarkerLine.
      destruct (firstMatch (marker ++ u ++ [newline])) eqn:E; [reflexivity|].
      exfalso. apply (proj1 (firstMatch_None _) E).
      exists [], c, (u' ++ [newline]). subst u. split; [list_eq|exact Hc]. }
    rewrite Hline. f_equal.
    assert (Hrest : forall l, In l (lines r) -> isMarkerLine l = false).
    { intros l Hin. destruct (lines_infix r l Hin) as [pre [post ->]].
      unfold isMarkerLine.
      rewrite (firstMatch_None_infix pre l post Hnone). reflexivity. }
    induction (lines r) as [|l ls IH]; [reflexivity|].
    cbn [filter]. rewrite (Hrest l (or_introl eq_refl)).
    apply IH. intros l' Hl'. apply Hrest. right; exact Hl'.
  - rewrite forallb_app. apply andb_true_iff. split; [reflexivity|].
    subst u. cbn [forallb]. apply andb_true_iff. split.
    + destruct (Ascii.eqb_spec c newline) as [->|]; [|reflexivity].
      rewrite isUuidChar_newline in Hc. discriminate.
    + rewrite forallb_forall in *. intros x Hx.
      destruct (Ascii.eqb_spec x newline) as [->|]; [|reflexivity].
      specialize (Hall _ Hx). rewrite isUuidChar_newline in Hall.
      discriminate.
Qed.

(** Content that one removal clears of markers stays so under the anchor
    write; a content without any marker is such a content. *)
Lemma clean_preserved (content u : QString) :
  isUuidText u = true ->
  firstMatch (removeUuidPattern content) = None ->
  firstMatch (removeUuidPattern (anchorAfterWrite content u)) = None.
Proof.
  intros Hu Hclean. unfold anchorAfterWrite.
  rewrite (no_match_no_marker_line _ u Hu Hclean). cbn [negb].
  rewrite (removeUuidPattern_marker_line u _ Hu).
  pose proof (firstMatch_None_dropWhile isSpace _ Hclean) as Hclean'.
  rewrite (removeUuidPattern_no_match _ Hclean'). exact Hclean'.
Qed.

Lemma clean_without_marker (content : QString) :
  firstMatch content = None ->
  firstMatch (removeUuidPattern content) = None.
Proof.
  intros H. rewrite (removeUuidPattern_no_match _ H). exact H.
Qed.

(** C8, as stated, fails.  In this file the marker text is nested three
    times; each write deletes one level and uncovers the next, so after
    two writes the file has two marker lines. *)
Lemma nested_markers_survive_two_writes :
  let content :=
    Q "# PAYWALL_# PAYWALL_# PAYWALL_UUID: a" ++ [newline]
      ++ Q "UUID: b" ++ [newline] ++ Q "UUID: c" ++ [newline] in
  let w := Sample.withFiles Sample.machine None (Some content) 0 in
  let '(ok1, w1) := saveUuidToConfig w Sample.someUuid in
  let '(ok2, w2) := saveUuidToConfig w1 Sample.otherUuid in
  ok1 = true /\ ok2 = true /\
  markerLines (anchorContent w2)
  = [uuidComment Sample.otherUuid; Q "# PAYWALL_UUID: c" ++ [newline]] /\
  List.length (markerLines (anchorContent w2)) <> 1%nat.
Proof.
  vm_compute. repeat split; try reflexivity. discriminate.
Qed.

(** After a successful write the file holds the text that the program
    reads from it. *)
Lemma saveUuidToConfig_read_back (w w' : World) (u : QString) :
  saveUuidToConfig w u = (true, w') -> forallb isUuidChar u = true ->
  cmake_file w' = Some (anchorContent w') /\
  anchorContent w' = anchorAfterWrite (anchorContent w) u /\
  cmake_can_read w' = true.
Proof.
  intros Hsave Hu.
  apply saveUuidToConfig_true in Hsave
    as [_ [Hf [_ [_ [_ [_ [_ [Hr _]]]]]]]].
  destruct (anchorContent_text w) as [Ht Hn].
  destruct (anchorAfterWrite_text (anchorContent w) u Ht Hn Hu)
    as [_ [_ Hback]].
  assert (H : anchorContent w' = anchorAfterWrite (anchorContent w) u).
  { unfold anchorContent at 1. rewrite Hf. exact Hback. }
  rewrite H. repeat split; assumption.
Qed.

Lemma isUuidText_forallb (u : QString) :
  isUuidText u = true -> forallb isUuidChar u = true.
Proof. unfold isUuidText. intros H. apply andb_true_iff in H. tauto. Qed.

(** C8, amended.  If removing the markers from the text of the starting
    file, as the program reads it, leaves no text that matches the
    pattern, as is the case for a file without a marker and for what the
    anchor write makes of such a file, then two successful writes in a
    row, with ids of the generated shape, leave a file with exactly one
    marker line, and it is the line of the second id. *)
Theorem two_writes_one_marker (w w1 w2 : World) (u1 u2 : QString) :
  isUuidText u1 = true -> isUuidText u2 = true ->
  firstMatch (removeUuidPattern (anchorContent w)) = None ->
  saveUuidToConfig w u1 = (true, w1) ->
  saveUuidToConfig w1 u2 = (true, w2) ->
  cmake_file w2 = Some (anchorContent w2) /\
  markerLines (anchorContent w2) = [uuidComment u2].
Proof.
  intros Hu1 Hu2 Hclean Hs1 Hs2.
  apply saveUuidToConfig_read_back in Hs1 as [_ [Hc1 _]];
    [|apply isUuidText_forallb, Hu1].
  apply saveUuidToConfig_read_back in Hs2 as [Hf2 [Hc2 _]];
    [|apply isUuidText_forallb, Hu2].
  split; [exact Hf2|].
  rewrite Hc2, Hc1.
  set (r0 := removeUuidPattern (anchorContent w)) in *.
  assert (H1 : anchorAfterWrite (anchorContent w) u1 = uuidComment u1 ++ r0).
  { unfold anchorAfterWrite. fold r0.
    rewrite (no_match_no_marker_line r0 u1 Hu1 Hclean). reflexivity. }
  rewrite H1. unfold anchorAfterWrite.
  rewrite (removeUuidPattern_marker_line u1 r0 Hu1).
  pose proof (firstMatch_None_dropWhile isSpace r0 Hclean) as Hclean'.
  rewrite (removeUuidPattern_no_match _ Hclean').
  rewrite (no_match_no_marker_line _ u2 Hu2 Hclean'). cbn [negb].
  apply markerLines_single; assumption.
Qed.

Lemma two_writes_one_marker_witness :
  let content :=
    Q "project(x)" ++ [carriageReturn; newline]
      ++ marker ++ Q "0123-abcd" ++ [carriageReturn; newline]
      ++ Q "  add_subdirectory(unit)" ++ [carriageReturn; newline] in
  let w := Sample.withFiles Sample.machine None (Some content) 0 in
  let w1 := snd (saveUuidToConfig w Sample.someUuid) in
  let w2 := snd (saveUuidToConfig w1 Sample.otherUuid) in
  firstMatch (removeUuidPattern (anchorContent w)) = None /\
  cmake_file w2 = Some (anchorContent w2) /\
  markerLines (anchorContent w2) = [uuidComment Sample.otherUuid].
Proof.
  cbv zeta.
  set (w := Sample.withFiles Sample.machine None _ 0).
  split; [vm_compute; reflexivity|].
  apply (two_writes_one_marker w
           (snd (saveUuidToConfig w Sample.someUuid))
           (snd (saveUuidToConfig
                   (snd (saveUuidToConfig w Sample.someUuid))
                   Sample.otherUuid))
           Sample.someUuid Sample.otherUuid);
    vm_compute; reflexivity.
Defined.

End AnchorWrite.

(* ===================================================================== *)
(** ** The validator *)
(* ===================================================================== *)

Section Validator.
Context {formats : TextFormats}.

Lemma systemHasMacAddress_true (w : World) (targetMac : QString) :
  systemHasMacAddress w targetMac = true <->
  targetMac <> [] /\ machineHasHardwareId w targetMac.
Proof.
  unfold systemHasMacAddress, machineHasHardwareId.
  destruct (Qt.isEmpty targetMac) eqn:E.
  - apply isEmpty_true in E. split; [discriminate | tauto].
  - apply isEmpty_false in E.
    induction (interfaces w) as [|i rest IH].
    + split; [discriminate|]. intros [_ [i [[] _]]].
    + destruct (qeqb (hardwareAddress i) targetMac) eqn:Eq.
      * apply qeqb_eq in Eq. split; [|reflexivity]. intros _.
        split; [exact E|]. exists i. split; [left; reflexivity | exact Eq].
      * apply qeqb_neq in Eq. rewrite IH. split.
        -- intros [_ [j [Hin Hj]]]. split; [exact E|].
           exists j. split; [right; exact Hin | exact Hj].
        -- intros [_ [j [[<-|Hin] Hj]]]; [contradiction|].
           split; [exact E|]. exists j. split; assumption.
Qed.

Lemma isLicenseExpired_false (w : World) (t : QDateTime) :
  isLicenseExpired w t = false <-> laterThanNow w t.
Proof.
  unfold isLicenseExpired, getCurrentDateTimeSafe, dt_le, dt_lt, laterThanNow.
  rewrite negb_false_iff. destruct t as [ms|].
  - rewrite Z.ltb_lt. split.
    + intros H. exists ms. split; [reflexivity | exact H].
    + intros [ms' [H Hlt]]. injection H as ->. exact Hlt.
  - split; [discriminate|]. intros [ms [H _]]. discriminate H.
Qed.

Lemma fromJsonString_object (json : QString) (obj : QJsonObject) :
  fromJson (toUtf8 json) = JObject obj ->
  LicenseData.fromJsonString json = recordOf obj.
Proof. unfold LicenseData.fromJsonString. intros ->. reflexivity. Qed.

Lemma xorDecrypt_nil (key : QString) : xorDecrypt [] key = [].
Proof.
  unfold xorDecrypt. cbn. rewrite orb_true_r. reflexivity.
Qed.

(** The record the code loads is the record the blob decodes to. *)
Lemma blobDecodesTo_loadLicense (w : World) (d : LicenseData.t) :
  blobDecodesTo w d -> loadLicense w = d.
Proof.
  intros [bytes [obj [Hread [Hmac [Htext [Hjson ->]]]]]].
  unfold loadLicense. rewrite Hread.
  destruct (Qt.isEmpty (fromUtf8 bytes)) eqn:Eb.
  - apply isEmpty_true in Eb. rewrite Eb, xorDecrypt_nil in Htext.
    congruence.
  - apply isEmpty_false in Hmac. rewrite Hmac.
    apply isEmpty_false in Htext. rewrite Htext.
    apply fromJsonString_object, Hjson.
Qed.

(** A record with an e-mail address has been decoded from the blob. *)
Lemma loadLicense_not_empty (w : World) :
  LicenseData.isEmpty (loadLicense w) = false ->
  blobDecodesTo w (loadLicense w).
Proof.
  unfold loadLicense, blobDecodesTo.
  destruct (read_license w) as [bytes|]; [|discriminate].
  destruct (Qt.isEmpty (fromUtf8 bytes)); [discriminate|].
  destruct (Qt.isEmpty (getFirstMacAddress w)) eqn:Em; [discriminate|].
  destruct (Qt.isEmpty (xorDecrypt _ _)) eqn:Et; [discriminate|].
  unfold LicenseData.fromJsonString.
  destruct (fromJson _) as [| | | | | |obj] eqn:Ej; try discriminate.
  intros _. exists bytes, obj.
  split; [reflexivity|]. split; [apply isEmpty_false, Em|].
  cbv zeta. split; [apply isEmpty_false, Et|].
  split; [exact Ej | reflexivity].
Qed.

(** C1.  The validator returns true if and only if (1) the blob decodes,
    with the key derived from the first hardware id of the current
    machine, to a record that parses and is not empty (e-mail, hardware id
    and activation id all set), (2) some interface of the machine has the
    hardware address of the record, (3) the anchor value is present and
    equal to the activation id of the record, and (4) the record expires
    strictly later than now.  The code tests its four conditions in this
    order, each only when the ones before it hold (the second part), so
    the first that fails settles the outcome. *)
Theorem hasValidLicense_iff (w : World) :
  (hasValidLicense w = true <->
   exists d : LicenseData.t,
     (blobDecodesTo w d /\ spec_isEmpty d = false) /\
     machineHasHardwareId w (LicenseData.mac d) /\
     anchorIs w (LicenseData.uuid d) /\
     laterThanNow w (LicenseData.expires d))
  /\ (let license := loadLicense w in
      let anchor := loadUuidFromConfig w in
      hasValidLicense w
      = negb (LicenseData.isEmpty license)
        && (systemHasMacAddress w (LicenseData.mac license)
            && ((negb (Qt.isEmpty anchor)
                 && qeqb anchor (LicenseData.uuid license))
                && negb (isLicenseExpired w (LicenseData.expires license))))).
Proof.
  split; [|unfold hasValidLicense; cbv zeta;
           destruct (LicenseData.isEmpty (loadLicense w)); [reflexivity|];
           destruct (systemHasMacAddress w _); [|reflexivity];
           destruct (Qt.isEmpty (loadUuidFromConfig w)); [reflexivity|];
           destruct (qeqb (loadUuidFromConfig w) _); [|reflexivity];
           destruct (isLicenseExpired w _); reflexivity].
  unfold hasValidLicense. split.
  - destruct (LicenseData.isEmpty (loadLicense w)) eqn:E1; [discriminate|].
    destruct (systemHasMacAddress w (LicenseData.mac (loadLicense w)))
      eqn:E2; cbn [negb]; [|discriminate].
    destruct (Qt.isEmpty (loadUuidFromConfig w)) eqn:E3;
      cbn [orb]; [discriminate|].
    destruct (qeqb (loadUuidFromConfig w) (LicenseData.uuid (loadLicense w)))
      eqn:E4; cbn [negb]; [|discriminate].
    destruct (isLicenseExpired w (LicenseData.expires (loadLicense w)))
      eqn:E5; [discriminate|].
    intros _. exists (loadLicense w).
    apply systemHasMacAddress_true in E2 as [Hmac Hhas].
    apply isEmpty_false in E3. apply qeqb_eq in E4.
    apply isLicenseExpired_false in E5.
    repeat split; try assumption.
    + apply loadLicense_not_empty, E1.
    + apply not_spec_isEmpty. split; [apply isEmpty_false, E1|].
      split; [exact Hmac | congruence].
  - intros [d [[Hdec Hne] [Hhas [[Hpresent Hanchor] Hlater]]]].
    rewrite (blobDecodesTo_loadLicense w d Hdec).
    apply not_spec_isEmpty in Hne as [Hemail [Hmac Huuid]].
    unfold LicenseData.isEmpty.
    apply isEmpty_false in Hemail. rewrite Hemail.
    rewrite (proj2 (systemHasMacAddress_true w _) (conj Hmac Hhas)).
    apply isEmpty_false in Hpresent. rewrite Hpresent.
    rewrite (proj2 (qeqb_eq _ _) Hanchor).
    rewrite (proj2 (isLicenseExpired_false w _) Hlater). reflexivity.
Qed.

(** C9.  [systemHasMacAddress] is false for the empty string on every
    machine, also on one with an interface that reports an empty hardware
    address; hence a license whose stored hardware id is empty is never
    valid. *)
Theorem empty_mac_never_matches (w : World) :
  systemHasMacAddress w [] = false /\
  (LicenseData.mac (loadLicense w) = [] -> hasValidLicense w = false).
Proof.
  split; [reflexivity|].
  intros H. unfold hasValidLicense. rewrite H.
  destruct (LicenseData.isEmpty (loadLicense w)); reflexivity.
Qed.

(** C10.  If the machine has no first hardware id, the blob is not
    decoded: [loadLicense] returns the default record, and the validator
    returns false whatever the blob file and the anchor file hold. *)
Theorem no_hardware_id_no_license (w : World) :
  getFirstMacAddress w = [] ->
  loadLicense w = LicenseData.default /\ hasValidLicense w = false.
Proof.
  intros H.
  assert (Hload : loadLicense w = LicenseData.default).
  { unfold loadLicense. rewrite H.
    destruct (read_license w) as [bytes|]; [|reflexivity].
    destruct (Qt.isEmpty (fromUtf8 bytes)); reflexivity. }
  split; [exact Hload|].
  unfold hasValidLicense. rewrite Hload. reflexivity.
Qed.

End Validator.

(* ===================================================================== *)
(** ** The activation flow *)
(* ===================================================================== *)

Section Activation.
Context {formats : TextFormats} {zone : TimeZone}.

Lemma activateNewLicense_saveLicense (w : World) (generated email : QString)
      (w' : World) :
  activateNewLicense w generated email = (true, w') ->
  saveLicense w (issuedRecord w generated email) = (true, w').
Proof.
  unfold activateNewLicense.
  destruct (Qt.isEmpty (getFirstMacAddress w)); [discriminate|].
  destruct (Qt.isEmpty generated); [discriminate|].
  intros H. exact H.
Qed.

Lemma saveLicense_true (w w' : World) (d : LicenseData.t) :
  saveLicense w d = (true, w') ->
  license_can_write w = true /\ blobOf d <> [] /\
  saveUuidToConfig (set_license_file w (toUtf8 (blobOf d)))
    (LicenseData.uuid d) = (true, w').
Proof.
  unfold saveLicense. fold (blobOf d).
  destruct (LicenseData.isEmpty d); [discriminate|].
  destruct (Qt.isEmpty (blobOf d)) eqn:Eb; [discriminate|].
  destruct (license_can_write w); cbn [negb]; [|discriminate].
  intros H. split; [reflexivity|]. split; [apply isEmpty_false, Eb | exact H].
Qed.

(** When the blob file cannot be opened for writing, the activation
    changes nothing. *)
Lemma activateNewLicense_blob_failure (w : World) (generated email : QString) :
  license_can_write w = false ->
  activateNewLicense w generated email = (false, w).
Proof.
  intros Hw. unfold activateNewLicense, saveLicense.
  destruct (Qt.isEmpty (getFirstMacAddress w)); [reflexivity|].
  destruct (Qt.isEmpty generated); [reflexivity|].
  destruct (LicenseData.isEmpty _); [reflexivity|].
  destruct (Qt.isEmpty (xorEncrypt _ _)); [reflexivity|].
  rewrite Hw. reflexivity.
Qed.

(** C2.  [activateNewLicense] returns true only if the blob was written
    and then the anchor: the journal of writes grows by the blob write,
    then what creating the anchor file takes, then the anchor write, and
    both files hold the new content.  When the blob file cannot be opened
    for writing the result is false and the machine, the anchor file
    included, is as before. *)
Theorem activation_persists (w w' : World) (generated email : QString)
        (ok : bool) :
  activateNewLicense w generated email = (ok, w') ->
  (ok = true ->
   exists mid,
     let blob := blobOf (issuedRecord w generated email) in
     let anchor := anchorAfterWrite (anchorContent w) generated in
     license_can_write w = true /\ blob <> [] /\
     license_file w' = Some blob /\
     cmake_file w' = Some anchor /\
     journal w'
     = journal w ++ [WroteLicense blob] ++ mid ++ [WroteCMakeLists anchor] /\
     (forall e, In e mid -> e = CreatedTestDir \/ e = CreatedCMakeLists))
  /\ (license_can_write w = false ->
      ok = false /\ w' = w /\ cmake_file w' = cmake_file w).
Proof.
  intros Hact. split.
  - intros ->.
    apply activateNewLicense_saveLicense in Hact.
    apply saveLicense_true in Hact as [Hw [Hblob Hsave]].
    apply saveUuidToConfig_true in Hsave
      as [_ [Hf [Hl [_ [_ [_ [_ [_ [_ [mid [Hj Hmid]]]]]]]]]]].
    exists mid. cbv zeta.
    split; [exact Hw|]. split; [exact Hblob|].
    split; [exact Hl|]. split; [exact Hf|].
    split; [|exact Hmid].
    rewrite Hj. cbn [journal set_license_file]. unfold toUtf8.
    rewrite <- !app_assoc. reflexivity.
  - intros Hw.
    rewrite (activateNewLicense_blob_failure w generated email Hw) in Hact.
    injection Hact as <- <-. repeat split; reflexivity.
Qed.

End Activation.

(* ===================================================================== *)
(** ** The claims on the sample machine *)
(* ===================================================================== *)

Section OnTheSampleMachine.
Import Sample.

Lemma empty_mac_never_matches_witness :
  let d := {| LicenseData.email := Q "a@example.com";
              LicenseData.mac := [];
              LicenseData.uuid := Sample.someUuid;
              LicenseData.issued := Some 1700000000000%Z;
              LicenseData.expires := Some 1702592000000%Z |} in
  let blob :=
    xorEncrypt (LicenseData.toJsonString d)
      (generateKeyFromMac (Q "AA:BB:CC:DD:EE:FF")) in
  let w := Sample.withFiles Sample.machine (Some blob)
             (Some (uuidComment Sample.someUuid)) 1700000000000 in
  loadLicense w = d /\
  machineHasHardwareId w (LicenseData.mac d) /\
  anchorIs w (LicenseData.uuid d) /\
  laterThanNow w (LicenseData.expires d) /\
  hasValidLicense w = false.
Proof.
  cbv zeta.
  set (d := {| LicenseData.email := Q "a@example.com";
               LicenseData.mac := [];
               LicenseData.uuid := Sample.someUuid;
               LicenseData.issued := Some 1700000000000%Z;
               LicenseData.expires := Some 1702592000000%Z |}).
  set (w := Sample.withFiles Sample.machine _ _ 1700000000000).
  assert (Hload : loadLicense w = d) by (vm_compute; reflexivity).
  split; [exact Hload|].
  split; [exists Sample.tun0; split; [right; left|]; reflexivity|].
  split; [split; [discriminate | vm_compute; reflexivity]|].
  split; [exists 1702592000000%Z; split;
          [reflexivity | vm_compute; reflexivity]|].
  apply (proj2 (empty_mac_never_matches w)).
  rewrite Hload. reflexivity.
Defined.

Lemma no_hardware_id_no_license_witness :
  let '(_, activated) :=
    activateNewLicense Sample.machine Sample.someUuid (Q "a@example.com") in
  let w := Sample.withInterfaces activated [Sample.lo; Sample.tun0] in
  hasValidLicense activated = true /\
  getFirstMacAddress w = [] /\
  loadLicense w = LicenseData.default /\
  hasValidLicense w = false.
Proof.
  destruct (activateNewLicense Sample.machine Sample.someUuid
              (Q "a@example.com")) as [ok activated] eqn:E.
  cbv zeta.
  assert (Hw : activated
               = snd (activateNewLicense Sample.machine Sample.someUuid
                        (Q "a@example.com"))) by (rewrite E; reflexivity).
  split; [rewrite Hw; vm_compute; reflexivity|].
  assert (Hmac : getFirstMacAddress
                   (Sample.withInterfaces activated [Sample.lo; Sample.tun0])
                 = []) by reflexivity.
  split; [exact Hmac|].
  exact (no_hardware_id_no_license _ Hmac).
Defined.

Lemma activation_persists_witness :
  let email := Q "a@example.com" in
  let r := activateNewLicense Sample.machine Sample.someUuid email in
  fst r = true /\
  license_file (snd r)
  = Some (blobOf (issuedRecord Sample.machine Sample.someUuid email)) /\
  cmake_file (snd r)
  = Some (uuidComment Sample.someUuid
            ++ Q "add_subdirectory(unit)" ++ [newline]).
Proof.
  cbv zeta.
  set (email := Q "a@example.com").
  set (r := activateNewLicense Sample.machine Sample.someUuid email).
  assert (Hr : r = (fst r, snd r)) by apply surjective_pairing.
  assert (Hok : fst r = true) by (vm_compute; reflexivity).
  destruct (activation_persists Sample.machine (snd r) Sample.someUuid
              email (fst r) Hr) as [Hsuccess _].
  destruct (Hsuccess Hok) as [mid [_ [_ [Hblob [Hanchor _]]]]].
  split; [exact Hok|]. split; [exact Hblob|].
  rewrite Hanchor. vm_compute. reflexivity.
Defined.

End OnTheSampleMachine.

(* ===================================================================== *)
(** ** Further properties: the hardware id *)
(* ===================================================================== *)

Section HardwareId.

Lemma getFirstMacAddress_find (w : World) :
  getFirstMacAddress w
  = match find isUsable (interfaces w) with
    | Some i => hardwareAddress i
    | None => []
    end.
Proof.
  unfold getFirstMacAddress.
  induction (interfaces w) as [|i rest IH]; [reflexivity|].
  cbn [find]. unfold isUsable at 1.
  destruct (N.land (flags i) IsLoopBack =? 0)%N; cbn [andb]; [|exact IH].
  destruct (negb (Qt.isEmpty (hardwareAddress i))
            && negb (qeqb (hardwareAddress i) (Q "00:00:00:00:00:00")));
    [reflexivity | exact IH].
Qed.

Lemma isUsable_address (i : QNetworkInterface) :
  isUsable i = true ->
  hardwareAddress i <> [] /\ hardwareAddress i <> Q "00:00:00:00:00:00".
Proof.
  unfold isUsable. rewrite !andb_true_iff, !negb_true_iff.
  intros [[_ He] Hz]. split; [apply isEmpty_false, He | apply qeqb_neq, Hz].
Qed.

(** X1.  The hardware id of the machine is the address of the first
    interface that is not a loopback and has an address other than the
    empty and the all-zero one; every interface before it is refused.
    There is no hardware id exactly when every interface is refused. *)
Theorem getFirstMacAddress_first (w : World) :
  (getFirstMacAddress w = [] <->
   forall i, In i (interfaces w) -> isUsable i = false)
  /\ (getFirstMacAddress w <> [] ->
      exists before i after,
        interfaces w = before ++ i :: after /\
        isUsable i = true /\ hardwareAddress i = getFirstMacAddress w /\
        getFirstMacAddress w <> Q "00:00:00:00:00:00" /\
        forall j, In j before -> isUsable j = false).
Proof.
  rewrite getFirstMacAddress_find.
  destruct (find isUsable (interfaces w)) as [i|] eqn:E.
  - pose proof (find_some _ _ E) as [Hin Hi].
    pose proof (isUsable_address i Hi) as [Hne Hnz].
    split.
    + split; [congruence|]. intros H. rewrite (H i Hin) in Hi. discriminate.
    + intros _. clear Hin.
      induction (interfaces w) as [|x rest IH]; [discriminate|].
      cbn [find] in E. destruct (isUsable x) eqn:Ex.
      * injection E as ->. exists [], i, rest.
        repeat split; try assumption. intros j [].
      * destruct (IH E) as [before [i' [after [-> [Hi' [Ha [_ Hb]]]]]]].
        exists (x :: before), i', after.
        repeat split; try assumption.
        intros j [<-|Hj]; [exact Ex | apply Hb, Hj].
  - split.
    + split; [|reflexivity]. intros _ i Hi. apply (find_none _ _ E i Hi).
    + congruence.
Qed.

Lemma find_usable_split (l : list QNetworkInterface) (i : QNetworkInterface) :
  find isUsable l = Some i -> In i l /\ isUsable i = true.
Proof. apply find_some. Qed.

Lemma first_mac_address_accepted (w : World) :
  getFirstMacAddress w <> [] ->
  systemHasMacAddress w (getFirstMacAddress w) = true.
Proof.
  intros Hne. apply systemHasMacAddress_true. split; [exact Hne|].
  rewrite getFirstMacAddress_find in *.
  destruct (find isUsable (interfaces w)) as [i|] eqn:E; [|congruence].
  apply find_usable_split in E as [Hin _].
  exists i. split; [exact Hin | reflexivity].
Qed.

(** X2.  A hardware id that [getFirstMacAddress] finds passes the
    hardware check of the validator, on the same machine and on every
    machine that has at least the same interfaces, in whatever order: a
    license stays bound when interfaces are added or renumbered. *)
Theorem first_mac_passes_check (w w2 : World) :
  getFirstMacAddress w <> [] ->
  (forall i, In i (interfaces w) -> In i (interfaces w2)) ->
  systemHasMacAddress w (getFirstMacAddress w) = true /\
  systemHasMacAddress w2 (getFirstMacAddress w) = true.
Proof.
  intros Hne Hsub.
  pose proof (first_mac_address_accepted w Hne) as H.
  split; [exact H|].
  apply systemHasMacAddress_true in H as [_ [i [Hin Ha]]].
  apply systemHasMacAddress_true. split; [exact Hne|].
  exists i. split; [apply Hsub, Hin | exact Ha].
Qed.

End HardwareId.

(* ===================================================================== *)
(** ** Further properties: the codec *)
(* ===================================================================== *)

Section CodecMore.

Lemma generateKeyFromMac_not_empty (mac : QString) :
  generateKeyFromMac mac <> [].
Proof.
  unfold generateKeyFromMac. intros H.
  apply app_eq_nil in H as [_ H]. discriminate H.
Qed.

(** X3.  The key has the salt behind the hardware id: it is never empty
    and different ids give different keys; so on the way to the blob the
    encryption yields the empty string only for an empty plaintext. *)
Theorem derived_key_sound (mac mac' data : QString) :
  generateKeyFromMac mac <> [] /\
  (generateKeyFromMac mac = generateKeyFromMac mac' -> mac = mac') /\
  (xorEncrypt data (generateKeyFromMac mac) = [] <-> data = []).
Proof.
  split; [apply generateKeyFromMac_not_empty|]. split.
  - unfold generateKeyFromMac. apply app_inv_tail.
  - unfold xorEncrypt, toUtf8.
    pose proof (generateKeyFromMac_not_empty mac) as Hk.
    apply isEmpty_false in Hk. rewrite Hk.
    rewrite fromLatin1_nil, toBase64_nil, xorLoop_nil. reflexivity.
Qed.

(** The characters [toBase64] writes are ASCII characters of base64
    text. *)
Lemma alphabet_char (v : N) :
  (N_of_ascii (alphabet v) <? 128)%N = true /\
  (isBase64Char (alphabet v) || Ascii.eqb (alphabet v) padchar) = true.
Proof.
  assert (Hall : forallb
            (fun c => (N_of_ascii c <? 128)%N
                      && (isBase64Char c || Ascii.eqb c padchar))
            (padchar :: alphabet_base64) = true) by (vm_compute; reflexivity).
  rewrite forallb_forall in Hall.
  apply andb_true_iff, Hall. unfold alphabet.
  destruct (nth_in_or_default (N.to_nat v) alphabet_base64 "="%char)
    as [Hin | ->]; [right; exact Hin | left; reflexivity].
Qed.

Lemma toBase64_chars (bytes : QByteArray) :
  forallb (fun c => (N_of_ascii c <? 128)%N
                    && (isBase64Char c || Ascii.eqb c padchar))
          (toBase64 bytes) = true.
Proof.
  assert (Hc : forall v,
             ((N_of_ascii (alphabet v) <? 128)%N
              && (isBase64Char (alphabet v) || Ascii.eqb (alphabet v) padchar))
             = true).
  { intros v. destruct (alphabet_char v) as [-> ->]. reflexivity. }
  induction bytes as [|b1|b1 b2|b1 b2 b3 rest IH] using list_ind3;
    cbn [toBase64 forallb]; rewrite ?Hc, ?IH; reflexivity.
Qed.

Lemma fromLatin1_ascii (b : QByteArray) :
  forallb (fun c => (N_of_ascii c <? 128)%N) b = true -> fromLatin1 b = b.
Proof.
  unfold fromLatin1. induction b as [|c b IH]; [reflexivity|].
  cbn [forallb flat_map]. intros H. apply andb_true_iff in H as [Hc Hb].
  rewrite (IH Hb). unfold latin1_char. rewrite Hc. reflexivity.
Qed.

Lemma toBase64_length (bytes : QByteArray) :
  List.length (toBase64 bytes) = (4 * ((List.length bytes + 2) / 3))%nat.
Proof.
  induction bytes as [|b1|b1 b2|b1 b2 b3 rest IH] using list_ind3;
    try reflexivity.
  cbn [toBase64 List.length]. rewrite IH.
  replace (S (S (S (List.length rest))) + 2)%nat
    with ((List.length rest + 2) + 1 * 3)%nat by lia.
  rewrite Nat.div_add by lia. lia.
Qed.

Lemma xorEncrypt_toBase64 (data key : QString) :
  key <> [] -> xorEncrypt data key = toBase64 (xorLoop key 0 data).
Proof.
  intros Hk. unfold xorEncrypt, toUtf8.
  apply isEmpty_false in Hk. rewrite Hk.
  apply fromLatin1_ascii.
  pose proof (toBase64_chars (xorLoop key 0 data)) as H.
  rewrite forallb_forall in *. intros c Hc.
  specialize (H c Hc). apply andb_true_iff in H as [H _]. exact H.
Qed.

Lemma base64_char_carriageReturn (c : ascii) :
  isBase64Char c || Ascii.eqb c padchar = true ->
  negb (Ascii.eqb c carriageReturn) = true.
Proof.
  intros H. destruct (Ascii.eqb_spec c carriageReturn) as [->|];
    [discriminate H | reflexivity].
Qed.

(** What [xorEncrypt] returns is read from a file as it was written. *)
Lemma xorEncrypt_read (data key : QString) :
  fromUtf8 (readText (toUtf8 (xorEncrypt data key))) = xorEncrypt data key.
Proof.
  unfold toUtf8. destruct key as [|k key]; [reflexivity|].
  rewrite xorEncrypt_toBase64 by discriminate.
  pose proof (toBase64_chars (xorLoop (k :: key) 0 data)) as H.
  rewrite readText_fixed.
  - apply fromUtf8_ascii. revert H. apply forallb_weaken.
    intros c Hc. apply andb_true_iff in Hc as [Hc _]. exact Hc.
  - revert H. apply forallb_weaken.
    intros c Hc. apply andb_true_iff in Hc as [_ Hc].
    apply base64_char_carriageReturn, Hc.
Qed.

(** X4.  With a non-empty key [xorEncrypt] returns base64 text: alphabet
    characters and padding only, four characters for every three bytes of
    the plaintext, the last group padded. *)
Theorem xorEncrypt_is_base64 (data key : QString) :
  key <> [] ->
  isBase64Text (xorEncrypt data key) = true /\
  List.length (xorEncrypt data key)
  = (4 * ((List.length data + 2) / 3))%nat.
Proof.
  intros Hk. rewrite (xorEncrypt_toBase64 data key Hk). split.
  - pose proof (toBase64_chars (xorLoop key 0 data)) as H.
    unfold isBase64Text. rewrite forallb_forall in *. intros c Hc.
    specialize (H c Hc). apply andb_true_iff in H as [_ H]. exact H.
  - rewrite toBase64_length, xorLoop_length. reflexivity.
Qed.

Lemma fromBase64_helper_filter (input : QByteArray) (buf nbits : N) :
  fromBase64_helper buf nbits (filter isBase64Char input)
  = fromBase64_helper buf nbits input.
Proof.
  revert buf nbits; induction input as [|ch rest IH]; intros buf nbits;
    [reflexivity|].
  cbn [filter]. unfold isBase64Char at 1.
  destruct (base64_value ch) as [d|] eqn:E.
  - cbn [fromBase64_helper]. rewrite E. cbv zeta.
    destruct (8 <=? nbits + 6)%N; rewrite IH; reflexivity.
  - rewrite helper_skip by exact E. apply IH.
Qed.

(** X5.  Decoding looks only at the characters of the base64 alphabet:
    two texts with the same alphabet characters, whatever else is in
    between (line breaks, spaces, further padding), decode to the same
    string.  So text that has the alphabet characters of an encoded blob
    decodes as the blob does, to the bytes of its plaintext as
    [QString::fromUtf8] reads them. *)
Theorem xorDecrypt_ignores_other_characters (text1 text2 data key : QString) :
  filter isBase64Char (toLatin1 text1)
  = filter isBase64Char (toLatin1 text2) ->
  xorDecrypt text1 key = xorDecrypt text2 key /\
  (key <> [] -> text2 = xorEncrypt data key ->
   xorDecrypt text1 key = fromUtf8 (toUtf8 data)).
Proof.
  intros Hsame.
  assert (H : xorDecrypt text1 key = xorDecrypt text2 key).
  { unfold xorDecrypt, fromBase64.
    rewrite <- (fromBase64_helper_filter (toLatin1 text1)), Hsame,
      fromBase64_helper_filter. reflexivity. }
  split; [exact H|].
  intros Hk ->. rewrite H. apply xorDecrypt_xorEncrypt, Hk.
Qed.

Lemma xor_char_cancel (a b c : ascii) :
  xor_char (xor_char a b) c = a -> b = c.
Proof.
  destruct a as [a0 a1 a2 a3 a4 a5 a6 a7], b as [b0 b1 b2 b3 b4 b5 b6 b7],
    c as [c0 c1 c2 c3 c4 c5 c6 c7].
  cbn [xor_char]. intros H. injection H as H0 H1 H2 H3 H4 H5 H6 H7.
  assert (Hbit : forall x y z, xorb (xorb x y) z = x -> y = z)
    by (intros [] [] []; cbn; congruence).
  f_equal; eapply Hbit; eassumption.
Qed.

Lemma xorLoop_nth (key bytes : QByteArray) (i n : nat) :
  (n < List.length bytes)%nat ->
  nth n (xorLoop key i bytes) zero
  = xor_char (nth n bytes zero)
      (nth ((i + n) mod List.length key) key zero).
Proof.
  revert i n; induction bytes as [|b rest IH]; intros i n Hn;
    cbn [List.length] in Hn; [lia|].
  cbn [xorLoop]. destruct n as [|n].
  - cbn [nth]. rewrite Nat.add_0_r. reflexivity.
  - cbn [nth]. rewrite IH by lia.
    replace (S i + n)%nat with (i + S n)%nat by lia. reflexivity.
Qed.

Lemma differ_at (k1 k2 : list ascii) :
  List.length k1 = List.length k2 -> k1 <> k2 ->
  exists n, (n < List.length k1)%nat /\ nth n k1 zero <> nth n k2 zero.
Proof.
  revert k2; induction k1 as [|x k1 IH]; intros [|y k2] Hlen Hne;
    cbn [List.length] in Hlen; try discriminate.
  - congruence.
  - destruct (ascii_dec x y) as [->|Hxy].
    + destruct (IH k2) as [n [Hn Hd]]; [lia | congruence|].
      exists (S n). cbn [List.length nth]. split; [lia | exact Hd].
    + exists 0%nat. cbn [List.length nth]. split; [lia | exact Hxy].
Qed.

(** X6.  A blob does not decode with another key of the same length: when
    the plaintext is at least as long as the keys, decoding with a
    different key never gives the plaintext back. *)
Theorem wrong_key_changes_plaintext (data key1 key2 : QString) :
  key1 <> [] -> List.length key1 = List.length key2 -> key1 <> key2 ->
  (List.length key1 <= List.length data)%nat ->
  xorDecrypt (xorEncrypt data key1) key2 <> data.
Proof.
  intros Hk1 Hlen Hne Hlong Heq.
  assert (Hk2 : key2 <> []).
  { intros ->. destruct key1; [congruence | discriminate Hlen]. }
  assert (Hdata : data <> []).
  { intros ->. destruct key1; [congruence | cbn in Hlong; lia]. }
  unfold xorDecrypt, toUtf8 in Heq.
  rewrite (xorEncrypt_toBase64 data key1 Hk1) in Heq.
  assert (Hlat : toLatin1 (toBase64 (xorLoop key1 0 data))
                 = toBase64 (xorLoop key1 0 data)).
  { rewrite <- (fromLatin1_ascii (toBase64 (xorLoop key1 0 data))) at 1.
    - apply toLatin1_fromLatin1.
    - pose proof (toBase64_chars (xorLoop key1 0 data)) as H.
      rewrite forallb_forall in *. intros c Hc.
      specialize (H c Hc). apply andb_true_iff in H as [H _]. exact H. }
  rewrite Hlat, fromBase64_toBase64 in Heq.
  apply isEmpty_false in Hk2. rewrite Hk2 in Heq. cbn [orb] in Heq.
  destruct (Qt.isEmpty (xorLoop key1 0 data)) eqn:E.
  - apply isEmpty_true, xorLoop_nil in E. congruence.
  - (* the decoder has changed nothing, the length being the same *)
    assert (Hsame : fromUtf8 (xorLoop key2 0 (xorLoop key1 0 data))
                    = xorLoop key2 0 (xorLoop key1 0 data)).
    { apply fromUtf8_same_length. rewrite Heq, !xorLoop_length.
      reflexivity. }
    rewrite Hsame in Heq. clear Hsame.
    destruct (differ_at key1 key2 Hlen Hne) as [n [Hn Hd]].
    apply Hd.
    assert (Hnth : nth n (xorLoop key2 0 (xorLoop key1 0 data)) zero
                   = nth n data zero) by (rewrite Heq; reflexivity).
    rewrite xorLoop_nth in Hnth by (rewrite xorLoop_length; lia).
    rewrite xorLoop_nth in Hnth by lia.
    cbn [Nat.add] in Hnth.
    rewrite <- Hlen in Hnth. rewrite Nat.mod_small in Hnth by exact Hn.
    apply xor_char_cancel in Hnth. exact Hnth.
Qed.

End CodecMore.

(* ===================================================================== *)
(** ** Further properties: the record and its JSON text *)
(* ===================================================================== *)

Section RecordMore.
Context {formats : TextFormats}.

(** The JSON text of a record is the text of the document: the library
    writes UTF-8, which [fromUtf8] takes over as it is. *)
Lemma toJsonString_objectOf (d : LicenseData.t) :
  LicenseData.toJsonString d = toJson (objectOf d).
Proof.
  change (LicenseData.toJsonString d) with (fromUtf8 (toJson (objectOf d))).
  apply isUtf8Text_true, toJson_utf8.
Qed.

Lemma toJsonString_utf8 (d : LicenseData.t) :
  fromUtf8 (toUtf8 (LicenseData.toJsonString d)) = LicenseData.toJsonString d.
Proof.
  rewrite toJsonString_objectOf. apply isUtf8Text_true, toJson_utf8.
Qed.

(** X7.  The record survives its JSON text whenever the library gives
    the object back (the same value under every key) and the two dates
    survive their text: [fromJsonString (toJsonString d) = d]. *)
Theorem record_round_trip (d : LicenseData.t) (obj' : QJsonObject) :
  fromJson (toJson (objectOf d)) = JObject obj' ->
  (forall key, value obj' key = value (objectOf d) key) ->
  dateFromString (dateToString (LicenseData.issued d))
  = LicenseData.issued d ->
  dateFromString (dateToString (LicenseData.expires d))
  = LicenseData.expires d ->
  LicenseData.fromJsonString (LicenseData.toJsonString d) = d.
Proof.
  intros Hjson Hsame Hissued Hexpires.
  unfold LicenseData.fromJsonString.
  rewrite toJsonString_objectOf. unfold toUtf8.
  rewrite Hjson, !Hsame.
  destruct d as [e m u i x]. cbn in Hissued, Hexpires |- *.
  rewrite Hissued, Hexpires. reflexivity.
Qed.

(** X8.  Reading a record from text gives a non-empty record only if the
    text parses as a JSON object whose [email] member is a non-empty
    string; any other document, an object without the member, or a member
    of another kind gives an empty record. *)
Theorem fromJsonString_not_empty (json : QString) :
  LicenseData.isEmpty (LicenseData.fromJsonString json) = false <->
  exists obj e,
    fromJson (toUtf8 json) = JObject obj /\
    value obj (Q "email") = JString e /\ e <> [].
Proof.
  unfold LicenseData.fromJsonString, LicenseData.isEmpty. split.
  - destruct (fromJson (toUtf8 json)) as [| | | | | |obj];
      try discriminate.
    cbn [LicenseData.email]. intros H. apply isEmpty_false in H.
    destruct (value obj (Q "email")) as [| | | |e| |] eqn:Ev;
      cbn [toString] in H; try congruence.
    exists obj, e. repeat split; assumption.
  - intros [obj [e [-> [Hv He]]]]. cbn [LicenseData.email].
    rewrite Hv. cbn [toString]. apply isEmpty_false, He.
Qed.

(** X9.  A license the validator accepts also passes [isValid] at the
    same time, provided its issue date is a valid date, the one thing
    [isValid] tests that the validator does not. *)
Theorem valid_license_isValid (w : World) :
  hasValidLicense w = true ->
  dt_isValid (LicenseData.issued (loadLicense w)) = true ->
  LicenseData.isValid (getCurrentDateTimeSafe w) (loadLicense w) = true.
Proof.
  unfold hasValidLicense, LicenseData.isValid, LicenseData.isEmpty.
  destruct (Qt.isEmpty (LicenseData.email (loadLicense w)));
    [discriminate|].
  destruct (systemHasMacAddress w (LicenseData.mac (loadLicense w)))
    eqn:E2; cbn [negb]; [|discriminate].
  destruct (Qt.isEmpty (loadUuidFromConfig w)) eqn:E3;
    cbn [orb]; [discriminate|].
  destruct (qeqb (loadUuidFromConfig w) (LicenseData.uuid (loadLicense w)))
    eqn:E4; cbn [negb]; [|discriminate].
  destruct (isLicenseExpired w (LicenseData.expires (loadLicense w)))
    eqn:E5; [discriminate|].
  intros _ Hissued.
  apply systemHasMacAddress_true in E2 as [Hmac _].
  apply isEmpty_false in Hmac. rewrite Hmac.
  apply qeqb_eq in E4. rewrite <- E4, E3. cbn [orb].
  rewrite Hissued. cbn [negb orb].
  apply isLicenseExpired_false in E5 as [ms [He Hlt]].
  rewrite He. cbn [dt_isValid negb].
  unfold dt_gt, dt_lt, getCurrentDateTimeSafe. apply Z.ltb_lt, Hlt.
Qed.

End RecordMore.

(* ===================================================================== *)
(** ** Further properties: the anchor file *)
(* ===================================================================== *)

Section AnchorMore.

Lemma firstMatch_head (s captured rest : QString) :
  matchHere s = Some (captured, rest) -> firstMatch s = Some captured.
Proof.
  destruct s as [|c t]; [discriminate|].
  intros H. cbn [firstMatch]. rewrite H. reflexivity.
Qed.

Lemma matchHere_uuidComment (u r : QString) :
  isUuidText u = true ->
  matchHere (uuidComment u ++ r) = Some (u, newline :: r).
Proof.
  intros Hu. apply isUuidText_true in Hu as [c [u' [-> [Hc Hall]]]].
  rewrite uuidComment_shape.
  replace ((marker ++ (c :: u') ++ [newline]) ++ r)
    with (marker ++ c :: (u' ++ newline :: r)) by list_eq.
  rewrite (matchHere_marker c _ Hc).
  destruct (takeWhile_app_stop isUuidChar u' newline r Hall
              isUuidChar_newline) as [-> ->].
  reflexivity.
Qed.

Lemma firstMatch_anchorAfterWrite (content u : QString) :
  isUuidText u = true -> firstMatch (anchorAfterWrite content u) = Some u.
Proof.
  intros Hu. destruct (anchorAfterWrite_head content u) as [rest ->].
  apply (firstMatch_head _ _ (newline :: rest)).
  apply matchHere_uuidComment, Hu.
Qed.

Lemma loadUuidFromConfig_written (w w' : World) (u : QString) :
  saveUuidToConfig w u = (true, w') -> isUuidText u = true ->
  loadUuidFromConfig w'
  = if containsChar u "-"%char && (List.length u =? 36)%nat
    then u else [].
Proof.
  intros Hsave Hu. pose proof (isUuidText_forallb u Hu) as Hall.
  destruct (saveUuidToConfig_read_back w w' u Hsave Hall)
    as [Hfile [Hcontent Hread]].
  rewrite (loadUuidFromConfig_text w' _ Hfile Hread).
  fold (anchorContent w') in Hfile.
  assert (Hback : fromUtf8 (readText (anchorContent w')) = anchorContent w').
  { destruct (anchorContent_text w) as [Ht Hn].
    rewrite Hcontent.
    apply (anchorAfterWrite_text (anchorContent w) u Ht Hn Hall). }
  rewrite Hback, Hcontent, (firstMatch_anchorAfterWrite _ u Hu).
  rewrite (trimmed_uuid u Hall). reflexivity.
Qed.

(** X10.  After a successful anchor write with an id of the generated
    shape, the anchor read returns that id if it has a dash and 36
    characters; an id of another length is written all the same but read
    back as absent. *)
Theorem anchor_write_then_read (w w' : World) (u : QString) :
  saveUuidToConfig w u = (true, w') -> isUuidText u = true ->
  firstMatch (anchorContent w') = Some u /\
  loadUuidFromConfig w'
  = if containsChar u "-"%char && (List.length u =? 36)%nat
    then u else [].
Proof.
  intros Hsave Hu. split.
  - destruct (saveUuidToConfig_read_back w w' u Hsave
                (isUuidText_forallb u Hu)) as [_ [-> _]].
    apply firstMatch_anchorAfterWrite, Hu.
  - exact (loadUuidFromConfig_written w w' u Hsave Hu).
Qed.

Lemma saveUuidToConfig_false_existing (w w' : World) (u content : QString) :
  cmake_file w = Some content ->
  saveUuidToConfig w u = (false, w') -> w' = w.
Proof.
  intros Hfile. unfold saveUuidToConfig.
  destruct (Qt.isEmpty u); [congruence|].
  rewrite Hfile. cbn [negb].
  destruct (negb (cmake_can_read w && cmake_can_write w));
    [congruence | discriminate].
Qed.

(** X11.  An anchor write that fails has not altered an existing anchor
    file, nor anything else on the machine; when there was no anchor file
    the most a failed write leaves behind is the directory and an empty
    file.  The blob file is never touched. *)
Theorem failed_anchor_write (w w' : World) (u : QString) :
  saveUuidToConfig w u = (false, w') ->
  license_file w' = license_file w /\
  (cmake_file w <> None \/ u = [] -> w' = w) /\
  (cmake_file w' = cmake_file w \/
   cmake_file w = None /\ cmake_file w' = Some []).
Proof.
  intros Hsave. destruct (cmake_file w) as [content|] eqn:Hfile.
  - rewrite (saveUuidToConfig_false_existing w w' u content Hfile Hsave).
    rewrite Hfile. repeat split; auto.
  - unfold saveUuidToConfig in Hsave.
    destruct (Qt.isEmpty u) eqn:Hu.
    + injection Hsave as <-. rewrite Hfile. repeat split; auto.
    + apply isEmpty_false in Hu. rewrite Hfile in Hsave.
      destruct (test_dir_exists w), (test_dir_can_create w),
        (cmake_can_write w) eqn:Hw, (cmake_can_read w) eqn:Hr;
        repeat (progress (cbn in Hsave; rewrite ?Hw, ?Hr in Hsave));
        try discriminate; injection Hsave as <-; cbn;
        rewrite ?Hfile; repeat split; auto;
        intros [H|H]; congruence.
Qed.

(** X12.  Writing a new id into a file whose text, as the program reads
    it, begins with a marker line and has no other match replaces that
    line: the file becomes the new marker line followed by the former
    rest, without the white space the rest began with, and that is the
    text the program reads from it afterwards. *)
Theorem rewrite_replaces_marker (w : World) (u u' rest : QString)
        (content : QByteArray) :
  isUuidText u = true -> isUuidText u' = true ->
  cmake_file w = Some content ->
  fromUtf8 (readText content) = uuidComment u ++ rest ->
  firstMatch rest = None ->
  cmake_can_read w = true -> cmake_can_write w = true ->
  let newContent := uuidComment u' ++ dropWhile isSpace rest in
  saveUuidToConfig w u'
  = (true, set_cmake_file w newContent (WroteCMakeLists newContent))
  /\ fromUtf8 (readText newContent) = newContent.
Proof.
  intros Hu Hu' Hfile Htext Hnone Hr Hw. cbv zeta.
  assert (Hne : u' <> []).
  { apply isUuidText_true in Hu' as [c [t [-> _]]]. discriminate. }
  pose proof (firstMatch_None_dropWhile isSpace rest Hnone) as Hnone'.
  assert (Hnew : anchorAfterWrite (fromUtf8 (readText content)) u'
                 = uuidComment u' ++ dropWhile isSpace rest).
  { unfold anchorAfterWrite. rewrite Htext.
    rewrite (removeUuidPattern_marker_line u rest Hu).
    rewrite (removeUuidPattern_no_match _ Hnone').
    rewrite (no_match_no_marker_line _ u' Hu' Hnone'). reflexivity. }
  split.
  - rewrite (saveUuidToConfig_existing w u' content Hne Hfile Hr Hw).
    cbv zeta. rewrite Hnew. reflexivity.
  - rewrite <- Hnew.
    destruct (read_is_text content) as [Ht Hn].
    apply (anchorAfterWrite_text _ u' Ht Hn (isUuidText_forallb u' Hu')).
Qed.

Lemma Deleted_length (s r : QString) :
  Deleted s r -> (List.length r <= List.length s)%nat.
Proof.
  induction 1 as [|c s r _ IH|m s r _ _ IH]; cbn [List.length]; [lia|lia|].
  rewrite length_app. lia.
Qed.

Lemma removeUuidPattern_fixed (s : QString) :
  removeUuidPattern s = s -> firstMatch s = None.
Proof.
  induction s as [|c t IH]; [reflexivity|].
  rewrite removeUuidPattern_cons. cbn [firstMatch].
  destruct (matchHere (c :: t)) as [[captured rest]|] eqn:E.
  - intros H. exfalso.
    pose proof (matchHere_shorter _ _ _ E) as Hlt.
    pose proof (Deleted_length _ _
                  (removeUuidPattern_Deleted (dropWhile isSpace rest))) as Hle.
    rewrite H in Hle. lia.
  - intros H. injection H as H. apply IH, H.
Qed.

(** X22.  The anchor write only puts the new marker line in front of the
    text of the file, as the program reads it, leaving the whole of that
    text behind it, exactly when the text has no match of the marker
    pattern. *)
Theorem write_prepends_iff_no_marker (w : World) (u : QString)
        (content : QByteArray) :
  isUuidText u = true -> cmake_file w = Some content ->
  cmake_can_read w = true -> cmake_can_write w = true ->
  let text := fromUtf8 (readText content) in
  (cmake_file (snd (saveUuidToConfig w u)) = Some (uuidComment u ++ text)
   <-> firstMatch text = None).
Proof.
  intros Hu Hfile Hr Hw. cbv zeta.
  set (text := fromUtf8 (readText content)).
  assert (Hne : u <> []).
  { apply isUuidText_true in Hu as [c [t [-> _]]]. discriminate. }
  assert (Hsave : cmake_file (snd (saveUuidToConfig w u))
                  = Some (anchorAfterWrite text u)).
  { rewrite (saveUuidToConfig_existing w u content Hne Hfile Hr Hw).
    reflexivity. }
  rewrite Hsave. unfold anchorAfterWrite. split.
  - destruct (startsWith (removeUuidPattern text) (uuidComment u)) eqn:E;
      cbn [negb]; intros H;
      apply (f_equal (fun o : option QString =>
                        match o with Some x => x | None => [] end)) in H;
      cbv beta iota in H.
    + exfalso.
      pose proof (Deleted_length _ _ (removeUuidPattern_Deleted text))
        as Hle.
      rewrite H, length_app, uuidComment_shape, length_app in Hle.
      change (List.length marker) with 16%nat in Hle. lia.
    + apply app_inv_head in H. apply removeUuidPattern_fixed, H.
  - intros Hnone. rewrite (removeUuidPattern_no_match text Hnone).
    rewrite (no_match_no_marker_line text u Hu Hnone). reflexivity.
Qed.

End AnchorMore.

(* ===================================================================== *)
(** ** Further properties: saving, loading and activating *)
(* ===================================================================== *)

Section LicenseMore.
Context {formats : TextFormats} {zone : TimeZone}.

Lemma getFirstMacAddress_interfaces (w1 w2 : World) :
  interfaces w1 = interfaces w2 ->
  getFirstMacAddress w1 = getFirstMacAddress w2.
Proof. unfold getFirstMacAddress. intros ->. reflexivity. Qed.

Lemma systemHasMacAddress_interfaces (w1 w2 : World) (m : QString) :
  interfaces w1 = interfaces w2 ->
  systemHasMacAddress w1 m = systemHasMacAddress w2 m.
Proof. unfold systemHasMacAddress. intros ->. reflexivity. Qed.

Lemma blobOf_nil (d : LicenseData.t) :
  blobOf d = [] <-> LicenseData.toJsonString d = [].
Proof.
  unfold blobOf, xorEncrypt, toUtf8.
  pose proof (generateKeyFromMac_not_empty (LicenseData.mac d)) as Hk.
  apply isEmpty_false in Hk. rewrite Hk.
  rewrite fromLatin1_nil, toBase64_nil, xorLoop_nil. reflexivity.
Qed.

(** Loading a blob on a machine whose hardware id is the one of the
    record. *)
Lemma loadLicense_blobOf (w : World) (d : LicenseData.t) :
  license_file w = Some (blobOf d) -> license_can_read w = true ->
  blobOf d <> [] -> LicenseData.mac d <> [] ->
  getFirstMacAddress w = LicenseData.mac d ->
  loadLicense w = LicenseData.fromJsonString (LicenseData.toJsonString d).
Proof.
  intros Hfile Hread Hblob Hmac Hfirst.
  unfold loadLicense, read_license. rewrite Hread, Hfile.
  cbn [option_map].
  assert (Hback : fromUtf8 (readText (blobOf d)) = blobOf d)
    by apply xorEncrypt_read.
  rewrite Hback.
  apply isEmpty_false in Hblob. rewrite Hblob, Hfirst.
  apply isEmpty_false in Hmac. rewrite Hmac.
  unfold blobOf.
  rewrite (xorDecrypt_xorEncrypt _ _
             (generateKeyFromMac_not_empty (LicenseData.mac d))).
  rewrite toJsonString_utf8.
  apply isEmpty_false in Hblob. fold (blobOf d) in Hblob.
  destruct (Qt.isEmpty (LicenseData.toJsonString d)) eqn:E; [|reflexivity].
  apply isEmpty_true in E. apply blobOf_nil in E. congruence.
Qed.

(** What a successful [saveLicense] leaves on the machine. *)
Lemma saveLicense_world (w w' : World) (d : LicenseData.t) :
  saveLicense w d = (true, w') ->
  LicenseData.email d <> [] /\ blobOf d <> [] /\
  license_file w' = Some (blobOf d) /\
  license_can_read w' = license_can_read w /\
  interfaces w' = interfaces w /\
  currentDateTime w' = currentDateTime w /\
  cmake_can_read w' = true /\
  cmake_file w'
  = Some (anchorAfterWrite (anchorContent w) (LicenseData.uuid d)).
Proof.
  intros Hsave.
  assert (He : LicenseData.email d <> []).
  { unfold saveLicense, LicenseData.isEmpty in Hsave.
    destruct (Qt.isEmpty (LicenseData.email d)) eqn:E; [discriminate|].
    apply isEmpty_false, E. }
  apply saveLicense_true in Hsave as [_ [Hblob Hsave]].
  apply saveUuidToConfig_true in Hsave
    as [_ [Hf [Hl [Hi [Hc [Hlr [_ [Hr _]]]]]]]].
  repeat split; assumption.
Qed.

(** X13.  A license that [saveLicense] has saved is the license that
    [loadLicense] loads, up to what the JSON text keeps of it: when the
    blob file can be read and the hardware id of the record is the first
    hardware id of the machine, loading gives
    [fromJsonString (toJsonString d)]. *)
Theorem saved_license_loads (w w' : World) (d : LicenseData.t) :
  saveLicense w d = (true, w') ->
  license_can_read w = true -> LicenseData.mac d <> [] ->
  getFirstMacAddress w = LicenseData.mac d ->
  license_file w' = Some (blobOf d) /\
  loadLicense w'
  = LicenseData.fromJsonString (LicenseData.toJsonString d).
Proof.
  intros Hsave Hread Hmac Hfirst.
  apply saveLicense_world in Hsave
    as [_ [Hblob [Hfile [Hlr [Hi _]]]]].
  split; [exact Hfile|].
  apply loadLicense_blobOf; try assumption.
  - rewrite Hlr. exact Hread.
  - rewrite (getFirstMacAddress_interfaces w' w Hi). exact Hfirst.
Qed.

Lemma activateNewLicense_blank (w : World) (generated email : QString) :
  forallb isSpace email = true ->
  activateNewLicense w generated email = (false, w).
Proof.
  intros H. unfold activateNewLicense.
  destruct (Qt.isEmpty (getFirstMacAddress w)); [reflexivity|].
  destruct (Qt.isEmpty generated); [reflexivity|].
  unfold saveLicense, LicenseData.isEmpty. cbn [LicenseData.email].
  rewrite (trimmed_spaces email H). reflexivity.
Qed.

(** X14.  The activation refuses, and writes nothing, when the machine
    has no hardware id, when no id was generated, and when the e-mail
    address consists of white space only. *)
Theorem activation_refused (w : World) (generated email : QString) :
  getFirstMacAddress w = [] \/ generated = []
  \/ forallb isSpace email = true ->
  activateNewLicense w generated email = (false, w).
Proof.
  intros [H | [H | H]].
  - unfold activateNewLicense. rewrite H. reflexivity.
  - unfold activateNewLicense. rewrite H.
    destruct (Qt.isEmpty (getFirstMacAddress w)); reflexivity.
  - apply activateNewLicense_blank, H.
Qed.

(** X15.  There is no rollback.  When the blob file can be written but
    the existing anchor file cannot be opened for reading and writing,
    the activation returns false and yet the blob file holds the new
    record; if the activation id is read back from the blob and differs
    from the anchor value, no valid license is left. *)
Theorem failed_activation_keeps_new_blob (w : World)
        (generated email content : QString) :
  getFirstMacAddress w <> [] -> generated <> [] ->
  trimmed email <> [] ->
  LicenseData.toJsonString (issuedRecord w generated email) <> [] ->
  license_can_write w = true ->
  cmake_file w = Some content ->
  cmake_can_read w && cmake_can_write w = false ->
  let d := issuedRecord w generated email in
  let w' := set_license_file w (blobOf d) in
  activateNewLicense w generated email = (false, w') /\
  (LicenseData.uuid
     (LicenseData.fromJsonString (LicenseData.toJsonString d)) = generated ->
   loadUuidFromConfig w <> generated ->
   hasValidLicense w' = false).
Proof.
  intros Hmac Hgen Hemail Hjson Hwrite Hfile Hrw. cbv zeta.
  set (d := issuedRecord w generated email).
  assert (Hblob : blobOf d <> []).
  { intros H. apply blobOf_nil in H. exact (Hjson H). }
  split.
  - unfold activateNewLicense.
    apply isEmpty_false in Hmac, Hgen. rewrite Hmac, Hgen.
    fold (issuedRecord w generated email). fold d.
    unfold saveLicense, LicenseData.isEmpty. fold (blobOf d).
    cbn [LicenseData.email d issuedRecord].
    apply isEmpty_false in Hemail. rewrite Hemail.
    apply isEmpty_false in Hblob. rewrite Hblob, Hwrite. cbn [negb].
    unfold saveUuidToConfig. cbn [LicenseData.uuid d issuedRecord].
    rewrite Hgen. cbn [cmake_file set_license_file]. rewrite Hfile.
    cbn [negb cmake_can_read cmake_can_write set_license_file].
    rewrite Hrw. reflexivity.
  - intros Hback Hanchor.
    destruct (hasValidLicense (set_license_file w (blobOf d))) eqn:Hv;
      [|reflexivity].
    exfalso. unfold hasValidLicense in Hv.
    destruct (LicenseData.isEmpty _) eqn:E1; [discriminate|].
    destruct (negb (systemHasMacAddress _ _)); [discriminate|].
    destruct (Qt.isEmpty (loadUuidFromConfig _)); cbn [orb] in Hv;
      [discriminate|].
    destruct (qeqb _ _) eqn:E4; cbn [negb] in Hv; [|discriminate].
    apply qeqb_eq in E4.
    change (loadUuidFromConfig (set_license_file w (blobOf d)))
      with (loadUuidFromConfig w) in E4.
    destruct (license_can_read w) eqn:Hread.
    + rewrite (loadLicense_blobOf (set_license_file w (blobOf d)) d
                 eq_refl Hread Hblob Hmac eq_refl) in E4.
      congruence.
    + unfold loadLicense, read_license in E1.
      cbn [license_can_read set_license_file] in E1.
      rewrite Hread in E1. discriminate.
Qed.

(** X23.  The validator fails closed on absence: without a blob file,
    with a blob file that cannot be read or is empty, without an anchor
    file or with an anchor file that cannot be read, there is no valid
    license, whatever the other artifact holds. *)
Theorem no_files_no_license (w : World) :
  license_file w = None \/ license_can_read w = false
  \/ license_file w = Some [] \/ cmake_file w = None
  \/ cmake_can_read w = false ->
  hasValidLicense w = false.
Proof.
  intros H.
  assert (Hcases : loadLicense w = LicenseData.default
                   \/ loadUuidFromConfig w = []).
  { unfold loadLicense, loadUuidFromConfig, read_license, read_cmake.
    destruct H as [H|[H|[H|[H|H]]]]; rewrite H.
    - left. destruct (license_can_read w); reflexivity.
    - left. reflexivity.
    - left. destruct (license_can_read w); reflexivity.
    - right. reflexivity.
    - right. destruct (cmake_file w); reflexivity. }
  unfold hasValidLicense. destruct Hcases as [-> | ->]; [reflexivity|].
  destruct (LicenseData.isEmpty (loadLicense w)); [reflexivity|].
  destruct (negb (systemHasMacAddress w _)); reflexivity.
Qed.

(** The validator looks at the clock only for the expiry test. *)
Lemma hasValidLicense_atTime (w : World) (t : Z) :
  hasValidLicense (atTime w t)
  = negb (LicenseData.isEmpty (loadLicense w))
    && (systemHasMacAddress w (LicenseData.mac (loadLicense w))
        && ((negb (Qt.isEmpty (loadUuidFromConfig w))
             && qeqb (loadUuidFromConfig w)
                  (LicenseData.uuid (loadLicense w)))
            && negb (dt_le (LicenseData.expires (loadLicense w)) (Some t)))).
Proof.
  unfold hasValidLicense.
  change (loadLicense (atTime w t)) with (loadLicense w).
  change (loadUuidFromConfig (atTime w t)) with (loadUuidFromConfig w).
  change (systemHasMacAddress (atTime w t)) with (systemHasMacAddress w).
  change (isLicenseExpired (atTime w t)
            (LicenseData.expires (loadLicense w)))
    with (dt_le (LicenseData.expires (loadLicense w)) (Some t)).
  destruct (LicenseData.isEmpty (loadLicense w)); [reflexivity|].
  destruct (systemHasMacAddress w _); [|reflexivity].
  destruct (Qt.isEmpty (loadUuidFromConfig w)); [reflexivity|].
  destruct (qeqb (loadUuidFromConfig w) _); [|reflexivity].
  destruct (dt_le _ _); reflexivity.
Qed.

(** X16.  A license that is valid now has an expiry date later than now
    and is valid at exactly the times before that date, the files and
    interfaces being the same: it is still valid one millisecond before
    the date and no longer at the date itself. *)
Theorem validity_window (w : World) :
  hasValidLicense w = true ->
  exists expiry,
    LicenseData.expires (loadLicense w) = Some expiry /\
    (currentDateTime w < expiry)%Z /\
    forall t, hasValidLicense (atTime w t) = (t <? expiry)%Z.
Proof.
  intros Hv.
  assert (Hnow : hasValidLicense (atTime w (currentDateTime w)) = true).
  { rewrite <- Hv. unfold hasValidLicense. reflexivity. }
  rewrite hasValidLicense_atTime in Hnow.
  apply andb_true_iff in Hnow as [H1 Hnow].
  apply andb_true_iff in Hnow as [H2 Hnow].
  apply andb_true_iff in Hnow as [H3 H4].
  destruct (LicenseData.expires (loadLicense w)) as [expiry|] eqn:He;
    [|discriminate].
  exists expiry. split; [reflexivity|].
  unfold dt_le, dt_lt in H4. rewrite negb_involutive in H4.
  split; [apply Z.ltb_lt, H4|].
  intros t. rewrite hasValidLicense_atTime, H1, H2, H3, He.
  cbn [andb]. unfold dt_le, dt_lt. apply negb_involutive.
Qed.

Lemma activateNewLicense_true (w w' : World) (generated email : QString) :
  activateNewLicense w generated email = (true, w') ->
  getFirstMacAddress w <> [] /\ generated <> [] /\
  saveLicense w (issuedRecord w generated email) = (true, w').
Proof.
  intros H. split; [|split].
  - unfold activateNewLicense in H.
    destruct (Qt.isEmpty (getFirstMacAddress w)) eqn:E; [discriminate|].
    apply isEmpty_false, E.
  - unfold activateNewLicense in H.
    destruct (Qt.isEmpty (getFirstMacAddress w)); [discriminate|].
    destruct (Qt.isEmpty generated) eqn:E; [discriminate|].
    apply isEmpty_false, E.
  - apply activateNewLicense_saveLicense, H.
Qed.

Lemma isAnchorId_true (u : QString) :
  isAnchorId u = true ->
  isUuidText u = true /\
  containsChar u "-"%char && (List.length u =? 36)%nat = true.
Proof.
  unfold isAnchorId. rewrite !andb_true_iff. tauto.
Qed.

Lemma Some_eq (A : Type) (x y : A) : Some x = Some y -> x = y.
Proof. congruence. Qed.

(** The anchor that a successful [saveLicense] leaves is read back. *)
Lemma saveLicense_anchor (w w' : World) (d : LicenseData.t) :
  saveLicense w d = (true, w') -> isUuidText (LicenseData.uuid d) = true ->
  loadUuidFromConfig w'
  = if containsChar (LicenseData.uuid d) "-"%char
       && (List.length (LicenseData.uuid d) =? 36)%nat
    then LicenseData.uuid d else [].
Proof.
  intros Hsave Hu. apply saveLicense_true in Hsave as [_ [_ Hsave]].
  exact (loadUuidFromConfig_written _ w' _ Hsave Hu).
Qed.

(** The expiry date of a new license: the same time of day 30 days later
    on the local clock, which is within 32 hours of 30 times 24 hours
    later. *)
Lemma issuedRecord_expires (w : World) (generated email : QString) :
  let now := currentDateTime w in
  let local := (now + offsetFromUtc now + 30 * 86400000)%Z in
  let expiry := (local - offsetAtLocal local)%Z in
  LicenseData.expires (issuedRecord w generated email) = Some expiry /\
  (now + 30 * 86400000 - 32 * 3600000 <= expiry
   <= now + 30 * 86400000 + 32 * 3600000)%Z.
Proof.
  cbv zeta. split; [reflexivity|].
  pose proof (offsetFromUtc_range (currentDateTime w)) as H1.
  pose proof (offsetAtLocal_range
                (currentDateTime w + offsetFromUtc (currentDateTime w)
                 + 30 * 86400000)) as H2.
  unfold isUtcOffset in H1, H2. apply Z.leb_le in H1, H2. lia.
Qed.

(** The license on the machine after a successful activation. *)
Lemma activated_license (w w' : World) (generated email : QString) :
  activateNewLicense w generated email = (true, w') ->
  license_can_read w = true -> isAnchorId generated = true ->
  let d := issuedRecord w generated email in
  let d' := LicenseData.fromJsonString (LicenseData.toJsonString d) in
  forall t,
    hasValidLicense (atTime w' t)
    = negb (Qt.isEmpty (LicenseData.email d'))
      && (systemHasMacAddress w (LicenseData.mac d')
          && (qeqb generated (LicenseData.uuid d')
              && negb (dt_le (LicenseData.expires d') (Some t)))).
Proof.
  intros Hact Hread Hid. cbv zeta. intros t.
  apply activateNewLicense_true in Hact as [Hmac [Hgen Hsave]].
  pose proof (saveLicense_world _ _ _ Hsave)
    as [_ [Hblob [Hfile [Hlr [Hi [_ [Hcr Hcf]]]]]]].
  apply isAnchorId_true in Hid as [Hu Hshape].
  rewrite hasValidLicense_atTime.
  rewrite (loadLicense_blobOf w' (issuedRecord w generated email));
    try assumption; try reflexivity.
  - rewrite (saveLicense_anchor w w' _ Hsave Hu).
    cbn [LicenseData.uuid issuedRecord]. rewrite Hshape.
    rewrite (systemHasMacAddress_interfaces w' w _ Hi).
    unfold LicenseData.isEmpty.
    apply isEmpty_false in Hgen. rewrite Hgen. reflexivity.
  - rewrite Hlr. exact Hread.
  - rewrite (getFirstMacAddress_interfaces w' w Hi). reflexivity.
Qed.

(** X17.  After a successful activation the machine holds a valid
    license until the license expires: if the blob file can be read, the
    generated id has the shape the anchor read accepts and the text
    formats give the record back (the expiry date to the second), then
    the validator returns true until one second before the expiry date
    and false from the expiry date on.  The expiry date is the same time
    of day 30 days later on the local clock: 30 times 24 hours after the
    activation when local time has the same offset from UTC on both days,
    and earlier or later by the difference of the offsets otherwise,
    which is within 32 hours in any zone. *)
Theorem activation_gives_valid_license (w w' : World)
        (generated email : QString) :
  activateNewLicense w generated email = (true, w') ->
  license_can_read w = true -> isAnchorId generated = true ->
  readsBack (issuedRecord w generated email) ->
  let now := currentDateTime w in
  let local := (now + offsetFromUtc now + 30 * 86400000)%Z in
  let expiry := (local - offsetAtLocal local)%Z in
  LicenseData.expires (issuedRecord w generated email) = Some expiry /\
  (offsetAtLocal local = offsetFromUtc now ->
   expiry = now + 30 * 86400000)%Z /\
  (now + 30 * 86400000 - 32 * 3600000 <= expiry
   <= now + 30 * 86400000 + 32 * 3600000)%Z /\
  forall t,
    ((t <= expiry - 1000)%Z -> hasValidLicense (atTime w' t) = true) /\
    ((expiry <= t)%Z -> hasValidLicense (atTime w' t) = false).
Proof.
  intros Hact Hread Hid Hback.
  destruct (issuedRecord_expires w generated email) as [Hexp Hbound].
  cbv zeta in Hexp, Hbound |- *.
  split; [exact Hexp|]. split; [lia|]. split; [exact Hbound|].
  intros t.
  rewrite (activated_license w w' generated email Hact Hread Hid t).
  apply activateNewLicense_true in Hact as [Hmac [Hgen Hsave]].
  pose proof (saveLicense_world _ _ _ Hsave) as [Hemail _].
  destruct Hback as [He [Hm [Hu [ms [ms' [Hx [Hx' Hclose]]]]]]].
  rewrite He, Hm, Hu, Hx'.
  apply isEmpty_false in Hemail. rewrite Hemail.
  cbn [LicenseData.mac issuedRecord].
  rewrite (first_mac_address_accepted w Hmac), qeqb_refl.
  cbn [negb andb]. unfold dt_le, dt_lt. rewrite negb_involutive.
  rewrite Hexp in Hx. apply Some_eq in Hx. subst ms.
  split; intros Ht; [apply Z.ltb_lt | apply Z.ltb_ge]; lia.
Qed.

End LicenseMore.

(* ===================================================================== *)
(** ** Further properties: the paywall dialogs *)
(* ===================================================================== *)

Section DialogMore.
Context {formats : TextFormats} {zone : TimeZone}.

Lemma showActivationDialog_cases (w : World) (generated : QString)
      (answer : Prompt) :
  showActivationDialog w generated answer
  = if accepted answer && negb (Qt.isEmpty (typed answer)) then
      let '(activated, w') :=
        activateNewLicense w generated (typed answer) in
      if activated
      then ([InformationShown; StartDetached; QuitRequested], w')
      else ([WarningShown; PaywallScheduled 500], w')
    else ([PaywallScheduled 500], w).
Proof.
  unfold showActivationDialog, askForEmail.
  destruct (accepted answer && negb (Qt.isEmpty (typed answer)));
    reflexivity.
Qed.

(** Every round quits or schedules the paywall again. *)
Lemma paywall_round_events (w : World) (generated : QString)
      (choice : Choice) :
  xorb (existsb isQuit (fst (showPaywall w generated choice)))
       (existsb isScheduled (fst (showPaywall w generated choice))) = true.
Proof.
  destruct choice as [answer| |]; cbn [showPaywall]; try reflexivity.
  rewrite showActivationDialog_cases.
  destruct (accepted answer && negb (Qt.isEmpty (typed answer)));
    [|reflexivity].
  destruct (activateNewLicense w generated (typed answer)) as [[|] w'];
    reflexivity.
Qed.

Lemma restart_after_activation (w w' : World) (generated : QString)
      (answer : Prompt) (events : list UiEvent) :
  showActivationDialog w generated answer = (events, w') ->
  existsb isRestart events = true ->
  activateNewLicense w generated (typed answer) = (true, w').
Proof.
  rewrite showActivationDialog_cases. intros Hshow Hrestart.
  destruct (accepted answer && negb (Qt.isEmpty (typed answer))).
  - destruct (activateNewLicense w generated (typed answer))
      as [[|] w0]; injection Hshow as <- <-;
      [reflexivity | discriminate Hrestart].
  - injection Hshow as <- <-. discriminate Hrestart.
Qed.

(** X18.  Whatever the user does at the paywall, the round ends in one of
    two ways and never in both: the application is asked to quit, or the
    paywall is scheduled again, half a second later.  No way out of the
    dialog leaves the application running without the paywall. *)
Theorem paywall_quits_or_returns (w : World) (generated : QString)
        (choice : Choice) :
  let events := fst (showPaywall w generated choice) in
  xorb (existsb isQuit events) (existsb isScheduled events) = true /\
  (forall msec, In (PaywallScheduled msec) events -> msec = 500%Z).
Proof.
  cbv zeta. destruct choice as [answer| |]; cbn [showPaywall].
  - rewrite showActivationDialog_cases.
    destruct (accepted answer && negb (Qt.isEmpty (typed answer))).
    + destruct (activateNewLicense w generated (typed answer))
        as [[|] w']; cbn; split; try reflexivity;
        intros msec H; repeat (destruct H as [H|H]; try discriminate H;
                               try (injection H as <-; reflexivity));
        contradiction.
    + cbn. split; [reflexivity|].
      intros msec [H|[]]. injection H as <-. reflexivity.
  - cbn. split; [reflexivity|]. intros msec [H|[H|[]]]; discriminate H.
  - cbn. split; [reflexivity|]. intros msec [H|[]]; discriminate H.
Qed.

(** X19.  Nothing is written unless an e-mail address was entered: with
    the exit button, a closed dialog, a cancelled prompt or an empty
    answer the machine is unchanged; and an answer of white space only,
    which the prompt accepts, fails in the activation, with the warning
    shown, the paywall scheduled again and the machine unchanged. *)
Theorem paywall_without_email (w : World) (generated : QString)
        (choice : Choice) :
  (forall answer,
      choice = ActivateClicked answer ->
      accepted answer = false \/ forallb isSpace (typed answer) = true) ->
  snd (showPaywall w generated choice) = w /\
  existsb isRestart (fst (showPaywall w generated choice)) = false /\
  (forall answer,
      choice = ActivateClicked answer -> accepted answer = true ->
      typed answer <> [] ->
      fst (showPaywall w generated choice)
      = [WarningShown; PaywallScheduled 500]).
Proof.
  intros H. destruct choice as [answer| |]; cbn [showPaywall].
  - rewrite showActivationDialog_cases.
    destruct (H answer eq_refl) as [Hno | Hblank].
    + rewrite Hno. cbn. repeat split; try reflexivity.
      intros a Ha Hacc. injection Ha as <-. congruence.
    + rewrite (activateNewLicense_blank w generated (typed answer) Hblank).
      destruct (accepted answer && negb (Qt.isEmpty (typed answer))) eqn:E;
        cbn; repeat split; try reflexivity.
      intros a Ha Hacc Hne. injection Ha as <-.
      apply isEmpty_false in Hne. rewrite Hacc, Hne in E. discriminate E.
  - cbn. repeat split; try reflexivity. intros a Ha. discriminate Ha.
  - cbn. repeat split; try reflexivity. intros a Ha. discriminate Ha.
Qed.

(** X20.  The dialog restarts the application only after an activation
    that succeeded; and then, if the blob file can be read, the generated
    id has the shape the anchor read accepts and the text formats give
    the record back, the new process finds a valid license and shows no
    paywall. *)
Theorem restart_finds_valid_license (w w' : World) (generated : QString)
        (answer : Prompt) (events : list UiEvent) :
  showActivationDialog w generated answer = (events, w') ->
  existsb isRestart events = true ->
  activateNewLicense w generated (typed answer) = (true, w') /\
  (license_can_read w = true -> isAnchorId generated = true ->
   readsBack (issuedRecord w generated (typed answer)) ->
   hasValidLicense w' = true /\ paywallEntryPoint w' = []).
Proof.
  intros Hshow Hrestart.
  pose proof (restart_after_activation w w' generated answer events
                Hshow Hrestart) as Hact.
  split; [exact Hact|]. intros Hread Hid Hback.
  assert (Hvalid : hasValidLicense w' = true).
  { pose proof (activated_license w w' generated (typed answer)
                  Hact Hread Hid (currentDateTime w')) as Hat.
    cbv zeta in Hat.
    assert (Hsame : hasValidLicense (atTime w' (currentDateTime w'))
                    = hasValidLicense w') by reflexivity.
    rewrite Hsame in Hat. rewrite Hat. clear Hat Hsame.
    apply activateNewLicense_true in Hact as [Hmac [Hgen Hsave]].
    pose proof (saveLicense_world _ _ _ Hsave)
      as [Hemail [_ [_ [_ [_ [Hclock _]]]]]].
    destruct Hback as [He [Hm [Hu [ms [ms' [Hx [Hx' Hclose]]]]]]].
    rewrite He, Hm, Hu, Hx'.
    apply isEmpty_false in Hemail. rewrite Hemail.
    cbn [LicenseData.mac issuedRecord].
    rewrite (first_mac_address_accepted w Hmac), qeqb_refl.
    cbn [negb andb]. unfold dt_le, dt_lt. rewrite negb_involutive.
    destruct (issuedRecord_expires w generated (typed answer))
      as [Hexp Hbound].
    cbv zeta in Hexp, Hbound.
    rewrite Hexp in Hx. apply Some_eq in Hx. subst ms.
    rewrite Hclock. apply Z.ltb_lt. lia. }
  split; [exact Hvalid|].
  unfold paywallEntryPoint. rewrite Hvalid. reflexivity.
Qed.

(** X21.  However long the user goes on, a session at the paywall never
    ends with the paywall gone and the application running on: it ends
    with the application quitting, or restarting, or the paywall still
    up.  A session that ends with a restart has had an activation that
    succeeded, with an e-mail address and an id of one of its rounds, and
    the machine is as that activation left it. *)
Theorem paywall_session_holds (w : World) (rounds : list (Choice * QString)) :
  fst (paywallSession w rounds) <> Dismissed /\
  (fst (paywallSession w rounds) = Restarted ->
   exists w0 generated answer,
     In (ActivateClicked answer, generated) rounds /\
     activateNewLicense w0 generated (typed answer)
     = (true, snd (paywallSession w rounds))).
Proof.
  revert w; induction rounds as [|[choice generated] rest IH]; intros w.
  - cbn. split; [discriminate | discriminate].
  - cbn [paywallSession].
    pose proof (paywall_round_events w generated choice) as Hround.
    destruct (showPaywall w generated choice) as [events w'] eqn:Hshow.
    cbn [fst] in Hround.
    destruct (existsb isQuit events) eqn:Hq.
    + destruct (existsb isRestart events) eqn:Hr; cbn [fst snd].
      * split; [discriminate|]. intros _.
        destruct choice as [answer| |]; cbn [showPaywall] in Hshow;
          try (injection Hshow as <- <-; discriminate Hr).
        pose proof (restart_after_activation w w' generated answer events
                      Hshow Hr) as Hact.
        exists w, generated, answer. split; [left; reflexivity | exact Hact].
      * split; discriminate.
    + cbn [xorb] in Hround. rewrite Hround.
      destruct (IH w') as [Hnot Hrestart]. split; [exact Hnot|].
      intros H. destruct (Hrestart H) as [w0 [g [a [Hin Hact]]]].
      exists w0, g, a. split; [right; exact Hin | exact Hact].
Qed.

End DialogMore.

(* ===================================================================== *)
(** ** The further properties on the sample machine *)
(* ===================================================================== *)

Section FurtherOnTheSampleMachine.
Import Sample.

Lemma first_mac_passes_check_witness :
  let w2 := withInterfaces machine [eth0; tun0; lo] in
  getFirstMacAddress machine = Q "AA:BB:CC:DD:EE:FF" /\
  systemHasMacAddress w2 (getFirstMacAddress machine) = true.
Proof.
  cbv zeta. split; [reflexivity|].
  refine (proj2 (first_mac_passes_check machine
                   (withInterfaces machine [eth0; tun0; lo]) _ _)).
  - discriminate.
  - intros i [<-|[<-|[<-|[]]]]; cbn; auto.
Defined.

Lemma xorEncrypt_is_base64_witness :
  let data := LicenseData.toJsonString issuedOnMachine in
  isBase64Text (xorEncrypt data (Q "k")) = true /\
  List.length (xorEncrypt data (Q "k"))
  = (4 * ((List.length data + 2) / 3))%nat.
Proof.
  cbv zeta.
  apply (xorEncrypt_is_base64
           (LicenseData.toJsonString issuedOnMachine) (Q "k")).
  discriminate.
Defined.

Lemma xorDecrypt_ignores_other_characters_witness :
  let text := Q "  Ki" ++ [carriageReturn; newline] ++ Q "ko==" ++ [newline] in
  filter isBase64Char (toLatin1 text)
  = filter isBase64Char (toLatin1 (xorEncrypt (Q "ABC") (Q "k"))) /\
  xorDecrypt text (Q "k") = xorDecrypt (xorEncrypt (Q "ABC") (Q "k")) (Q "k") /\
  xorDecrypt text (Q "k") = Q "ABC".
Proof.
  cbv zeta.
  set (text := Q "  Ki" ++ [carriageReturn; newline] ++ Q "ko==" ++ [newline]).
  assert (Hsame : filter isBase64Char (toLatin1 text)
                  = filter isBase64Char
                      (toLatin1 (xorEncrypt (Q "ABC") (Q "k"))))
    by (vm_compute; reflexivity).
  assert (Hk : Q "k" <> []) by discriminate.
  destruct (xorDecrypt_ignores_other_characters text
              (xorEncrypt (Q "ABC") (Q "k")) (Q "ABC") (Q "k") Hsame)
    as [Hequal Hplain].
  split; [exact Hsame|]. split; [exact Hequal|].
  exact (Hplain Hk eq_refl).
Defined.

Lemma wrong_key_changes_plaintext_witness :
  let data := LicenseData.toJsonString issuedOnMachine in
  let key1 := generateKeyFromMac (Q "AA:BB:CC:DD:EE:FF") in
  let key2 := generateKeyFromMac (Q "AA:BB:CC:DD:EE:00") in
  xorDecrypt (xorEncrypt data key1) key2 <> data.
Proof.
  cbv zeta. apply wrong_key_changes_plaintext.
  - discriminate.
  - reflexivity.
  - discriminate.
  - vm_compute. lia.
Defined.

Lemma record_round_trip_witness :
  LicenseData.fromJsonString (LicenseData.toJsonString issuedOnMachine)
  = issuedOnMachine.
Proof.
  apply (record_round_trip issuedOnMachine (objectOf issuedOnMachine)).
  - vm_compute. reflexivity.
  - reflexivity.
  - vm_compute. reflexivity.
  - vm_compute. reflexivity.
Defined.

Lemma valid_license_isValid_witness :
  LicenseData.isValid (getCurrentDateTimeSafe activatedMachine)
    (loadLicense activatedMachine) = true.
Proof.
  apply valid_license_isValid; vm_compute; reflexivity.
Defined.

Lemma anchor_write_then_read_witness :
  loadUuidFromConfig (snd (saveUuidToConfig machine someUuid)) = someUuid.
Proof.
  refine (proj2 (anchor_write_then_read machine
                   (snd (saveUuidToConfig machine someUuid)) someUuid _ _)).
  - vm_compute. reflexivity.
  - reflexivity.
Defined.

Lemma failed_anchor_write_witness :
  let w := lockedAnchor machine in
  saveUuidToConfig w someUuid = (false, w) /\
  cmake_file (snd (saveUuidToConfig w someUuid)) = cmake_file w.
Proof.
  cbv zeta.
  assert (Hfail : saveUuidToConfig (lockedAnchor machine) someUuid
                  = (false, snd (saveUuidToConfig (lockedAnchor machine)
                                   someUuid)))
    by (vm_compute; reflexivity).
  destruct (failed_anchor_write _ _ _ Hfail) as [_ [Hsame _]].
  assert (Hw : snd (saveUuidToConfig (lockedAnchor machine) someUuid)
               = lockedAnchor machine)
    by (apply Hsame; left; discriminate).
  rewrite Hw in Hfail. split; [exact Hfail | rewrite Hw; reflexivity].
Defined.

Lemma rewrite_replaces_marker_witness :
  let rest := [newline] ++ Q "  add_subdirectory(unit)" ++ [newline] in
  let content :=
    marker ++ otherUuid ++ [carriageReturn; newline; carriageReturn; newline]
      ++ Q "  add_subdirectory(unit)" ++ [carriageReturn; newline] in
  let w := withFiles machine None (Some content) 0 in
  let newContent :=
    uuidComment someUuid ++ Q "add_subdirectory(unit)" ++ [newline] in
  fromUtf8 (readText content) = uuidComment otherUuid ++ rest /\
  saveUuidToConfig w someUuid
  = (true, set_cmake_file w newContent (WroteCMakeLists newContent)) /\
  fromUtf8 (readText newContent) = newContent.
Proof.
  cbv zeta.
  set (rest := [newline] ++ Q "  add_subdirectory(unit)" ++ [newline]).
  set (content := marker ++ otherUuid
                    ++ [carriageReturn; newline; carriageReturn; newline]
                    ++ Q "  add_subdirectory(unit)"
                    ++ [carriageReturn; newline]).
  set (w := withFiles machine None (Some content) 0).
  assert (Htext : fromUtf8 (readText content) = uuidComment otherUuid ++ rest)
    by (vm_compute; reflexivity).
  split; [exact Htext|].
  exact (rewrite_replaces_marker w otherUuid someUuid rest content
           eq_refl eq_refl eq_refl Htext eq_refl eq_refl eq_refl).
Defined.

Lemma saved_license_loads_witness :
  loadLicense (snd (saveLicense machine issuedOnMachine)) = issuedOnMachine.
Proof.
  assert (Hsave : saveLicense machine issuedOnMachine
                  = (true, snd (saveLicense machine issuedOnMachine)))
    by (vm_compute; reflexivity).
  assert (Hmac : LicenseData.mac issuedOnMachine <> []) by discriminate.
  destruct (saved_license_loads machine _ issuedOnMachine Hsave
              eq_refl Hmac eq_refl)
    as [_ Hload].
  rewrite Hload. vm_compute. reflexivity.
Defined.

Lemma activation_refused_witness :
  activateNewLicense machine someUuid (Q "   ") = (false, machine).
Proof.
  apply activation_refused. right. right. reflexivity.
Defined.

Lemma failed_activation_keeps_new_blob_witness :
  let w := lockedAnchor activatedMachine in
  let '(ok, w') := activateNewLicense w otherUuid userEmail in
  hasValidLicense w = true /\ ok = false /\
  license_file w' = Some (blobOf (issuedRecord w otherUuid userEmail)) /\
  hasValidLicense w' = false.
Proof.
  cbv zeta.
  set (w := lockedAnchor activatedMachine).
  assert (Hmac : getFirstMacAddress w <> []) by discriminate.
  assert (Hgen : otherUuid <> []) by discriminate.
  assert (Hemail : trimmed userEmail <> []) by discriminate.
  assert (Hjson : LicenseData.toJsonString (issuedRecord w otherUuid userEmail)
                  <> []) by discriminate.
  destruct (failed_activation_keeps_new_blob w otherUuid userEmail
              (uuidComment someUuid ++ Q "add_subdirectory(unit)"
                 ++ [newline])
              Hmac Hgen Hemail Hjson eq_refl eq_refl eq_refl)
    as [Hact Hinvalid].
  rewrite Hact.
  split; [vm_compute; reflexivity|]. split; [reflexivity|].
  split; [reflexivity|].
  apply Hinvalid.
  - vm_compute. reflexivity.
  - vm_compute. discriminate.
Defined.

Lemma validity_window_witness :
  exists expiry,
    LicenseData.expires (loadLicense activatedMachine) = Some expiry /\
    (currentDateTime activatedMachine < expiry)%Z /\
    forall t, hasValidLicense (atTime activatedMachine t) = (t <? expiry)%Z.
Proof.
  apply validity_window. vm_compute. reflexivity.
Defined.

Lemma readsBack_record : readsBack issuedOnMachine.
Proof.
  unfold readsBack. cbv zeta.
  split; [vm_compute; reflexivity|]. split; [vm_compute; reflexivity|].
  split; [vm_compute; reflexivity|].
  exists 1702592000000%Z, 1702592000000%Z.
  split; [vm_compute; reflexivity|]. split; [vm_compute; reflexivity|].
  lia.
Qed.

Lemma activation_gives_valid_license_witness :
  LicenseData.expires issuedOnMachine = Some 1702592000000%Z /\
  hasValidLicense (atTime activatedMachine 1700000000000) = true /\
  hasValidLicense (atTime activatedMachine 1702591999000) = true /\
  hasValidLicense (atTime activatedMachine 1702592000000) = false.
Proof.
  assert (Hact : activateNewLicense machine someUuid userEmail
                 = (true, activatedMachine)) by (vm_compute; reflexivity).
  destruct (activation_gives_valid_license machine activatedMachine someUuid
              userEmail Hact eq_refl eq_refl readsBack_record)
    as [Hexp [_ [_ H]]].
  split; [exact Hexp|]. split; [|split].
  - apply (proj1 (H 1700000000000%Z)). vm_compute. discriminate.
  - apply (proj1 (H 1702591999000%Z)). vm_compute. discriminate.
  - apply (proj2 (H 1702592000000%Z)). vm_compute. discriminate.
Defined.

Lemma paywall_without_email_witness :
  let choice := ActivateClicked {| accepted := true; typed := Q "  " |} in
  showPaywall machine someUuid choice
  = ([WarningShown; PaywallScheduled 500], machine).
Proof.
  cbv zeta.
  set (choice := ActivateClicked {| accepted := true; typed := Q "  " |}).
  assert (Hblank : forall answer,
             choice = ActivateClicked answer ->
             accepted answer = false
             \/ forallb isSpace (typed answer) = true).
  { intros answer H. injection H as <-. right. reflexivity. }
  destruct (paywall_without_email machine someUuid choice Hblank)
    as [Hw [_ Hev]].
  rewrite (surjective_pairing (showPaywall machine someUuid choice)).
  rewrite Hw, (Hev _ eq_refl eq_refl); [reflexivity | discriminate].
Defined.

Lemma restart_finds_valid_license_witness :
  let answer := {| accepted := true; typed := userEmail |} in
  let '(events, w') := showActivationDialog machine someUuid answer in
  events = [InformationShown; StartDetached; QuitRequested] /\
  hasValidLicense w' = true /\ paywallEntryPoint w' = [].
Proof.
  cbv zeta.
  set (answer := {| accepted := true; typed := userEmail |}).
  assert (Hshow : showActivationDialog machine someUuid answer
                  = ([InformationShown; StartDetached; QuitRequested],
                     activatedMachine)) by (vm_compute; reflexivity).
  rewrite Hshow. split; [reflexivity|].
  destruct (restart_finds_valid_license machine activatedMachine someUuid answer
              _ Hshow eq_refl) as [_ H].
  apply H; [reflexivity | reflexivity | exact readsBack_record].
Defined.

Lemma write_prepends_iff_no_marker_witness :
  let content :=
    Q "project(x)" ++ [carriageReturn; newline]
      ++ Q "add_subdirectory(unit)" ++ [carriageReturn; newline] in
  let w := withFiles machine None (Some content) 0 in
  firstMatch (fromUtf8 (readText content)) = None /\
  cmake_file (snd (saveUuidToConfig w someUuid))
  = Some (uuidComment someUuid ++ Q "project(x)" ++ [newline]
            ++ Q "add_subdirectory(unit)" ++ [newline]).
Proof.
  cbv zeta.
  set (content := Q "project(x)" ++ [carriageReturn; newline]
                    ++ Q "add_subdirectory(unit)"
                    ++ [carriageReturn; newline]).
  set (w := withFiles machine None (Some content) 0).
  assert (Hnone : firstMatch (fromUtf8 (readText content)) = None)
    by (vm_compute; reflexivity).
  split; [exact Hnone|].
  exact (proj2 (write_prepends_iff_no_marker w someUuid content
                  eq_refl eq_refl eq_refl eq_refl) Hnone).
Defined.

Lemma no_files_no_license_witness :
  hasValidLicense activatedMachine = true /\
  hasValidLicense
    (withFiles activatedMachine (license_file activatedMachine) None
       (currentDateTime activatedMachine)) = false.
Proof.
  split; [vm_compute; reflexivity|].
  apply no_files_no_license. right. right. right. left. reflexivity.
Defined.

End FurtherOnTheSampleMachine.

(* ===================================================================== *)
(** ** The model at work *)
(* ===================================================================== *)

Section Examples.
Import Sample.

(** The base64 of Qt on the test vectors of RFC 4648, and its lenient
    decoding. *)
Example toBase64_vectors :
  toBase64 (Q "f") = Q "Zg==" /\ toBase64 (Q "fo") = Q "Zm8=" /\
  toBase64 (Q "foo") = Q "Zm9v" /\ toBase64 (Q "foob") = Q "Zm9vYg==" /\
  toBase64 (Q "fooba") = Q "Zm9vYmE=" /\ toBase64 (Q "foobar") = Q "Zm9vYmFy".
Proof. repeat split; reflexivity. Qed.

Example fromBase64_vectors :
  fromBase64 (Q "Zm9vYg==") = Q "foob" /\
  fromBase64 (Q "Zm9vYg") = Q "foob" /\
  fromBase64 (Q "Zm 9v*Yg") = Q "foob" /\
  fromBase64 (Q "Z") = [] /\ fromBase64 (Q "!?") = [].
Proof. repeat split; reflexivity. Qed.

(** [QString::fromUtf8]: a byte-order mark in front is dropped, every
    byte that is not well formed (here a lone continuation byte, and the
    three bytes of a surrogate) becomes U+FFFD, and text is taken over,
    with a byte-order mark that is not in front. *)
Example fromUtf8_vectors :
  fromUtf8 (byteOrderMark ++ Q "a") = Q "a" /\
  fromUtf8 (Q "a" ++ ["148"%char] ++ Q "b") = Q "a" ++ replacement ++ Q "b" /\
  fromUtf8 ["237"%char; "160"%char; "128"%char]
  = replacement ++ replacement ++ replacement /\
  fromUtf8 (Q "a" ++ ["195"%char; "169"%char] ++ byteOrderMark)
  = Q "a" ++ ["195"%char; "169"%char] ++ byteOrderMark.
Proof. repeat split; reflexivity. Qed.

(** Decoding with a key that gives bytes which are not text. *)
Example xorDecrypt_not_text :
  fromBase64 (Q "/w==") = ["255"%char] /\
  xorDecrypt (Q "/w==") (Q "k") = replacement.
Proof. split; reflexivity. Qed.

(** [QString::toLatin1] and [QString::trimmed] on text that is not
    ASCII: U+00E9 has a Latin-1 byte and U+20AC has none; U+00A0 and
    U+2003 are white space. *)
Example toLatin1_trimmed_vectors :
  toLatin1 (Q "a" ++ ["195"%char; "169"%char] ++ Q "b"
              ++ ["226"%char; "130"%char; "172"%char])
  = Q "a" ++ ["233"%char] ++ Q "b?" /\
  trimmed (["194"%char; "160"%char] ++ Q " a b" ++ [newline]
             ++ ["226"%char; "128"%char; "131"%char])
  = Q "a b".
Proof. split; reflexivity. Qed.

(** Reading in text mode. *)
Example readText_vectors :
  readText (Q "a" ++ [carriageReturn; newline] ++ Q "b" ++ [carriageReturn])
  = Q "a" ++ [newline] ++ Q "b".
Proof. reflexivity. Qed.

(** The two regular expressions on a small file. *)
Example pattern_on_a_file :
  let content :=
    Q "project(x)" ++ [newline] ++ Q "# PAYWALL_UUID: 12ab-cd" ++ [newline]
      ++ Q "add_subdirectory(unit)" ++ [newline] in
  firstMatch content = Some (Q "12ab-cd") /\
  removeUuidPattern content
  = Q "project(x)" ++ [newline] ++ Q "add_subdirectory(unit)" ++ [newline].
Proof. split; reflexivity. Qed.

Example getFirstMacAddress_machine :
  getFirstMacAddress machine = Q "AA:BB:CC:DD:EE:FF" /\
  systemHasMacAddress machine (Q "00:00:00:00:00:00") = true /\
  systemHasMacAddress machine [] = false.
Proof. repeat split; reflexivity. Qed.

Example xorEncrypt_abc :
  xorEncrypt (Q "ABC") (Q "k") = Q "Kiko" /\
  xorDecrypt (Q "Kiko") (Q "k") = Q "ABC".
Proof. split; reflexivity. Qed.

(** Activation on the sample machine, then validation: valid at once,
    invalid 31 days later. *)
Example activate_then_validate :
  let '(ok, w) := activateNewLicense machine someUuid (Q " a@example.com ") in
  ok = true /\
  cmake_file w
  = Some (uuidComment someUuid ++ Q "add_subdirectory(unit)" ++ [newline]) /\
  LicenseData.email (loadLicense w) = Q "a@example.com" /\
  LicenseData.mac (loadLicense w) = Q "AA:BB:CC:DD:EE:FF" /\
  hasValidLicense w = true /\
  hasValidLicense
    (withFiles w (license_file w) (cmake_file w)
       (currentDateTime w + 31 * 86400000)) = false.
Proof. vm_compute. repeat split; reflexivity. Qed.

(** An activation three weeks before the end of summer time: the
    license expires at the same time of day 30 days later, which is 30
    days and one hour after the activation. *)
Example activation_before_end_of_summer_time :
  let w := withFiles machine None (cmake_file machine) 1697000000000 in
  let '(ok, w') := activateNewLicense w someUuid userEmail in
  ok = true /\
  LicenseData.expires (issuedRecord w someUuid userEmail)
  = Some (1697000000000 + 30 * 86400000 + 3600000)%Z /\
  hasValidLicense (atTime w' (1697000000000 + 30 * 86400000)) = true /\
  hasValidLicense (atTime w' (1697000000000 + 30 * 86400000 + 3600000))
  = false.
Proof. vm_compute. repeat split; reflexivity. Qed.

(** A carriage return inside a marker text counts for nothing, because
    the program does not see it: this file is read as three marker texts
    one in the other, and two writes leave two marker lines. *)
Example carriage_return_in_marker :
  let content :=
    Q "# PAYWALL_# PAYWALL_# PAYWALL_" ++ [carriageReturn] ++ Q "UUID: a"
      ++ [newline] ++ Q "UUID: b" ++ [newline] ++ Q "UUID: c" ++ [newline] in
  let w := withFiles machine None (Some content) 0 in
  let w2 := snd (saveUuidToConfig (snd (saveUuidToConfig w someUuid))
                   otherUuid) in
  firstMatch content = None /\
  firstMatch (removeUuidPattern (anchorContent w))
  = Some (Q "b") /\
  markerLines (anchorContent w2)
  = [uuidComment otherUuid; Q "# PAYWALL_UUID: c" ++ [newline]].
Proof. vm_compute. repeat split; reflexivity. Qed.

(** With a blob file that cannot be opened for writing nothing is
    written. *)
Example activation_blob_not_writable :
  activateNewLicense (readOnlyBlob machine) someUuid (Q "a@example.com")
  = (false, readOnlyBlob machine).
Proof. reflexivity. Qed.

(** Without an anchor file: the blob is written, the anchor file is
    created, and the marker line is written into it. *)
Example activation_creates_anchor :
  let w := withFiles machine None None 1700000000000 in
  let '(ok, w') := activateNewLicense w someUuid (Q "a@example.com") in
  ok = true /\
  journal w'
  = [WroteLicense (blobOf (issuedRecord w someUuid (Q "a@example.com")));
     CreatedCMakeLists;
     WroteCMakeLists (uuidComment someUuid)] /\
  hasValidLicense w' = true.
Proof. vm_compute. repeat split; reflexivity. Qed.

End Examples.
